(** * lisp.c: a shallow embedding of the interpreter and its collector

    The C program keeps every object in pages obtained from [malloc]; a
    [Lisp] value is a tagged word that is either an immediate or the
    address of a block.  The embedding keeps that picture: a [World]
    holds the pages, the blocks written so far (by address), the context
    record and what was printed on stderr, and every C function that
    touches memory is a state transformer over it. *)

From Stdlib Require Import ZArith Lia String Ascii List Bool.
From Stdlib Require Import Floats.SpecFloat.
From stdpp Require Import base tactics option list gmap strings.

Local Open Scope Z_scope.
#[local] Set Warnings "-clear-no-such-hyp".

(** ** lisp.h *)

(** Modelled from the spec: lisp.h is not part of the sources.  The type
    tags follow the order of [lisp_type_name] in lisp.c. *)
Inductive LispType :=
| LISP_NULL | LISP_FLOAT | LISP_INT | LISP_PAIR | LISP_SYMBOL
| LISP_STRING | LISP_LAMBDA | LISP_FUNC | LISP_TABLE.

(** Modelled from the spec: the error codes, in the order of section 6. *)
Inductive LispError :=
| LISP_ERROR_NONE | LISP_ERROR_FILE_OPEN | LISP_ERROR_PAREN_UNEXPECTED
| LISP_ERROR_PAREN_EXPECTED | LISP_ERROR_BAD_TOKEN | LISP_ERROR_BAD_QUOTE
| LISP_ERROR_BAD_DEFINE | LISP_ERROR_BAD_SET | LISP_ERROR_BAD_COND
| LISP_ERROR_BAD_AND | LISP_ERROR_BAD_OR | LISP_ERROR_BAD_LET
| LISP_ERROR_BAD_LAMBDA | LISP_ERROR_UNKNOWN_VAR | LISP_ERROR_BAD_OP
| LISP_ERROR_BAD_ARG | LISP_ERROR_UNKNOWN_EVAL.

(** The union inside a [Lisp]: [int_val], [float_val] or [val].  A C
    [float] is a binary32 number, kept as its sign, mantissa and exponent;
    a primitive is the index of a host function. *)
Inductive LispWord :=
| IntVal (n : Z)
| FloatVal (x : spec_float)
| Ptr (p : Z)
| FuncPtr (f : nat).

Record Lisp := mkLisp { lisp_type : LispType; lisp_val : LispWord }.

#[global] Instance LispType_eq_dec : EqDecision LispType.
Proof. solve_decision. Defined.
#[global] Instance LispError_eq_dec : EqDecision LispError.
Proof. solve_decision. Defined.
#[global] Instance spec_float_eq_dec : EqDecision spec_float.
Proof. solve_decision. Defined.
#[global] Instance LispWord_eq_dec : EqDecision LispWord.
Proof. solve_decision. Defined.
#[global] Instance Lisp_eq_dec : EqDecision Lisp.
Proof. solve_decision. Defined.

Definition lisp_null : Lisp := mkLisp LISP_NULL (IntVal 0).
Definition lisp_make_int (n : Z) : Lisp := mkLisp LISP_INT (IntVal n).
Definition lisp_make_float (x : spec_float) : Lisp := mkLisp LISP_FLOAT (FloatVal x).
Definition lisp_make_func (f : nat) : Lisp := mkLisp LISP_FUNC (FuncPtr f).

Definition lisp_is_null (l : Lisp) : bool := bool_decide (lisp_type l = LISP_NULL).

(** Modelled from the spec: [lisp_eq] is declared in lisp.h; symbols
    "compare by pointer identity", so it compares the words. *)
Definition lisp_eq (a b : Lisp) : bool := bool_decide (lisp_val a = lisp_val b).

(** ** Machine integers *)

Definition u32 (x : Z) : Z := x mod 2 ^ 32.
Definition u16 (x : Z) : Z := x mod 2 ^ 16.
Definition INT_MIN : Z := - 2 ^ 31.
Definition INT_MAX : Z := 2 ^ 31 - 1.

(** ** Sizes of the C structures

    The sizes depend on lisp.h and on the ABI; the code only adds and
    compares them, so they are parameters of the development. *)
Class Layout := {
  sizeof_Page : Z;
  sizeof_LispBlock : Z;
  sizeof_Lisp : Z;
  sizeof_Table : Z;
  sizeof_Symbol : Z;
  sizeof_Lambda : Z;
  sizeof_Page_pos : 0 < sizeof_Page;
  sizeof_LispBlock_pos : 0 < sizeof_LispBlock;
  sizeof_LispBlock_small : sizeof_LispBlock < 2 ^ 16;
  sizeof_Lisp_pos : 0 < sizeof_Lisp;
  sizeof_Lisp_small : sizeof_Lisp < 2 ^ 16;
  sizeof_Table_pos : 0 < sizeof_Table;
  sizeof_Table_small : sizeof_Table < 2 ^ 16;
  sizeof_Symbol_pos : 0 < sizeof_Symbol;
  sizeof_Symbol_small : sizeof_Symbol < 2 ^ 16;
  sizeof_Lambda_pos : 0 < sizeof_Lambda;
  sizeof_Lambda_small : sizeof_Lambda < 2 ^ 16;
}.

(** ** Blocks, pages, heaps, context *)

Definition GC_CLEAR : Z := 0.
Definition GC_MOVED : Z := 1.
Definition GC_VISITED : Z := 2.

(** The payload that follows a block header, seen through the cast the
    code applies to it: two [Lisp] for a pair, a [Symbol], the bytes of a
    string, a [Lambda], a [Table].  [DUninit] is a payload nothing was
    stored in yet. *)
Inductive BlockData :=
| DUninit
| DPair (car cdr : Lisp)
| DSymbol (hash : Z) (name : string)
| DString (s : string)
| DLambda (identifier : Z) (args body env : Lisp)
| DTable (size capacity : Z) (entries : list Lisp).

Record LispBlock := mkBlock {
  gc_flags : Z;
  data_size : Z;
  block_type : LispType;
  data : BlockData;
}.

(** [struct Page]; [page_next = 0] is the NULL pointer, and the buffer of
    the page at address [p] starts at [p + sizeof_Page]. *)
Record Page := mkPage {
  page_size : Z;
  page_capacity : Z;
  page_next : Z;
}.

Record Heap := mkHeap {
  heap_page : Z;
  heap_first_page : Z;
  heap_size : Z;
}.

Record LispContext := mkContext {
  heap : Heap;
  to_heap : Heap;
  symbol_table : Lisp;
  global_env : Lisp;
  lambda_counter : Z;
}.

(** The memory of the process and the one context living in it. [brk] is
    the address the next [malloc] returns. *)
Record World := mkWorld {
  pages : gmap Z Page;
  blocks : gmap Z LispBlock;
  brk : Z;
  ctx : LispContext;
  stderr : list string;
}.

Definition set_pages (f : gmap Z Page → gmap Z Page) (w : World) : World :=
  mkWorld (f (pages w)) (blocks w) (brk w) (ctx w) (stderr w).
Definition set_blocks (f : gmap Z LispBlock → gmap Z LispBlock) (w : World) : World :=
  mkWorld (pages w) (f (blocks w)) (brk w) (ctx w) (stderr w).
Definition set_brk (b : Z) (w : World) : World :=
  mkWorld (pages w) (blocks w) b (ctx w) (stderr w).
Definition set_ctx (f : LispContext → LispContext) (w : World) : World :=
  mkWorld (pages w) (blocks w) (brk w) (f (ctx w)) (stderr w).
Definition fprintf_stderr (s : string) (w : World) : World :=
  mkWorld (pages w) (blocks w) (brk w) (ctx w) (stderr w ++ [s]).

(** [&ctx->heap] or [&ctx->to_heap]. *)
Inductive HeapRef := HEAP | TO_HEAP.

Definition get_heap (h : HeapRef) (c : LispContext) : Heap :=
  match h with HEAP => heap c | TO_HEAP => to_heap c end.
Definition set_heap (h : HeapRef) (hp : Heap) (c : LispContext) : LispContext :=
  match h with
  | HEAP => mkContext hp (to_heap c) (symbol_table c) (global_env c) (lambda_counter c)
  | TO_HEAP => mkContext (heap c) hp (symbol_table c) (global_env c) (lambda_counter c)
  end.
Definition set_symbol_table (l : Lisp) (c : LispContext) : LispContext :=
  mkContext (heap c) (to_heap c) l (global_env c) (lambda_counter c).
Definition set_global_env (l : Lisp) (c : LispContext) : LispContext :=
  mkContext (heap c) (to_heap c) (symbol_table c) l (lambda_counter c).
Definition set_lambda_counter (n : Z) (c : LispContext) : LispContext :=
  mkContext (heap c) (to_heap c) (symbol_table c) (global_env c) n.

(** ** Outcomes

    A C function returns ([Ok]), leaves through [longjmp] ([Throw]), or
    executes something the language leaves undefined, such as reading
    through a pointer that addresses no block ([Undef], with the world at
    that point).  Loops take fuel; [NoFuel] is the run that needs more. *)
Inductive result (A : Type) :=
| Ok (a : A) (w : World)
| Throw (e : LispError) (w : World)
| Undef (w : World)
| NoFuel.
Arguments Ok {A} a w.
Arguments Throw {A} e w.
Arguments Undef {A} w.
Arguments NoFuel {A}.

Definition M (A : Type) : Type := World → result A.

Definition ret {A} (a : A) : M A := fun w => Ok a w.
Definition bind {A B} (m : M A) (k : A → M B) : M B :=
  fun w => match m w with
           | Ok a w' => k a w'
           | Throw e w' => Throw e w'
           | Undef w' => Undef w'
           | NoFuel => NoFuel
           end.
Definition longjmp {A} (e : LispError) : M A := fun w => Throw e w.
Definition undefined {A} : M A := fun w => Undef w.
Definition out_of_fuel {A} : M A := fun _ => NoFuel.
Definition get : M World := fun w => Ok w w.
Definition modify (f : World → World) : M unit := fun w => Ok tt (f w).

Notation "'do' x <- m ; k" := (bind m (fun x => k))
  (at level 10, x name, m at level 100, k at level 200).
Notation "'do' ' p <- m ; k" := (bind m (fun x => match x with p => k end))
  (at level 10, p pattern, m at level 100, k at level 200).
Notation "m ;; k" := (bind m (fun _ => k))
  (at level 100, k at level 200, right associativity).

Section Machine.
Context {L : Layout}.

(** ** Heap and pages *)

Definition PAGE_SIZE : Z := 8192.

Definition page_buffer (p : Z) : Z := p + sizeof_Page.

Definition page_create (capacity : Z) : M Z := fun w =>
  let p := brk w in
  Ok p (set_brk (p + sizeof_Page + capacity)
          (set_pages (insert p (mkPage 0 capacity 0)) w)).

Definition read_page (p : Z) : M Page := fun w =>
  match pages w !! p with
  | Some pg => Ok pg w
  | None => Undef w
  end.

Definition write_page (p : Z) (pg : Page) : M unit :=
  modify (set_pages (insert p pg)).

Definition read_block (a : Z) : M LispBlock := fun w =>
  match blocks w !! a with
  | Some b => Ok b w
  | None => Undef w
  end.

Definition write_block (a : Z) (b : LispBlock) : M unit :=
  modify (set_blocks (insert a b)).

Definition heap_init (h : HeapRef) : M unit :=
  do p <- page_create PAGE_SIZE;
  modify (set_ctx (set_heap h (mkHeap p p 0))).

Definition heap_alloc (data_size : Z) (type : LispType) (gc_flags : Z) (h : HeapRef) : M Z :=
  let alloc_size := u32 (data_size + sizeof_LispBlock) in
  do w <- get;
  let hp := get_heap h (ctx w) in
  let page := heap_page hp in
  do pg <- read_page page;
  do page <-
    (if u32 (page_size pg + alloc_size) >? page_capacity pg then
       do reuse <-
         (if page_next pg =? 0 then ret false
          else do nx <- read_page (page_next pg);
               ret (u32 (page_size nx + alloc_size) >? page_capacity pg));
       if reuse : bool then
         (* reuse the next page *)
         modify (set_ctx (set_heap h (mkHeap (page_next pg) (heap_first_page hp) (heap_size hp))));;
         ret (page_next pg)
       else
         (* we need a new page *)
         let size := if alloc_size <=? PAGE_SIZE then PAGE_SIZE else alloc_size in
         do new_page <- page_create size;
         write_page new_page (mkPage 0 size (page_next pg));;
         write_page page (mkPage (page_size pg) (page_capacity pg) new_page);;
         modify (set_ctx (set_heap h (mkHeap new_page (heap_first_page hp) (heap_size hp))));;
         ret new_page
     else ret page);
  do pg <- read_page page;
  let block := page_buffer page + page_size pg in
  write_block block (mkBlock gc_flags data_size type DUninit);;
  write_page page (mkPage (u32 (page_size pg + alloc_size)) (page_capacity pg) (page_next pg));;
  do w <- get;
  let hp := get_heap h (ctx w) in
  modify (set_ctx (set_heap h (mkHeap (heap_page hp) (heap_first_page hp) (heap_size hp + alloc_size))));;
  ret block.

Definition gc_alloc (data_size : Z) (type : LispType) : M Z :=
  heap_alloc data_size type GC_CLEAR HEAP.

(** ** Pairs and lists *)

Definition set_data (d : BlockData) (b : LispBlock) : LispBlock :=
  mkBlock (gc_flags b) (data_size b) (block_type b) d.

(** [l.val] used as a block pointer: the address and the block there. *)
Definition block_of (l : Lisp) : M (Z * LispBlock) :=
  match lisp_val l with
  | Ptr p => do b <- read_block p; ret (p, b)
  | _ => undefined
  end.

(** Modelled from the spec: [lisp_car], [lisp_cdr] and their setters are
    the accessors of lisp.h; [lisp_cdr(l) = p] in [lisp_reverse_inplace]
    shows that they expand to the two payload slots of the block [l.val]
    points to, with no test of [l].  Applied to a value that addresses no
    pair block they are undefined. *)
Definition lisp_car (l : Lisp) : M Lisp :=
  do '(_, b) <- block_of l;
  match data b with DPair car _ => ret car | _ => undefined end.

Definition lisp_cdr (l : Lisp) : M Lisp :=
  do '(_, b) <- block_of l;
  match data b with DPair _ cdr => ret cdr | _ => undefined end.

Definition lisp_set_car (l x : Lisp) : M unit :=
  do '(p, b) <- block_of l;
  match data b with
  | DPair _ cdr => write_block p (set_data (DPair x cdr) b)
  | _ => undefined
  end.

Definition lisp_set_cdr (l x : Lisp) : M unit :=
  do '(p, b) <- block_of l;
  match data b with
  | DPair car _ => write_block p (set_data (DPair car x) b)
  | _ => undefined
  end.

(** [lisp_set_car] and [lisp_set_cdr] on the block just allocated are one
    store of both slots. *)
Definition lisp_cons (car cdr : Lisp) : M Lisp :=
  do p <- gc_alloc (sizeof_Lisp * 2) LISP_PAIR;
  do b <- read_block p;
  write_block p (set_data (DPair car cdr) b);;
  ret (mkLisp (block_type b) (Ptr p)).

(** [front] and [back] are passed by address; the new values are returned. *)
Definition back_append (front back item : Lisp) : M (Lisp * Lisp) :=
  do new_l <- lisp_cons item lisp_null;
  if lisp_is_null back then ret (new_l, new_l)
  else lisp_set_cdr back new_l;; ret (front, new_l).

Fixpoint lisp_append_loop (fuel : nat) (l tail : Lisp) : M Lisp :=
  if lisp_is_null l then ret tail
  else match fuel with
       | O => out_of_fuel
       | S fuel =>
           do x <- lisp_car l;
           do cell <- lisp_cons x lisp_null;
           lisp_set_cdr tail cell;;
           do l <- lisp_cdr l;
           lisp_append_loop fuel l cell
       end.

Definition lisp_append (fuel : nat) (l l2 : Lisp) : M Lisp :=
  if lisp_is_null l then ret l
  else
    do x <- lisp_car l;
    do tail <- lisp_cons x lisp_null;
    let start := tail in
    do l <- lisp_cdr l;
    do tail <- lisp_append_loop fuel l tail;
    lisp_set_cdr tail l2;;
    ret start.

Fixpoint lisp_at_index_loop (i : nat) (l : Lisp) : M Lisp :=
  match i with
  | O => lisp_car l
  | S i =>
      if bool_decide (lisp_type l = LISP_PAIR)
      then do l <- lisp_cdr l; lisp_at_index_loop i l
      else ret lisp_null
  end.

Definition lisp_at_index (l : Lisp) (i : Z) : M Lisp :=
  lisp_at_index_loop (Z.to_nat i) l.

(** [count] is an [int]; a list long enough to overflow it does not fit
    the address space of the pages, and the wrap is not modelled. *)
Fixpoint lisp_length_loop (fuel : nat) (l : Lisp) (count : Z) : M Z :=
  if lisp_is_null l then ret count
  else match fuel with
       | O => out_of_fuel
       | S fuel => do l <- lisp_cdr l; lisp_length_loop fuel l (count + 1)
       end.

Definition lisp_length (fuel : nat) (l : Lisp) : M Z := lisp_length_loop fuel l 0.

(** The variadic arguments after [first], as the list the caller wrote;
    reading past its end (no terminating null) is undefined. *)
Fixpoint lisp_make_listv_loop (front back : Lisp) (args : list Lisp) : M Lisp :=
  match args with
  | [] => undefined
  | it :: args =>
      if lisp_is_null it then ret front
      else do '(front, back) <- back_append front back it;
           lisp_make_listv_loop front back args
  end.

Definition lisp_make_listv (first : Lisp) (args : list Lisp) : M Lisp :=
  do front <- lisp_cons first lisp_null;
  lisp_make_listv_loop front front args.

(** [lisp_make_list]: the [for (i = 0; i < n; ++i)] loop, [n] an [int]. *)
Fixpoint lisp_make_list_loop (n : nat) (front back x : Lisp) : M Lisp :=
  match n with
  | O => ret front
  | S n =>
      do '(front, back) <- back_append front back x;
      lisp_make_list_loop n front back x
  end.

Definition lisp_make_list (x : Lisp) (n : Z) : M Lisp :=
  lisp_make_list_loop (Z.to_nat n) lisp_null lisp_null x.

Fixpoint lisp_reverse_inplace_loop (fuel : nat) (l p : Lisp) : M Lisp :=
  if bool_decide (lisp_type l = LISP_PAIR) then
    match fuel with
    | O => out_of_fuel
    | S fuel =>
        do next <- lisp_cdr l;
        lisp_set_cdr l p;;
        lisp_reverse_inplace_loop fuel next l
    end
  else ret p.

Definition lisp_reverse_inplace (fuel : nat) (l : Lisp) : M Lisp :=
  lisp_reverse_inplace_loop fuel l lisp_null.

Fixpoint lisp_assoc (fuel : nat) (l key_symbol : Lisp) : M Lisp :=
  if lisp_is_null l then ret lisp_null
  else match fuel with
       | O => out_of_fuel
       | S fuel =>
           do pair <- lisp_car l;
           do found <-
             (if bool_decide (lisp_type pair = LISP_PAIR)
              then do k <- lisp_car pair; ret (lisp_eq k key_symbol)
              else ret false);
           if found : bool then ret pair
           else do l <- lisp_cdr l; lisp_assoc fuel l key_symbol
       end.

(** ** Strings and symbols *)

(** A C string is the list of its bytes before the terminating NUL. *)
Definition strlen (s : string) : Z := Z.of_nat (String.length s).

(** [toupper] and [tolower] in the C locale. *)
Definition toupper (c : ascii) : ascii :=
  let n := nat_of_ascii c in
  if ((97 <=? n) && (n <=? 122))%nat then ascii_of_nat (n - 32) else c.

Definition tolower (c : ascii) : ascii :=
  let n := nat_of_ascii c in
  if ((65 <=? n) && (n <=? 90))%nat then ascii_of_nat (n + 32) else c.

Fixpoint string_map (f : ascii → ascii) (s : string) : string :=
  match s with
  | EmptyString => EmptyString
  | String c s => String (f c) (string_map f s)
  end.

Definition upper (s : string) : string := string_map toupper s.
Definition lower (s : string) : string := string_map tolower s.

(** ** lisp_nav *)

(** [*c]: the character a C string starts with, NUL at its end. *)
Definition head_char (c : string) : ascii :=
  match c with String a _ => a | EmptyString => "000"%char end.

Definition string_tail (c : string) : string :=
  match c with String _ rest => rest | EmptyString => EmptyString end.

(** The first loop of [lisp_nav] stops at an [r] of either case and at
    the end of the string. *)
Definition nav_stop (a : ascii) : bool :=
  bool_decide (toupper a = "R"%char) || bool_decide (a = "000"%char).

(** The characters the first loop passes over, and the text at which it
    stops. *)
Fixpoint nav_scan (c : string) : list ascii * string :=
  match c with
  | String a rest =>
      if nav_stop a then ([], c)
      else let '(path, stop) := nav_scan rest in (a :: path, stop)
  | EmptyString => ([], c)
  end.

(** The second loop walks back over them, from the last to the first. *)
Fixpoint lisp_nav_loop (path : list ascii) (l : Lisp) : M Lisp :=
  match path with
  | [] => ret l
  | a :: path =>
      if bool_decide (toupper a = "D"%char) then
        do l <- lisp_cdr l; lisp_nav_loop path l
      else if bool_decide (toupper a = "A"%char) then
        do l <- lisp_car l; lisp_nav_loop path l
      else ret lisp_null
  end.

Definition lisp_nav (l : Lisp) (c : string) : M Lisp :=
  if negb (bool_decide (toupper (head_char c) = "C"%char)) then ret lisp_null
  else
    let '(path, stop) := nav_scan (string_tail c) in
    if negb (bool_decide (toupper (head_char stop) = "R"%char)) then ret lisp_null
    else lisp_nav_loop (rev path) l.

(** A [char] read as an [int] ([char] is signed). *)
Definition char_val (c : ascii) : Z :=
  let n := Z.of_nat (nat_of_ascii c) in
  if n <? 128 then n else n - 256.

(** [strncasecmp(a, b, n) == 0]. *)
Fixpoint strncasecmp_eq (a b : string) (n : nat) : bool :=
  match n with
  | O => true
  | S n =>
      match a, b with
      | EmptyString, EmptyString => true
      | String x a, String y b =>
          if bool_decide (tolower x = tolower y) then strncasecmp_eq a b n else false
      | _, _ => false
      end
  end.

Definition lisp_make_string (string : string) : M Lisp :=
  let length := u32 (strlen string + 1) in
  do p <- gc_alloc length LISP_STRING;
  do b <- read_block p;
  write_block p (set_data (DString string) b);;
  ret (mkLisp (block_type b) (Ptr p)).

(** A failed [assert] stops the program; it is an undefined outcome here. *)
Definition assert (c : bool) : M unit := if c then ret tt else undefined.

Definition lisp_string (l : Lisp) : M string :=
  assert (bool_decide (lisp_type l = LISP_STRING));;
  do '(_, b) <- block_of l;
  match data b with DString s => ret s | _ => undefined end.

Definition lisp_symbol (l : Lisp) : M string :=
  assert (bool_decide (lisp_type l = LISP_SYMBOL));;
  do '(_, b) <- block_of l;
  match data b with DSymbol _ s => ret s | _ => undefined end.

Definition symbol_hash (l : Lisp) : M Z :=
  assert (bool_decide (lisp_type l = LISP_SYMBOL));;
  do '(_, b) <- block_of l;
  match data b with DSymbol h _ => ret h | _ => undefined end.

(** adler 32; [%] is the C remainder, and the shift and the conversion to
    [unsigned int] keep the low 32 bits. *)
Fixpoint hash_string_loop (c : string) (s1 s2 : Z) : Z :=
  match c with
  | EmptyString => u32 (Z.lor (Z.shiftl s2 16) s1)
  | String x c =>
      let s1 := Z.rem (s1 + char_val (toupper x)) 65521 in
      let s2 := Z.rem (s2 + s1) 65521 in
      hash_string_loop c s1 s2
  end.

Definition hash_string (c : string) : Z := hash_string_loop c 1 0.

(** ** Hash tables *)

Definition lisp_table (l : Lisp) : M (Z * LispBlock * (Z * Z * list Lisp)) :=
  assert (bool_decide (lisp_type l = LISP_TABLE));;
  do '(p, b) <- block_of l;
  match data b with
  | DTable size capacity entries => ret (p, b, (size, capacity, entries))
  | _ => undefined
  end.

(** [table->entries[index]] with [index = hash % table->capacity]. *)
Definition table_entry (capacity : Z) (entries : list Lisp) (hash : Z) : M (nat * Lisp) :=
  if capacity =? 0 then undefined
  else
    let index := Z.to_nat (hash mod capacity) in
    match entries !! index with
    | Some it => ret (index, it)
    | None => undefined
    end.

Fixpoint table_get_string_loop (fuel : nat) (it : Lisp) (string : string) : M Lisp :=
  if lisp_is_null it then ret lisp_null
  else match fuel with
       | O => out_of_fuel
       | S fuel =>
           do pair <- lisp_car it;
           do symbol <- lisp_car pair;
           do name <- lisp_symbol symbol;
           if strncasecmp_eq name string 2048 then ret pair
           else do it <- lisp_cdr it; table_get_string_loop fuel it string
       end.

Definition table_get_string (fuel : nat) (l : Lisp) (string : string) (hash : Z) : M Lisp :=
  do '(_, _, (_, capacity, entries)) <- lisp_table l;
  do '(_, it) <- table_entry capacity entries hash;
  table_get_string_loop fuel it string.

Definition lisp_make_table (capacity : Z) : M Lisp :=
  let size := u32 (sizeof_Table + sizeof_Lisp * capacity) in
  do p <- gc_alloc size LISP_TABLE;
  do b <- read_block p;
  write_block p (set_data (DTable 0 (u16 capacity) (replicate (Z.to_nat capacity) lisp_null)) b);;
  ret (mkLisp (block_type b) (Ptr p)).

Definition lisp_table_set (fuel : nat) (l symbol value : Lisp) : M unit :=
  do '(_, _, (_, capacity, entries)) <- lisp_table l;
  do h <- symbol_hash symbol;
  do '(index, it) <- table_entry capacity entries h;
  do pair <- lisp_assoc fuel it symbol;
  if lisp_is_null pair then
    (* new value. prepend to front of chain *)
    do pair <- lisp_cons symbol value;
    do cell <- lisp_cons pair it;
    do '(p, b, (size, capacity, entries)) <- lisp_table l;
    write_block p (set_data (DTable (u16 (size + 1)) capacity (<[index := cell]> entries)) b)
  else
    (* reassign cdr value (key, val) *)
    lisp_set_cdr pair value.

Definition lisp_table_get (fuel : nat) (l symbol : Lisp) : M Lisp :=
  do '(_, _, (_, capacity, entries)) <- lisp_table l;
  do h <- symbol_hash symbol;
  do '(_, it) <- table_entry capacity entries h;
  lisp_assoc fuel it symbol.

Definition lisp_make_symbol (fuel : nat) (string : string) : M Lisp :=
  let hash := hash_string string in
  do w <- get;
  do pair <- table_get_string fuel (symbol_table (ctx w)) string hash;
  if lisp_is_null pair then
    let string_length := strlen string + 1 in
    (* allocate a new block *)
    do p <- gc_alloc (u32 (sizeof_Symbol + string_length)) LISP_SYMBOL;
    do b <- read_block p;
    (* always convert symbols to uppercase *)
    write_block p (set_data (DSymbol hash (upper string)) b);;
    let l := mkLisp (block_type b) (Ptr p) in
    do w <- get;
    lisp_table_set fuel (symbol_table (ctx w)) l lisp_null;;
    ret l
  else lisp_car pair.

(** ** Lambdas *)

Definition lisp_make_lambda (args body env : Lisp) : M Lisp :=
  do p <- gc_alloc sizeof_Lambda LISP_LAMBDA;
  do w <- get;
  let identifier := lambda_counter (ctx w) in
  modify (set_ctx (set_lambda_counter (identifier + 1)));;
  do b <- read_block p;
  write_block p (set_data (DLambda identifier args body env) b);;
  ret (mkLisp (block_type b) (Ptr p)).

Definition lisp_lambda (lambda : Lisp) : M (Z * Lisp * Lisp * Lisp) :=
  do '(_, b) <- block_of lambda;
  match data b with
  | DLambda identifier args body env => ret (identifier, args, body, env)
  | _ => undefined
  end.

(** ** Environments *)

Definition lisp_make_env (table : Lisp) : M Lisp := lisp_cons table lisp_null.

Definition lisp_env_extend (env table : Lisp) : M Lisp := lisp_cons table env.

Fixpoint lisp_env_lookup (fuel : nat) (it symbol : Lisp) : M Lisp :=
  if lisp_is_null it then ret lisp_null
  else match fuel with
       | O => out_of_fuel
       | S fuel =>
           do table <- lisp_car it;
           do x <- lisp_table_get fuel table symbol;
           if negb (lisp_is_null x) then ret x
           else do it <- lisp_cdr it; lisp_env_lookup fuel it symbol
       end.

Definition lisp_env_define (fuel : nat) (env symbol value : Lisp) : M unit :=
  do table <- lisp_car env;
  lisp_table_set fuel table symbol value.

Definition lisp_env_set (fuel : nat) (env symbol value : Lisp) : M unit :=
  do pair <- lisp_env_lookup fuel env symbol;
  (if lisp_is_null pair then
     do name <- lisp_symbol symbol;
     modify (fprintf_stderr ("error: unknown variable: " ++ name))
   else ret tt);;
  lisp_set_cdr pair value.

(** ** Numeric accessors *)

Definition s32 (x : Z) : Z := (x + 2 ^ 31) mod 2 ^ 32 - 2 ^ 31.

(** The integral part of a float, rounded toward zero. *)
Definition float_trunc (x : spec_float) : option Z :=
  match x with
  | S754_zero _ => Some 0
  | S754_finite s m e =>
      let t := if 0 <=? e then Z.pos m * 2 ^ e else Z.pos m / 2 ^ (- e) in
      Some (if s then - t else t)
  | _ => None
  end.

(** [(int)x]: the truncated value when an [int] can hold it; the
    conversion of any other float is undefined in C. *)
Definition int_of_float (x : spec_float) : M Z :=
  match float_trunc x with
  | Some t => if (INT_MIN <=? t) && (t <=? INT_MAX) then ret t else undefined
  | None => undefined
  end.

(** [lisp_int]: the cast of [float_val] for a float, else the [int_val]
    member of the union, which for a block pointer is its low 32 bits. *)
Definition lisp_int (l : Lisp) : M Z :=
  match lisp_type l, lisp_val l with
  | LISP_FLOAT, FloatVal x => int_of_float x
  | LISP_FLOAT, _ => undefined
  | _, IntVal n => ret n
  | _, Ptr p => ret (s32 p)
  | _, _ => undefined
  end.

(** [setjmp] at an entry point: a [longjmp] comes back as the null
    result together with the error code. *)
Definition catch (m : M Lisp) : M (Lisp * LispError) := fun w =>
  match m w with
  | Ok result w => Ok (result, LISP_ERROR_NONE) w
  | Throw e w => Ok (lisp_null, e) w
  | Undef w => Undef w
  | NoFuel => NoFuel
  end.

(** [op_name]: the name of the symbol in operator position, or NULL. *)
Definition op_name_of (x : Lisp) : M (option string) :=
  do head <- lisp_car x;
  if bool_decide (lisp_type head = LISP_SYMBOL)
  then do s <- lisp_symbol head; ret (Some s)
  else ret None.

Definition is_op (op_name : option string) (s : string) : bool :=
  bool_decide (op_name = Some s).

(** ** Evaluator *)

Section Eval.
(** The host primitives: what [func(args, &e, ctx)] returns and the error
    it stores in [e]. *)
Variable funcs : nat → Lisp → M (Lisp * LispError).

Definition lisp_type_name (t : LispType) : string :=
  match t with
  | LISP_NULL => "NULL" | LISP_FLOAT => "FLOAT" | LISP_INT => "INT"
  | LISP_PAIR => "PAIR" | LISP_SYMBOL => "SYMBOL" | LISP_STRING => "STRING"
  | LISP_LAMBDA => "LAMBDA" | LISP_FUNC => "PROCEDURE" | LISP_TABLE => "ENV"
  end.

(** eval all but last *)
Fixpoint eval_begin_loop (ev : Lisp → M Lisp) (fuel : nat) (it : Lisp) : M Lisp :=
  do next <- lisp_cdr it;
  if lisp_is_null next then ret it
  else match fuel with
       | O => out_of_fuel
       | S fuel =>
           do e <- lisp_car it;
           ev e;;
           eval_begin_loop ev fuel next
       end.

Fixpoint eval_args_loop (ev : Lisp → M Lisp) (fuel : nat)
    (arg_expr args_front args_back : Lisp) : M Lisp :=
  if lisp_is_null arg_expr then ret args_front
  else match fuel with
       | O => out_of_fuel
       | S fuel =>
           do e <- lisp_car arg_expr;
           do new_arg <- ev e;
           do '(args_front, args_back) <- back_append args_front args_back new_arg;
           do arg_expr <- lisp_cdr arg_expr;
           eval_args_loop ev fuel arg_expr args_front args_back
       end.

(** bind parameters to arguments *)
Fixpoint eval_bind_loop (fuel : nat) (new_table keyIt valIt : Lisp) : M unit :=
  if lisp_is_null keyIt then ret tt
  else match fuel with
       | O => out_of_fuel
       | S fuel =>
           do k <- lisp_car keyIt;
           do v <- lisp_car valIt;
           lisp_table_set fuel new_table k v;;
           do keyIt <- lisp_cdr keyIt;
           do valIt <- lisp_cdr valIt;
           eval_bind_loop fuel new_table keyIt valIt
       end.

(** One unit of fuel per turn of the [while (1)] loop and per nested call. *)
Fixpoint eval_r (fuel : nat) (x env : Lisp) : M Lisp :=
  match fuel with
  | O => out_of_fuel
  | S fuel =>
    assert (negb (lisp_is_null env));;
    match lisp_type x with
    | LISP_INT | LISP_FLOAT | LISP_STRING | LISP_LAMBDA | LISP_NULL =>
        ret x (* atom *)
    | LISP_SYMBOL => (* variable reference *)
        do pair <- lisp_env_lookup fuel env x;
        if lisp_is_null pair then
          do name <- lisp_symbol x;
          modify (fprintf_stderr ("cannot find variable: " ++ name));;
          longjmp LISP_ERROR_UNKNOWN_VAR
        else lisp_cdr pair
    | LISP_PAIR =>
        do op_name <- op_name_of x;
        if is_op op_name "IF" then
          do predicate <- lisp_at_index x 1;
          do conseq <- lisp_at_index x 2;
          do alt <- lisp_at_index x 3;
          do p <- eval_r fuel predicate env;
          do n <- lisp_int p;
          if negb (n =? 0) then eval_r fuel conseq env
          else eval_r fuel alt env
        else if is_op op_name "BEGIN" then
          do it <- lisp_cdr x;
          if lisp_is_null it then ret it
          else
            do it <- eval_begin_loop (fun e => eval_r fuel e env) fuel it;
            do last <- lisp_car it;
            eval_r fuel last env
        else if is_op op_name "QUOTE" then
          lisp_at_index x 1
        else if is_op op_name "DEFINE" then
          do symbol <- lisp_at_index x 1;
          do e <- lisp_at_index x 2;
          do value <- eval_r fuel e env;
          lisp_env_define fuel env symbol value;;
          ret lisp_null
        else if is_op op_name "SET!" then
          do symbol <- lisp_at_index x 1;
          do e <- lisp_at_index x 2;
          do value <- eval_r fuel e env;
          lisp_env_set fuel env symbol value;;
          ret lisp_null
        else if is_op op_name "LAMBDA" then
          do args <- lisp_at_index x 1;
          do body <- lisp_at_index x 2;
          lisp_make_lambda args body env
        else (* operator application *)
          do head <- lisp_car x;
          do operator <- eval_r fuel head env;
          do arg_expr <- lisp_cdr x;
          do args_front <- eval_args_loop (fun e => eval_r fuel e env) fuel
                             arg_expr lisp_null lisp_null;
          match lisp_type operator with
          | LISP_LAMBDA =>
              do '(_, args, body, lambda_env) <- lisp_lambda operator;
              do new_table <- lisp_make_table 13;
              eval_bind_loop fuel new_table args args_front;;
              do env <- lisp_env_extend lambda_env new_table;
              eval_r fuel body env
          | LISP_FUNC =>
              match lisp_val operator with
              | FuncPtr f =>
                  do '(result, e) <- funcs f args_front;
                  if bool_decide (e = LISP_ERROR_NONE) then ret result
                  else longjmp e
              | _ => undefined
              end
          | t =>
              modify (fprintf_stderr ("apply error: not an operator " ++ lisp_type_name t));;
              longjmp LISP_ERROR_BAD_OP
          end
    | _ => longjmp LISP_ERROR_UNKNOWN_EVAL
    end
  end.

Definition lisp_eval (fuel : nat) (l env : Lisp) : M (Lisp * LispError) :=
  catch (eval_r fuel l env).

End Eval.

(** ** Garbage collection *)

(** The capacity chosen for a table that is moved.  [size] and [capacity]
    are [unsigned short]; for such operands the float quotient compares
    with 0.75f and 0.1f as the exact quotient compares with 3/4 and 1/10
    (the nearest other quotients are more than a float ulp away), so the
    test is written on integers.  [size * 3 - 1] is computed as an [int]
    and stored in an [unsigned int]. *)
Definition gc_table_capacity (size capacity : Z) : Z :=
  if (3 * capacity <? 4 * size) || (10 * size <? capacity) then
    let new_capacity := u32 (size * 3 - 1) in
    if new_capacity <? 1 then 1 else new_capacity
  else capacity.

Definition set_header (flags size : Z) (b : LispBlock) : LispBlock :=
  mkBlock flags size (block_type b) (data b).

(** [dest_table->entries[new_index] = new_cell] *)
Definition table_store_entry (dest : Z) (new_index : Z) (new_cell : Lisp) : M unit :=
  do d <- read_block dest;
  match data d with
  | DTable size capacity entries =>
      if (0 <=? new_index) && (new_index <? Z.of_nat (length entries)) then
        write_block dest
          (set_data (DTable size capacity (<[Z.to_nat new_index := new_cell]> entries)) d)
      else undefined
  | _ => undefined
  end.

Definition table_load_entry (dest : Z) (new_index : Z) : M Lisp :=
  do d <- read_block dest;
  match data d with
  | DTable _ _ entries =>
      if 0 <=? new_index then
        match entries !! Z.to_nat new_index with
        | Some e => ret e
        | None => undefined
        end
      else undefined
  | _ => undefined
  end.

(** The [while] over one bucket chain of the table being moved; [move] is
    [gc_move] itself. *)
Fixpoint gc_move_chain (move : Lisp → M Lisp) (fuel : nat) (to : HeapRef)
    (dest i capacity new_capacity : Z) (it : Lisp) : M unit :=
  if lisp_is_null it then ret tt
  else match fuel with
       | O => out_of_fuel
       | S fuel =>
           do entry <- lisp_car it;
           do new_index <-
             (if negb (new_capacity =? capacity) then
                do key <- lisp_car entry;
                do h <- symbol_hash key;
                ret (h mod new_capacity)
              else ret i);
           do pair <- move entry;
           (* allocate a new cell in the to space *)
           do cons_block <- heap_alloc (sizeof_Lisp * 2) LISP_PAIR GC_VISITED to;
           do b <- read_block cons_block;
           let new_cell := mkLisp (block_type b) (Ptr cons_block) in
           do old <- table_load_entry dest new_index;
           write_block cons_block (set_data (DPair pair old) b);;
           table_store_entry dest new_index new_cell;;
           do it <- lisp_cdr it;
           gc_move_chain move fuel to dest i capacity new_capacity it
       end.

(** The [for] over the buckets [i .. capacity - 1] of the old table. *)
Fixpoint gc_move_buckets (move : Lisp → M Lisp) (fuel : nat) (to : HeapRef)
    (dest capacity new_capacity : Z) (entries : list Lisp) (i : Z) (n : nat) : M unit :=
  match n with
  | O => ret tt
  | S n =>
      match entries !! Z.to_nat i with
      | None => undefined
      | Some it =>
          gc_move_chain move fuel to dest i capacity new_capacity it;;
          gc_move_buckets move fuel to dest capacity new_capacity entries (i + 1) n
      end
  end.

(** The forwarding address is kept in [data_size]. *)
Fixpoint gc_move (fuel : nat) (l : Lisp) (to : HeapRef) : M Lisp :=
  match lisp_type l with
  | LISP_PAIR | LISP_SYMBOL | LISP_STRING | LISP_LAMBDA =>
      do '(p, block) <- block_of l;
      (if Z.land (gc_flags block) GC_MOVED =? 0 then
         (* copy the data to new block *)
         do dest <- heap_alloc (u32 (data_size block)) (block_type block) GC_CLEAR to;
         do d <- read_block dest;
         write_block dest (set_data (data block) d);;
         (* save forwarding address *)
         write_block p (set_header GC_MOVED dest block)
       else ret tt);;
      (* return the moved block address *)
      do '(_, block) <- block_of l;
      ret (mkLisp (lisp_type l) (Ptr (data_size block)))
  | LISP_TABLE =>
      do '(p, block) <- block_of l;
      (if Z.land (gc_flags block) GC_MOVED =? 0 then
         match data block, fuel with
         | DTable size capacity entries, S fuel =>
             let new_capacity := gc_table_capacity size capacity in
             let new_data_size := u32 (sizeof_Table + new_capacity * sizeof_Lisp) in
             do dest <- heap_alloc new_data_size (block_type block) GC_CLEAR to;
             (* clear the table: [new_capacity] stores, which must fit the block *)
             (if new_data_size <? sizeof_Table + new_capacity * sizeof_Lisp
              then undefined else ret tt);;
             do d <- read_block dest;
             write_block dest
               (set_data (DTable size (u16 new_capacity)
                            (replicate (Z.to_nat new_capacity) lisp_null)) d);;
             (* save forwarding address *)
             write_block p (set_header GC_MOVED dest block);;
             gc_move_buckets (fun e => gc_move fuel e to) fuel to
               dest capacity new_capacity entries 0 (Z.to_nat capacity)
         | DTable _ _ _, O => out_of_fuel
         | _, _ => undefined
         end
       else ret tt);;
      (* return the moved table address *)
      do '(_, block) <- block_of l;
      ret (mkLisp (lisp_type l) (Ptr (data_size block)))
  | _ => ret l
  end.

Definition heap_reset_keep_loop_body (p : Z) (pg : Page) : M unit :=
  write_page p (mkPage 0 (page_capacity pg) (page_next pg)).

(** clear pages we will reuse; returns [previous] and [page] *)
Fixpoint heap_reset_keep (fuel : nat) (target_size size_counter page previous : Z)
  : M (Z * Z) :=
  if negb (page =? 0) && (size_counter <? target_size) then
    match fuel with
    | O => out_of_fuel
    | S fuel =>
        do pg <- read_page page;
        heap_reset_keep_loop_body page pg;;
        heap_reset_keep fuel target_size (size_counter + page_size pg)
          (page_next pg) page
    end
  else ret (previous, page).

(** [free]: the page and the blocks stored in its buffer are gone. *)
Definition page_destroy (p : Z) : M unit :=
  do pg <- read_page p;
  modify (set_pages (delete p));;
  modify (set_blocks (filter (fun '(a, _) =>
            ¬ (page_buffer p <= a < page_buffer p + page_capacity pg)))).

(** destroy the remaining ones *)
Fixpoint heap_reset_destroy (fuel : nat) (page : Z) : M unit :=
  if page =? 0 then ret tt
  else match fuel with
       | O => out_of_fuel
       | S fuel =>
           do pg <- read_page page;
           page_destroy page;;
           heap_reset_destroy fuel (page_next pg)
       end.

Definition heap_reset (fuel : nat) (hp : Heap) (target_size : Z) : M Heap :=
  let page := heap_first_page hp in
  do '(previous, page) <- heap_reset_keep fuel target_size 0 page page;
  do pg <- read_page previous;
  write_page previous (mkPage (page_size pg) (page_capacity pg) 0);;
  heap_reset_destroy fuel page;;
  ret (mkHeap (heap_first_page hp) (heap_first_page hp) 0).

(** What the scan does with the block at address [a]. *)
Definition collect_visit (fuel : nat) (a : Z) (to : HeapRef) : M unit :=
  do block <- read_block a;
  if Z.land (gc_flags block) GC_VISITED =? 0 then
    match block_type block with
    | LISP_PAIR =>
        (* move the CAR and CDR *)
        match data block with
        | DPair car _ =>
            (if negb (lisp_is_null car) then
               do car <- gc_move fuel car to;
               do b <- read_block a;
               match data b with
               | DPair _ cdr => write_block a (set_data (DPair car cdr) b)
               | _ => undefined
               end
             else ret tt);;
            do b <- read_block a;
            match data b with
            | DPair _ cdr =>
                if negb (lisp_is_null cdr) then
                  do cdr <- gc_move fuel cdr to;
                  do b <- read_block a;
                  match data b with
                  | DPair car _ => write_block a (set_data (DPair car cdr) b)
                  | _ => undefined
                  end
                else ret tt
            | _ => undefined
            end
        | _ => undefined
        end
    | LISP_LAMBDA =>
        (* move the body and args *)
        match data block with
        | DLambda _ args _ _ =>
            do args <- gc_move fuel args to;
            do b <- read_block a;
            match data b with
            | DLambda id _ body env =>
                write_block a (set_data (DLambda id args body env) b);;
                do body <- gc_move fuel body to;
                do b <- read_block a;
                match data b with
                | DLambda id args _ env =>
                    write_block a (set_data (DLambda id args body env) b);;
                    do env <- gc_move fuel env to;
                    do b <- read_block a;
                    match data b with
                    | DLambda id args body _ =>
                        write_block a (set_data (DLambda id args body env) b)
                    | _ => undefined
                    end
                | _ => undefined
                end
            | _ => undefined
            end
        | _ => undefined
        end
    | _ => ret tt
    end;;
    do b <- read_block a;
    write_block a (set_header (Z.lor (gc_flags b) GC_VISITED) (data_size b) b)
  else ret tt.

(** The inner [while (offset < page->capacity)] of the scan. *)
Fixpoint collect_scan_page (fuel : nat) (to : HeapRef) (page offset : Z) : M unit :=
  do pg <- read_page page;
  if offset <? page_capacity pg then
    match fuel with
    | O => out_of_fuel
    | S fuel =>
        let a := page_buffer page + offset in
        collect_visit fuel a to;;
        do block <- read_block a;
        collect_scan_page fuel to page (offset + (sizeof_LispBlock + data_size block))
    end
  else ret tt.

(** The outer [while (page)] of the scan. *)
Fixpoint collect_scan (fuel : nat) (to : HeapRef) (page : Z) : M unit :=
  if page =? 0 then ret tt
  else match fuel with
       | O => out_of_fuel
       | S fuel =>
           collect_scan_page fuel to page 0;;
           do pg <- read_page page;
           collect_scan fuel to (page_next pg)
       end.

(** DEBUG, check offsets *)
Fixpoint collect_check_page (fuel : nat) (page offset : Z) : M unit :=
  do pg <- read_page page;
  if offset <? page_size pg then
    match fuel with
    | O => out_of_fuel
    | S fuel =>
        do block <- read_block (page_buffer page + offset);
        collect_check_page fuel page (offset + (sizeof_LispBlock + data_size block))
    end
  else assert (offset =? page_size pg).

Fixpoint collect_check (fuel : nat) (page : Z) : M unit :=
  if page =? 0 then ret tt
  else match fuel with
       | O => out_of_fuel
       | S fuel =>
           collect_check_page fuel page 0;;
           do pg <- read_page page;
           collect_check fuel (page_next pg)
       end.

Definition lisp_collect (fuel : nat) (root_to_save : Lisp) : M Lisp :=
  let to := TO_HEAP in
  (* move root object *)
  do w <- get;
  do st <- gc_move fuel (symbol_table (ctx w)) to;
  modify (set_ctx (set_symbol_table st));;
  do w <- get;
  do ge <- gc_move fuel (global_env (ctx w)) to;
  modify (set_ctx (set_global_env ge));;
  do result <- gc_move fuel root_to_save to;
  (* move references *)
  do w <- get;
  collect_scan fuel to (heap_first_page (to_heap (ctx w)));;
  do w <- get;
  collect_check fuel (heap_first_page (to_heap (ctx w)));;
  (* swap the heaps *)
  do w <- get;
  do temp <- heap_reset fuel (heap (ctx w)) (heap_size (to_heap (ctx w)));
  do w <- get;
  modify (set_ctx (fun c => set_heap TO_HEAP temp (set_heap HEAP (to_heap c) c)));;
  ret result.

(** ** Lexer (in-memory programs: [lex->file == NULL]) *)

Inductive TokenType :=
| TOKEN_NONE | TOKEN_L_PAREN | TOKEN_R_PAREN | TOKEN_QUOTE
| TOKEN_SYMBOL | TOKEN_STRING | TOKEN_INT | TOKEN_FLOAT.

#[global] Instance TokenType_eq_dec : EqDecision TokenType.
Proof. solve_decision. Defined.

(** [sc] and [c] point into the program: they are kept as the text from
    the pointer to the terminating NUL. *)
Record Lexer := mkLexer {
  lex_sc : string;
  lex_c : string;
  scan_length : Z;
  token : TokenType;
}.

Definition NUL : ascii := ascii_of_nat 0.

(** [*lex->c] *)
Definition peek (lex : Lexer) : ascii :=
  match lex_c lex with
  | String a _ => a
  | EmptyString => NUL
  end.

Definition lexer_init (program : string) : Lexer :=
  mkLexer program program 0 TOKEN_NONE.

Definition lexer_advance_start (lex : Lexer) : Lexer :=
  mkLexer (lex_c lex) (lex_c lex) 0 (token lex).

Definition lexer_restart_scan (lex : Lexer) : Lexer :=
  mkLexer (lex_sc lex) (lex_sc lex) 0 (token lex).

Definition lexer_step (lex : Lexer) : Lexer :=
  match lex_c lex with
  | String _ c => mkLexer (lex_sc lex) c (scan_length lex + 1) (token lex)
  | EmptyString => lex
  end.

Definition isspace (a : ascii) : bool :=
  let n := nat_of_ascii a in ((9 <=? n) && (n <=? 13) || (n =? 32))%nat.

Definition isdigit (a : ascii) : bool :=
  let n := nat_of_ascii a in ((48 <=? n) && (n <=? 57))%nat.

Definition is_char (a : ascii) (s : string) : bool :=
  bool_decide (String a EmptyString = s).

(** [lexer_step] while [p] holds of the current character, at most [n] steps. *)
Fixpoint lexer_step_while (n : nat) (p : ascii → bool) (lex : Lexer) : Lexer :=
  match n with
  | O => lex
  | S n => if p (peek lex) then lexer_step_while n p (lexer_step lex) else lex
  end.

Definition remaining (lex : Lexer) : nat := String.length (lex_c lex).

Fixpoint lexer_skip_empty_loop (n : nat) (lex : Lexer) : Lexer :=
  match n with
  | O => lex
  | S n =>
      (* skip whitespace *)
      let lex := lexer_step_while (remaining lex) isspace lex in
      (* skip comments to end of line *)
      if is_char (peek lex) ";" then
        lexer_skip_empty_loop n
          (lexer_step_while (remaining lex)
             (fun a => negb (bool_decide (a = NUL)) && negb (bool_decide (a = ascii_of_nat 10)))
             lex)
      else lex
  end.

Definition lexer_skip_empty (lex : Lexer) : Lexer :=
  lexer_skip_empty_loop (S (remaining lex)) lex.

(** need at least one digit or - *)
Definition lexer_match_sign (lex : Lexer) : bool * Lexer :=
  if negb (isdigit (peek lex)) then
    if is_char (peek lex) "-" || is_char (peek lex) "+" then
      let lex := lexer_step lex in
      if negb (isdigit (peek lex)) then (false, lex) else (true, lex)
    else (false, lex)
  else (true, lex).

Definition lexer_match_int (lex : Lexer) : bool * Lexer :=
  let lex := lexer_restart_scan lex in
  let '(ok, lex) := lexer_match_sign lex in
  if ok then
    let lex := lexer_step lex in
    (* + any other digits *)
    (true, lexer_step_while (remaining lex) isdigit lex)
  else (false, lex).

Fixpoint lexer_match_float_loop (n : nat) (found_decimal : bool) (lex : Lexer)
  : bool * Lexer :=
  match n with
  | O => (found_decimal, lex)
  | S n =>
      if isdigit (peek lex) || is_char (peek lex) "." then
        lexer_match_float_loop n (found_decimal || is_char (peek lex) ".") (lexer_step lex)
      else (found_decimal, lex)
  end.

Definition lexer_match_float (lex : Lexer) : bool * Lexer :=
  let lex := lexer_restart_scan lex in
  let '(ok, lex) := lexer_match_sign lex in
  if ok then
    let lex := lexer_step lex in
    (* must have a decimal to be a float *)
    lexer_match_float_loop (remaining lex) false lex
  else (false, lex).

Definition is_symbol (c : ascii) : bool :=
  if (char_val c <? 33) || (122 <? char_val c) then false
  else negb (is_char c "(" || is_char c ")" || is_char c "#" || is_char c ";").

Definition lexer_match_symbol (lex : Lexer) : bool * Lexer :=
  let lex := lexer_restart_scan lex in
  (* need at least one valid symbol character *)
  if negb (is_symbol (peek lex)) then (false, lex)
  else
    let lex := lexer_step lex in
    (true, lexer_step_while (remaining lex) is_symbol lex).

Definition DQUOTE : ascii := ascii_of_nat 34.

Fixpoint lexer_match_string_loop (n : nat) (lex : Lexer) : bool * Lexer :=
  if bool_decide (peek lex = DQUOTE) then (true, lexer_step lex)
  else if bool_decide (peek lex = NUL) || bool_decide (peek lex = ascii_of_nat 10)
  then (false, lex)
  else match n with
       | O => (false, lex)
       | S n => lexer_match_string_loop n (lexer_step lex)
       end.

Definition lexer_match_string (lex : Lexer) : bool * Lexer :=
  let lex := lexer_restart_scan lex in
  (* start with quote *)
  if negb (bool_decide (peek lex = DQUOTE)) then (false, lex)
  else
    let lex := lexer_step lex in
    lexer_match_string_loop (remaining lex) lex.

(** Both pointers are in the same buffer: [memcpy(dest, sc + start, length)]. *)
Definition lexer_copy_token (lex : Lexer) (start_index length : Z) : M string :=
  assert (start_index + length <=? scan_length lex);;
  ret (substring (Z.to_nat start_index) (Z.to_nat length) (lex_sc lex)).

Definition set_token (t : TokenType) (lex : Lexer) : Lexer :=
  mkLexer (lex_sc lex) (lex_c lex) (scan_length lex) t.

Definition lexer_next_token (lex : Lexer) : Lexer :=
  let lex := lexer_skip_empty lex in
  let lex := lexer_advance_start lex in
  if bool_decide (peek lex = NUL) then set_token TOKEN_NONE lex
  else if is_char (peek lex) "(" then lexer_step (set_token TOKEN_L_PAREN lex)
  else if is_char (peek lex) ")" then lexer_step (set_token TOKEN_R_PAREN lex)
  else if is_char (peek lex) "'" then lexer_step (set_token TOKEN_QUOTE lex)
  else
    let '(ok, lex1) := lexer_match_string lex in
    if ok then set_token TOKEN_STRING lex1
    else
      let '(ok, lex2) := lexer_match_float lex1 in
      if ok then set_token TOKEN_FLOAT lex2
      else
        let '(ok, lex3) := lexer_match_int lex2 in
        if ok then set_token TOKEN_INT lex3
        else
          let '(ok, lex4) := lexer_match_symbol lex3 in
          if ok then set_token TOKEN_SYMBOL lex4
          else set_token TOKEN_NONE lex4.

(** ** Reader *)

Definition SCRATCH_MAX : Z := 1024.

(** [atoi] on the text of an int token (an optional sign, then digits);
    a value no [int] can hold is undefined. *)
Fixpoint atoi_digits (s : string) (acc : Z) : Z :=
  match s with
  | String a s =>
      if isdigit a then atoi_digits s (acc * 10 + (Z.of_nat (nat_of_ascii a) - 48))
      else acc
  | EmptyString => acc
  end.

Definition atoi_value (s : string) : Z :=
  match s with
  | String a t =>
      if is_char a "-" then - atoi_digits t 0
      else if is_char a "+" then atoi_digits t 0
      else atoi_digits s 0
  | EmptyString => 0
  end.

Definition atoi (s : string) : M Z :=
  let v := atoi_value s in
  if (INT_MIN <=? v) && (v <=? INT_MAX) then ret v else undefined.

Section Reader.
(** [(float)atof(scratch)] from the C library. *)
Variable atof : string → spec_float.

(** The token text copied to [scratch] and NUL-terminated. *)
Definition copy_to_scratch (lex : Lexer) : M string :=
  let length := scan_length lex in
  if SCRATCH_MAX <=? length then undefined
  else lexer_copy_token lex 0 length.

Definition parse_atom (fuel : nat) (lex : Lexer) : M (Lisp * Lexer) :=
  let length := scan_length lex in
  do l <-
    match token lex with
    | TOKEN_INT =>
        do scratch <- copy_to_scratch lex;
        do n <- atoi scratch;
        ret (lisp_make_int n)
    | TOKEN_FLOAT =>
        do scratch <- copy_to_scratch lex;
        ret (lisp_make_float (atof scratch))
    | TOKEN_STRING =>
        (* -2 length to skip quotes *)
        do p <- gc_alloc (u32 (length - 1)) LISP_STRING;
        do text <- lexer_copy_token lex 1 (length - 2);
        do b <- read_block p;
        write_block p (set_data (DString text) b);;
        ret (mkLisp (block_type b) (Ptr p))
    | TOKEN_SYMBOL =>
        (* always convert symbols to uppercase *)
        do scratch <- copy_to_scratch lex;
        lisp_make_symbol fuel scratch
    | _ => longjmp LISP_ERROR_BAD_TOKEN
    end;
  ret (l, lexer_next_token lex).

(** The [while (lex->token != TOKEN_R_PAREN)] of a list; [parse] is
    [parse_list_r] itself. *)
Fixpoint parse_items (parse : Lexer → M (Lisp * Lexer)) (fuel : nat)
    (lex : Lexer) (front back : Lisp) : M (Lisp * Lexer) :=
  if bool_decide (token lex = TOKEN_R_PAREN) then ret (front, lex)
  else match fuel with
       | O => out_of_fuel
       | S fuel =>
           do '(l, lex) <- parse lex;
           do '(front, back) <- back_append front back l;
           parse_items parse fuel lex front back
       end.

(** read tokens and construct S-expresions *)
Fixpoint parse_list_r (fuel : nat) (lex : Lexer) : M (Lisp * Lexer) :=
  match fuel with
  | O => out_of_fuel
  | S fuel =>
      match token lex with
      | TOKEN_NONE => longjmp LISP_ERROR_PAREN_EXPECTED
      | TOKEN_L_PAREN =>
          let lex := lexer_next_token lex in
          do '(front, lex) <- parse_items (parse_list_r fuel) fuel lex lisp_null lisp_null;
          ret (front, lexer_next_token lex)
      | TOKEN_R_PAREN => longjmp LISP_ERROR_PAREN_UNEXPECTED
      | TOKEN_QUOTE =>
          let lex := lexer_next_token lex in
          do '(x, lex) <- parse_list_r fuel lex;
          do l <- lisp_cons x lisp_null;
          do q <- lisp_make_symbol fuel "QUOTE";
          do r <- lisp_cons q l;
          ret (r, lex)
      | _ => parse_atom fuel lex
      end
  end.

(** The [while (lex->token != TOKEN_NONE)] of [parse]. *)
Fixpoint parse_more (fuel : nat) (lex : Lexer) (front back : Lisp) : M (Lisp * Lexer) :=
  if bool_decide (token lex = TOKEN_NONE) then ret (front, lex)
  else match fuel with
       | O => out_of_fuel
       | S fuel =>
           do '(next_result, lex) <- parse_list_r fuel lex;
           do '(front, back) <- back_append front back next_result;
           parse_more fuel lex front back
       end.

(** The body of [parse] after [setjmp]; [parse] turns a [longjmp] into
    the null result and the error code. *)
Definition parse_body (fuel : nat) (lex : Lexer) : M Lisp :=
  let lex := lexer_next_token lex in
  do '(result, lex) <- parse_list_r fuel lex;
  if negb (bool_decide (token lex = TOKEN_NONE)) then
    do back <- lisp_cons result lisp_null;
    do b <- lisp_make_symbol fuel "BEGIN";
    do front <- lisp_cons b back;
    do '(front, _) <- parse_more fuel lex front back;
    ret front
  else ret result.

Definition parse (fuel : nat) (lex : Lexer) : M (Lisp * LispError) :=
  catch (parse_body fuel lex).

Definition lisp_read (fuel : nat) (program : string) : M (Lisp * LispError) :=
  parse fuel (lexer_init program).

End Reader.

(** ** Expander *)

Definition bad_cond_pair (fuel : nat) (cond_pair : Lisp) : M unit :=
  (* error checks *)
  if negb (bool_decide (lisp_type cond_pair = LISP_PAIR)) then longjmp LISP_ERROR_BAD_COND
  else
    do n <- lisp_length fuel cond_pair;
    if negb (n =? 2) then longjmp LISP_ERROR_BAD_COND else ret tt.

Fixpoint expand_cond_loop (ex : Lisp → M Lisp) (fuel : nat)
    (if_symbol conds outer : Lisp) : M Lisp :=
  if lisp_is_null conds then ret outer
  else match fuel with
       | O => out_of_fuel
       | S fuel =>
           do cond_pair <- lisp_car conds;
           bad_cond_pair fuel cond_pair;;
           do e <- lisp_car cond_pair;
           do cond_pred <- ex e;
           do t <- lisp_cdr cond_pair;
           do e <- lisp_car t;
           do cond_expr <- ex e;
           do outer <- lisp_make_listv if_symbol [cond_pred; cond_expr; outer; lisp_null];
           do conds <- lisp_cdr conds;
           expand_cond_loop ex fuel if_symbol conds outer
       end.

Fixpoint expand_and_loop (ex : Lisp → M Lisp) (fuel : nat)
    (if_symbol preds outer : Lisp) : M Lisp :=
  if lisp_is_null preds then ret outer
  else match fuel with
       | O => out_of_fuel
       | S fuel =>
           do e <- lisp_car preds;
           do p <- ex e;
           do outer <- lisp_make_listv if_symbol [p; outer; lisp_make_int 0; lisp_null];
           do preds <- lisp_cdr preds;
           expand_and_loop ex fuel if_symbol preds outer
       end.

Fixpoint expand_or_loop (ex : Lisp → M Lisp) (fuel : nat)
    (if_symbol preds outer : Lisp) : M Lisp :=
  if lisp_is_null preds then ret outer
  else match fuel with
       | O => out_of_fuel
       | S fuel =>
           do e <- lisp_car preds;
           do p <- ex e;
           do outer <- lisp_make_listv if_symbol [p; lisp_make_int 1; outer; lisp_null];
           do preds <- lisp_cdr preds;
           expand_or_loop ex fuel if_symbol preds outer
       end.

Fixpoint expand_let_loop (ex : Lisp → M Lisp) (fuel : nat)
    (pairs vars_front vars_back exprs_front exprs_back : Lisp) : M (Lisp * Lisp) :=
  if lisp_is_null pairs then ret (vars_front, exprs_front)
  else match fuel with
       | O => out_of_fuel
       | S fuel =>
           do binding <- lisp_car pairs;
           if negb (bool_decide (lisp_type binding = LISP_PAIR))
           then longjmp LISP_ERROR_BAD_LET
           else
             do var <- lisp_at_index binding 0;
             if negb (bool_decide (lisp_type var = LISP_SYMBOL))
             then longjmp LISP_ERROR_BAD_LET
             else
               do '(vars_front, vars_back) <- back_append vars_front vars_back var;
               do e <- lisp_at_index binding 1;
               do val <- ex e;
               do '(exprs_front, exprs_back) <- back_append exprs_front exprs_back val;
               do pairs <- lisp_cdr pairs;
               expand_let_loop ex fuel pairs vars_front vars_back exprs_front exprs_back
       end.

Fixpoint expand_each (ex : Lisp → M Lisp) (fuel : nat) (it : Lisp) : M unit :=
  if lisp_is_null it then ret tt
  else match fuel with
       | O => out_of_fuel
       | S fuel =>
           do e <- lisp_car it;
           do e <- ex e;
           lisp_set_car it e;;
           do it <- lisp_cdr it;
           expand_each ex fuel it
       end.

Fixpoint expand_r (fuel : nat) (l : Lisp) : M Lisp :=
  match fuel with
  | O => out_of_fuel
  | S fuel =>
    do quote_symbol <-
      (if bool_decide (lisp_type l = LISP_SYMBOL)
       then do s <- lisp_symbol l; ret (bool_decide (s = "QUOTE"))
       else ret false);
    if quote_symbol : bool then
      (* don't expand quotes *)
      ret l
    else if bool_decide (lisp_type l = LISP_PAIR) then
      do op <- op_name_of l;
      if is_op op "QUOTE" then
        do n <- lisp_length fuel l;
        if negb (n =? 2) then longjmp LISP_ERROR_BAD_QUOTE
        else ret l (* don't expand quotes *)
      else if is_op op "DEFINE" then
        do n <- lisp_length fuel l;
        if n <? 3 then longjmp LISP_ERROR_BAD_DEFINE
        else
          do rest <- lisp_cdr l;
          do sig <- lisp_car rest;
          match lisp_type sig with
          | LISP_PAIR =>
              (* (define (<name> <arg0> ... <argn>) <body0> ... <bodyN>)
                 -> (define <name> (lambda (<arg0> ... <argn>) <body> ... <bodyN>)) *)
              do name <- lisp_at_index sig 0;
              if negb (bool_decide (lisp_type name = LISP_SYMBOL))
              then longjmp LISP_ERROR_BAD_DEFINE
              else
                do t <- lisp_cdr l;
                do body <- lisp_cdr t;
                do lambda_symbol <- lisp_make_symbol fuel "LAMBDA";
                do args <- lisp_cdr sig;
                do lambda <- lisp_make_listv lambda_symbol [args; lisp_null];
                do t <- lisp_cdr lambda;
                lisp_set_cdr t body;;
                do expanded <- expand_r fuel lambda;
                do new <- lisp_make_listv name [expanded; body; lisp_null];
                lisp_set_cdr l new;;
                ret l
          | LISP_SYMBOL =>
              do t <- lisp_cdr rest;
              do e <- expand_r fuel t;
              lisp_set_cdr rest e;;
              ret l
          | _ => longjmp LISP_ERROR_BAD_DEFINE
          end
      else if is_op op "SET!" then
        do n <- lisp_length fuel l;
        if negb (n =? 3) then longjmp LISP_ERROR_BAD_SET
        else
          do var <- lisp_at_index l 1;
          if negb (bool_decide (lisp_type var = LISP_SYMBOL))
          then longjmp LISP_ERROR_BAD_SET
          else
            do e <- lisp_at_index l 2;
            do expr <- expand_r fuel e;
            do set_symbol <- lisp_at_index l 0;
            lisp_make_listv set_symbol [var; expr; lisp_null]
      else if is_op op "COND" then
        do t <- lisp_cdr l;
        do conds <- lisp_reverse_inplace fuel t;
        do cond_pair <- lisp_car conds;
        bad_cond_pair fuel cond_pair;;
        do cond_pred <- lisp_car cond_pair;
        do is_else <-
          (if bool_decide (lisp_type cond_pred = LISP_SYMBOL)
           then do s <- lisp_symbol cond_pred; ret (bool_decide (s = "ELSE"))
           else ret false);
        do '(outer, conds) <-
          (if is_else : bool then
             do t <- lisp_cdr cond_pair;
             do e <- lisp_car t;
             do cond_expr <- expand_r fuel e;
             do conds <- lisp_cdr conds;
             ret (cond_expr, conds)
           else ret (lisp_null, conds));
        do if_symbol <- lisp_make_symbol fuel "IF";
        expand_cond_loop (expand_r fuel) fuel if_symbol conds outer
      else if is_op op "AND" then
        do n <- lisp_length fuel l;
        if n <? 2 then longjmp LISP_ERROR_BAD_AND
        else
          do if_symbol <- lisp_make_symbol fuel "IF";
          do t <- lisp_cdr l;
          do preds <- lisp_reverse_inplace fuel t;
          do e <- lisp_car preds;
          do p <- expand_r fuel e;
          do outer <- lisp_make_listv if_symbol
                        [p; lisp_make_int 1; lisp_make_int 0; lisp_null];
          do preds <- lisp_cdr preds;
          expand_and_loop (expand_r fuel) fuel if_symbol preds outer
      else if is_op op "OR" then
        do n <- lisp_length fuel l;
        if n <? 2 then longjmp LISP_ERROR_BAD_OR
        else
          do if_symbol <- lisp_make_symbol fuel "IF";
          do t <- lisp_cdr l;
          do preds <- lisp_reverse_inplace fuel t;
          do e <- lisp_car preds;
          do p <- expand_r fuel e;
          do outer <- lisp_make_listv if_symbol
                        [p; lisp_make_int 1; lisp_make_int 0; lisp_null];
          do preds <- lisp_cdr preds;
          expand_or_loop (expand_r fuel) fuel if_symbol preds outer
      else if is_op op "LET" then
        (* (LET ((<var0> <expr0>) ... (<varN> <expr1>)) <body0> ... <bodyN>)
           -> ((LAMBDA (<var0> ... <varN>) <body0> ... <bodyN>) <expr0> ... <expr1>) *)
        do pairs <- lisp_at_index l 1;
        if negb (bool_decide (lisp_type pairs = LISP_PAIR))
        then longjmp LISP_ERROR_BAD_LET
        else
          do t <- lisp_cdr l;
          do body <- lisp_cdr t;
          do '(vars_front, exprs_front) <-
            expand_let_loop (expand_r fuel) fuel pairs
              lisp_null lisp_null lisp_null lisp_null;
          do lambda_symbol <- lisp_make_symbol fuel "LAMBDA";
          do lambda <- lisp_make_listv lambda_symbol [vars_front; lisp_null];
          do t <- lisp_cdr lambda;
          lisp_set_cdr t body;;
          do expanded <- expand_r fuel lambda;
          lisp_cons expanded exprs_front
      else if is_op op "LAMBDA" then
        (* (LAMBDA (<var0> ... <varN>) <expr0> ... <exprN>)
           (LAMBDA (<var0> ... <varN>) (BEGIN <expr0> ... <expr1>)) *)
        do length <- lisp_length fuel l;
        if 3 <? length then
          do t <- lisp_cdr l;
          do t <- lisp_cdr t;
          do body_exprs <- expand_r fuel t;
          do begin_symbol <- lisp_make_symbol fuel "BEGIN";
          do begin <- lisp_cons begin_symbol body_exprs;
          do vars <- lisp_at_index l 1;
          if negb (bool_decide (lisp_type vars = LISP_PAIR))
          then longjmp LISP_ERROR_BAD_LAMBDA
          else
            do lambda_symbol <- lisp_at_index l 0;
            lisp_make_listv lambda_symbol [vars; begin; lisp_null]
        else
          do t <- lisp_cdr l;
          do body <- lisp_cdr t;
          do e <- expand_r fuel body;
          do t <- lisp_cdr l;
          lisp_set_cdr t e;;
          ret l
      else if is_op op "ASSERT" then
        do t <- lisp_cdr l;
        do statement <- lisp_car t;
        (* here we save a quoted version of the code so we can see
           what happened to trigger the assertion *)
        do quote_symbol <- lisp_make_symbol fuel "QUOTE";
        do quoted <- lisp_make_listv quote_symbol [statement; lisp_null];
        do e <- expand_r fuel statement;
        do assert_symbol <- lisp_at_index l 0;
        lisp_make_listv assert_symbol [e; quoted; lisp_null]
      else
        expand_each (expand_r fuel) fuel l;;
        ret l
    else ret l
  end.

Definition lisp_expand (fuel : nat) (lisp : Lisp) : M (Lisp * LispError) :=
  catch (expand_r fuel lisp).

(** ** Contexts *)

Definition lisp_init_raw (symbol_table_size : Z) : M unit :=
  modify (set_ctx (set_lambda_counter 0));;
  heap_init HEAP;;
  heap_init TO_HEAP;;
  do t <- lisp_make_table symbol_table_size;
  modify (set_ctx (set_symbol_table t));;
  modify (set_ctx (set_global_env lisp_null)).

Definition lisp_init_reader : M unit := lisp_init_raw 512.

(** The interpreter context with the primitive names bound to the host
    functions, in the order of the two arrays of [lisp_init_interpreter]. *)
Fixpoint lisp_table_add_funcs (fuel : nat) (table : Lisp) (names : list string) (func : nat)
  : M unit :=
  match names with
  | [] => ret tt
  | name :: names =>
      do s <- lisp_make_symbol fuel name;
      lisp_table_set fuel table s (lisp_make_func func);;
      lisp_table_add_funcs fuel table names (S func)
  end.

Definition primitive_names : list string :=
  ["CONS"; "CAR"; "CDR"; "NAV"; "EQ?"; "NULL?"; "LIST"; "APPEND"; "MAP"; "NTH";
   "LENGTH"; "REVERSE!"; "ASSOC"; "DISPLAY"; "NEWLINE"; "ASSERT"; "READ-PATH";
   "EXPAND"; "="; "+"; "-"; "*"; "/"; "<"; ">"; "<="; ">="; "EVEN?"; "ODD?"].

Definition lisp_init_interpreter (fuel : nat) : M unit :=
  lisp_init_raw 512;;
  do table <- lisp_make_table 256;
  do s <- lisp_make_symbol fuel "NULL";
  lisp_table_set fuel table s lisp_null;;
  lisp_table_add_funcs fuel table primitive_names 0;;
  do env <- lisp_make_env table;
  modify (set_ctx (set_global_env env)).

End Machine.

(** ** A concrete layout and the empty process *)

Definition lp64 : Layout.
Proof.
  refine {| sizeof_Page := 16; sizeof_LispBlock := 16; sizeof_Lisp := 16;
            sizeof_Table := 8; sizeof_Symbol := 4; sizeof_Lambda := 56 |}; lia.
Defined.

Definition empty_heap : Heap := mkHeap 0 0 0.

(** A process before [lisp_init_*]: nothing allocated, [malloc] starting
    at some address. *)
Definition empty_world : World :=
  mkWorld ∅ ∅ 4096 (mkContext empty_heap empty_heap lisp_null lisp_null 0) [].

(** ** Reading values back

    The value tree a [Lisp] stands for in a world, as [lisp_print_r] walks
    it: pairs are followed, symbols and strings are read from their
    blocks, anything else is left as the word it is. *)
Inductive sexp :=
| Nil
| Int (n : Z)
| Float (x : spec_float)
| Sym (name : string)
| Str (s : string)
| Cons (a d : sexp)
| Opaque (l : Lisp).

Fixpoint view (fuel : nat) (w : World) (l : Lisp) : sexp :=
  match fuel with
  | O => Opaque l
  | S fuel =>
      match lisp_type l, lisp_val l with
      | LISP_NULL, _ => Nil
      | LISP_INT, IntVal n => Int n
      | LISP_FLOAT, FloatVal x => Float x
      | LISP_SYMBOL, Ptr p =>
          match data <$> blocks w !! p with
          | Some (DSymbol _ s) => Sym s
          | _ => Opaque l
          end
      | LISP_STRING, Ptr p =>
          match data <$> blocks w !! p with
          | Some (DString s) => Str s
          | _ => Opaque l
          end
      | LISP_PAIR, Ptr p =>
          match data <$> blocks w !! p with
          | Some (DPair a d) => Cons (view fuel w a) (view fuel w d)
          | _ => Opaque l
          end
      | _, _ => Opaque l
      end
  end.

(** The proper list of the given elements. *)
Fixpoint slist (xs : list sexp) : sexp :=
  match xs with
  | [] => Nil
  | x :: xs => Cons x (slist xs)
  end.

(** ** Predicates on worlds *)

Definition same_roots (w w' : World) : Prop :=
  symbol_table (ctx w') = symbol_table (ctx w) ∧
  global_env (ctx w') = global_env (ctx w) ∧
  lambda_counter (ctx w') = lambda_counter (ctx w) ∧
  stderr w' = stderr w.

Definition pair_ptr (a : Z) : Lisp := mkLisp LISP_PAIR (Ptr a).
Definition symbol_ptr (a : Z) : Lisp := mkLisp LISP_SYMBOL (Ptr a).
Definition string_ptr (a : Z) : Lisp := mkLisp LISP_STRING (Ptr a).
Definition table_ptr (a : Z) : Lisp := mkLisp LISP_TABLE (Ptr a).

(** The block at [a] holds the pair [(x . y)]. *)
Definition pair_at (m : gmap Z LispBlock) (a : Z) (x y : Lisp) : Prop :=
  ∃ b, m !! a = Some b ∧ data b = DPair x y.

(** The block at [a] holds a symbol with this name. *)
Definition symbol_at (m : gmap Z LispBlock) (a : Z) (name : string) : Prop :=
  ∃ b h, m !! a = Some b ∧ data b = DSymbol h name.

(** [l] is the head of a chain of pair cells, at the addresses and with
    the cars listed in [cells], whose last cdr is [tl]. *)
Fixpoint chain (m : gmap Z LispBlock) (l : Lisp) (cells : list (Z * Lisp)) (tl : Lisp)
  : Prop :=
  match cells with
  | [] => l = tl
  | (a, x) :: cells => l = pair_ptr a ∧ ∃ next, pair_at m a x next ∧ chain m next cells tl
  end.

(** [x] is the form [(IF predicate conseq alt ...)]. *)
Definition if_form (m : gmap Z LispBlock) (x predicate conseq alt : Lisp) : Prop :=
  ∃ a0 s a1 a2 a3 tl,
    chain m x [(a0, symbol_ptr s); (a1, predicate); (a2, conseq); (a3, alt)] tl ∧
    symbol_at m s "IF".

(** The magnitude of the float [m * 2 ^ e] against 1. *)
Definition float_below_one (x : spec_float) : Prop :=
  match x with
  | S754_zero _ => True
  | S754_finite _ m e => e < 0 ∧ Z.pos m < 2 ^ (- e)
  | _ => False
  end.

Definition float_at_least_one (x : spec_float) : Prop :=
  match x with
  | S754_finite _ m e => 0 <= e ∨ 2 ^ (- e) <= Z.pos m
  | S754_infinity _ => True
  | _ => False
  end.

(** [chain] as a test, and the cells of the chain that starts at [l]. *)
Fixpoint chainb (m : gmap Z LispBlock) (l : Lisp) (cells : list (Z * Lisp)) (tl : Lisp)
  : bool :=
  match cells with
  | [] => bool_decide (l = tl)
  | (a, x) :: cells =>
      bool_decide (l = pair_ptr a) &&
      match data <$> m !! a with
      | Some (DPair x' next) => bool_decide (x' = x) && chainb m next cells tl
      | _ => false
      end
  end.

Fixpoint cells_of (fuel : nat) (m : gmap Z LispBlock) (l : Lisp) : list (Z * Lisp) :=
  match fuel, lisp_type l, lisp_val l with
  | S fuel, LISP_PAIR, Ptr a =>
      match data <$> m !! a with
      | Some (DPair x next) => (a, x) :: cells_of fuel m next
      | _ => []
      end
  | _, _, _ => []
  end.

(** With enough fuel the computation returns [a] and leaves [w']. *)
Definition returns {A} (m : nat → M A) (w : World) (a : A) (w' : World) : Prop :=
  ∃ f0 : nat, ∀ f : nat, (f0 ≤ f)%nat → m f w = Ok a w'.

(** Every block that is not a table is still there, unchanged. *)
Definition is_table_data (d : BlockData) : bool :=
  match d with DTable _ _ _ => true | _ => false end.

Definition stable (m m' : gmap Z LispBlock) : Prop :=
  ∀ a b, m !! a = Some b → is_table_data (data b) = false → m' !! a = Some b.

(** ** The symbol table *)

(** One binding of a bucket: the chain cell, the pair it holds, the
    symbol that is the key of the pair, and the name in the symbol block. *)
Record Binding := mkBinding {
  binding_cell : Z;
  binding_pair : Z;
  binding_symbol : Z;
  binding_name : string;
}.

Definition binding_ok (m : gmap Z LispBlock) (e : Binding) : Prop :=
  (∃ v, pair_at m (binding_pair e) (symbol_ptr (binding_symbol e)) v) ∧
  symbol_at m (binding_symbol e) (binding_name e) ∧
  upper (binding_name e) = binding_name e.

(** [it] heads a bucket chain with these bindings. *)
Definition bucket (m : gmap Z LispBlock) (it : Lisp) (es : list Binding) : Prop :=
  chain m it (map (fun e => (binding_cell e, pair_ptr (binding_pair e))) es) lisp_null ∧
  Forall (binding_ok m) es.

(** [ctx->symbol_table] is a table of this capacity whose buckets are
    chains of these bindings. *)
Definition symtab (w : World) (capacity : Z) (buckets : list (list Binding)) : Prop :=
  ∃ t b size entries,
    symbol_table (ctx w) = table_ptr t ∧
    blocks w !! t = Some b ∧ data b = DTable size capacity entries ∧
    0 < capacity ∧ Z.of_nat (length entries) = capacity ∧
    Forall2 (bucket (blocks w)) entries buckets.

Definition symtab_ok (w : World) : Prop := ∃ capacity buckets, symtab w capacity buckets.

(** The binding [table_get_string] stops at. *)
Definition matches (s : string) (e : Binding) : bool :=
  strncasecmp_eq (binding_name e) s 2048.

Definition lookup_name (capacity : Z) (buckets : list (list Binding)) (s : string)
  : option Binding :=
  match buckets !! Z.to_nat (hash_string s mod capacity) with
  | Some es => find (matches s) es
  | None => None
  end.

(** The first [n] bytes of a name. *)
Definition prefix (n : nat) (s : string) : string := substring 0 n s.

(** A name short enough for its block to be allocated. *)
Definition name_fits (s : string) : Prop := strlen s < 2 ^ 30.

Section Invariants.
Context {L : Layout}.

(** The shape of [ctx->heap] between collections: allocation happens in
    the last page of the chain, every block lies below [brk], and no block
    lies in the unused part of the current page. *)
Definition heap_ok (w : World) : Prop :=
  let page := heap_page (heap (ctx w)) in
  ∃ pg, pages w !! page = Some pg ∧ page_next pg = 0 ∧
        0 <= page_size pg <= page_capacity pg ∧ page_capacity pg < 2 ^ 31 ∧
        0 < brk w ∧ page_buffer page + page_capacity pg <= brk w ∧
        ∀ a, is_Some (blocks w !! a) →
             a < brk w ∧
             ¬ (page_buffer page + page_size pg <= a
                < page_buffer page + page_capacity pg).

(** A pair cell the symbol table is made of. *)
Definition table_cell (buckets : list (list Binding)) (x : Z) : Prop :=
  ∃ es e, es ∈ buckets ∧ e ∈ es ∧ (x = binding_cell e ∨ x = binding_pair e).

(** The state the reader and the expander work in: a well-shaped heap,
    the symbol table, and the pair cells [D] of the program's own data,
    none of which is a cell of the symbol table. *)
Definition world_ok (w : World) (D : gset Z) : Prop :=
  heap_ok w ∧
  (∀ a, a ∈ D → ∃ x y, pair_at (blocks w) a x y) ∧
  ∃ capacity buckets, symtab w capacity buckets ∧ ∀ x, table_cell buckets x → x ∉ D.

Definition pair_block (x y : Lisp) : LispBlock :=
  mkBlock GC_CLEAR (sizeof_Lisp * 2) LISP_PAIR (DPair x y).

(** [heap_ok] as a test, for worlds given in full. *)
Definition heap_okb (w : World) : bool :=
  let page := heap_page (heap (ctx w)) in
  match pages w !! page with
  | Some pg =>
      (page_next pg =? 0) && (0 <=? page_size pg) &&
      (page_size pg <=? page_capacity pg) && (page_capacity pg <? 2 ^ 31) &&
      (0 <? brk w) && (page_buffer page + page_capacity pg <=? brk w) &&
      forallb (fun '(a, _) =>
                 (a <? brk w) &&
                 negb ((page_buffer page + page_size pg <=? a) &&
                       (a <? page_buffer page + page_capacity pg)))
              (map_to_list (blocks w))
  | None => false
  end.

End Invariants.

(** ** Value trees in memory *)

Definition string_at (m : gmap Z LispBlock) (a : Z) (s : string) : Prop :=
  ∃ b, m !! a = Some b ∧ data b = DString s.

(** [l] stands for the tree [t], built from the pair cells [F], no cell
    being used twice. *)
Inductive tree (m : gmap Z LispBlock) : gset Z → Lisp → sexp → Prop :=
| tree_nil : tree m ∅ lisp_null Nil
| tree_int n : tree m ∅ (lisp_make_int n) (Int n)
| tree_float x : tree m ∅ (lisp_make_float x) (Float x)
| tree_sym a name : symbol_at m a name → tree m ∅ (symbol_ptr a) (Sym name)
| tree_str a s : string_at m a s → tree m ∅ (string_ptr a) (Str s)
| tree_cons a x y tx ty Fx Fy :
    pair_at m a x y → tree m Fx x tx → tree m Fy y ty →
    a ∉ Fx → a ∉ Fy → Fx ## Fy →
    tree m ({[a]} ∪ Fx ∪ Fy) (pair_ptr a) (Cons tx ty).

Definition is_pair_data (d : BlockData) : bool :=
  match d with DPair _ _ => true | _ => false end.

(** From [m] to [m'] the pair cells of [F] and every symbol, string and
    lambda block are unchanged. *)
Definition keeps (F : gset Z) (m m' : gmap Z LispBlock) : Prop :=
  ∀ a b, m !! a = Some b → is_table_data (data b) = false →
         a ∈ F ∨ is_pair_data (data b) = false →
         m' !! a = Some b.

(** [l] heads a non-empty proper list of the trees [ts] whose last cell
    is [c]: the list [parse] is building, with [c] its [back]. *)
Inductive spine (m : gmap Z LispBlock) : gset Z → Lisp → list sexp → Z → Prop :=
| spine_last c x tx Fx :
    pair_at m c x lisp_null → tree m Fx x tx → c ∉ Fx →
    spine m ({[c]} ∪ Fx) (pair_ptr c) [tx] c
| spine_cons a x y tx ts Fx Fy c :
    pair_at m a x y → tree m Fx x tx → spine m Fy y ts c →
    a ∉ Fx → a ∉ Fy → Fx ## Fy →
    spine m ({[a]} ∪ Fx ∪ Fy) (pair_ptr a) (tx :: ts) c.

(** The list [parse] has built so far, from [front] to [back]: empty, or
    a spine whose last cell is [back]. *)
Definition building (m : gmap Z LispBlock) (F : gset Z) (front back : Lisp)
    (ts : list sexp) : Prop :=
  (ts = [] ∧ F = ∅ ∧ front = lisp_null ∧ back = lisp_null) ∨
  (∃ c, back = pair_ptr c ∧ spine m F front ts c).

(** ** The reader of the specification

    Modelled from the spec (section 4.6): a recursive descent over the
    token stream that yields value trees: a parenthesised sequence of
    items is a list, a quoted item is [(quote x)], an atom token is an
    int, a float, a string with its quotes stripped or an uppercased
    symbol.  The tokens are those of [lexer_next_token]; a token too long
    for the scratch buffer, an integer no [int] holds and a string no
    block holds have no reading. *)
Definition token_text (lex : Lexer) : string :=
  substring 0 (Z.to_nat (scan_length lex)) (lex_sc lex).

Section ReaderSpec.
Variable atof : string → spec_float.

Definition read_atom (lex : Lexer) : option sexp :=
  let text := token_text lex in
  let short := (0 <=? scan_length lex) && (scan_length lex <? SCRATCH_MAX) in
  match token lex with
  | TOKEN_INT =>
      if short && (INT_MIN <=? atoi_value text) && (atoi_value text <=? INT_MAX)
      then Some (Int (atoi_value text)) else None
  | TOKEN_FLOAT => if short then Some (Float (atof text)) else None
  | TOKEN_STRING =>
      if (1 <=? scan_length lex) && (scan_length lex <? 2 ^ 30)
      then Some (Str (substring 1 (Z.to_nat (scan_length lex - 2)) (lex_sc lex)))
      else None
  | TOKEN_SYMBOL => if short then Some (Sym (upper text)) else None
  | _ => None
  end.

Fixpoint read_items (read : Lexer → option (sexp * Lexer)) (fuel : nat) (lex : Lexer)
  : option (list sexp * Lexer) :=
  if bool_decide (token lex = TOKEN_R_PAREN) then Some ([], lex)
  else match fuel with
       | O => None
       | S fuel =>
           match read lex with
           | Some (x, lex) =>
               match read_items read fuel lex with
               | Some (xs, lex) => Some (x :: xs, lex)
               | None => None
               end
           | None => None
           end
       end.

Fixpoint read_form (fuel : nat) (lex : Lexer) : option (sexp * Lexer) :=
  match fuel with
  | O => None
  | S fuel =>
      match token lex with
      | TOKEN_NONE | TOKEN_R_PAREN => None
      | TOKEN_L_PAREN =>
          match read_items (read_form fuel) fuel (lexer_next_token lex) with
          | Some (xs, lex) => Some (slist xs, lexer_next_token lex)
          | None => None
          end
      | TOKEN_QUOTE =>
          match read_form fuel (lexer_next_token lex) with
          | Some (x, lex) => Some (slist [Sym "QUOTE"; x], lex)
          | None => None
          end
      | _ =>
          match read_atom lex with
          | Some x => Some (x, lexer_next_token lex)
          | None => None
          end
      end
  end.

(** The top-level forms up to the end of the token stream. *)
Fixpoint read_forms (fuel : nat) (lex : Lexer) : option (list sexp) :=
  if bool_decide (token lex = TOKEN_NONE) then Some []
  else match fuel with
       | O => None
       | S fuel =>
           match read_form fuel lex with
           | Some (x, lex) =>
               match read_forms fuel lex with
               | Some xs => Some (x :: xs)
               | None => None
               end
           | None => None
           end
       end.

(** What the specification says [read] returns for these forms. *)
Definition wrap_forms (forms : list sexp) : sexp :=
  match forms with
  | [x] => x
  | _ => slist (Sym "BEGIN" :: forms)
  end.

End ReaderSpec.

(** ** Association lists and tables *)

(** One entry of an association list: the chain cell, the pair it holds,
    and the key and the value in the pair. *)
Record Entry := mkEntry {
  entry_cell : Z;
  entry_pair : Z;
  entry_key : Lisp;
  entry_value : Lisp;
}.

(** [l] heads a proper list of pairs [(key . value)]. *)
Definition alist (m : gmap Z LispBlock) (l : Lisp) (es : list Entry) : Prop :=
  chain m l (map (fun e => (entry_cell e, pair_ptr (entry_pair e))) es) lisp_null ∧
  Forall (fun e => pair_at m (entry_pair e) (entry_key e) (entry_value e)) es.

(** The pair [lisp_assoc] stops at: the first whose key is [lisp_eq] to
    [key]. *)
Definition assoc_entry (key : Lisp) (es : list Entry) : option Entry :=
  find (fun e => lisp_eq (entry_key e) key) es.

Definition assoc_result (key : Lisp) (es : list Entry) : Lisp :=
  match assoc_entry key es with
  | Some e => pair_ptr (entry_pair e)
  | None => lisp_null
  end.

(** The block at [t] is a table of [capacity] buckets, each an
    association list. *)
Definition table_at (m : gmap Z LispBlock) (t : Z) (capacity : Z)
    (buckets : list (list Entry)) : Prop :=
  ∃ b size entries,
    m !! t = Some b ∧ data b = DTable size capacity entries ∧
    0 < capacity ∧ Z.of_nat (length entries) = capacity ∧
    Forall2 (alist m) entries buckets.

(** The symbol block at [q] holds the hash [h]. *)
Definition hash_at (m : gmap Z LispBlock) (q : Z) (h : Z) : Prop :=
  ∃ b name, m !! q = Some b ∧ data b = DSymbol h name.

(** The bucket of a hash. *)
Definition bucket_of (capacity : Z) (buckets : list (list Entry)) (h : Z) : list Entry :=
  default [] (buckets !! Z.to_nat (h mod capacity)).

(** ** Environments *)

(** One frame of an environment: the cell of the frame list and the
    table it holds. *)
Record Frame := mkFrame {
  frame_cell : Z;
  frame_table : Z;
  frame_capacity : Z;
  frame_buckets : list (list Entry);
}.

(** [env] heads a proper list of tables, innermost first. *)
Definition env_at (m : gmap Z LispBlock) (env : Lisp) (fs : list Frame) : Prop :=
  chain m env (map (fun f => (frame_cell f, table_ptr (frame_table f))) fs) lisp_null ∧
  Forall (fun f => table_at m (frame_table f) (frame_capacity f) (frame_buckets f)) fs.

(** The binding of a key (whose hash is [h]) in the innermost frame that
    has one. *)
Fixpoint env_entry (key : Lisp) (h : Z) (fs : list Frame) : option Entry :=
  match fs with
  | [] => None
  | f :: fs =>
      match assoc_entry key (bucket_of (frame_capacity f) (frame_buckets f) h) with
      | Some e => Some e
      | None => env_entry key h fs
      end
  end.

(** Fuel for a lookup: the frames and, in each, the bucket searched. *)
Definition env_fuel (h : Z) (fs : list Frame) (fuel : nat) : Prop :=
  ∀ f, f ∈ fs →
    (length fs + length (bucket_of (frame_capacity f) (frame_buckets f) h) ≤ fuel)%nat.

(** The list a builder is appending to: [front] heads its cells and
    [back] is the last of them, or both are null. *)
Definition under_construction (m : gmap Z LispBlock) (front back : Lisp)
    (cells : list (Z * Lisp)) : Prop :=
  chain m front cells lisp_null ∧
  match last cells with
  | Some (c, _) => back = pair_ptr c
  | None => back = lisp_null
  end.

(** The entries of a bucket after [lisp_table_set] stored [v] in the
    pair [p]. *)
Definition update_entry (p : Z) (v : Lisp) (e : Entry) : Entry :=
  if bool_decide (entry_pair e = p)
  then mkEntry (entry_cell e) (entry_pair e) (entry_key e) v else e.

(** A frame after the value of the pair [p] was replaced by [v]. *)
Definition update_frame (p : Z) (v : Lisp) (f : Frame) : Frame :=
  mkFrame (frame_cell f) (frame_table f) (frame_capacity f)
    (map (map (update_entry p v)) (frame_buckets f)).

(** ** The state of the lexer *)



(** ** Tests for worlds given in full *)

(** The entries of the association list that starts at [l]. *)
Fixpoint entries_of (fuel : nat) (m : gmap Z LispBlock) (l : Lisp) : list Entry :=
  match fuel, lisp_type l, lisp_val l with
  | S fuel, LISP_PAIR, Ptr c =>
      match data <$> m !! c with
      | Some (DPair (mkLisp LISP_PAIR (Ptr p)) next) =>
          match data <$> m !! p with
          | Some (DPair k v) => mkEntry c p k v :: entries_of fuel m next
          | _ => []
          end
      | _ => []
      end
  | _, _, _ => []
  end.

Definition alistb (m : gmap Z LispBlock) (l : Lisp) (es : list Entry) : bool :=
  chainb m l (map (fun e => (entry_cell e, pair_ptr (entry_pair e))) es) lisp_null &&
  forallb (fun e =>
             match data <$> m !! entry_pair e with
             | Some (DPair k v) =>
                 bool_decide (k = entry_key e) && bool_decide (v = entry_value e)
             | _ => false
             end) es.

Fixpoint all2 {A B} (f : A → B → bool) (xs : list A) (ys : list B) : bool :=
  match xs, ys with
  | [], [] => true
  | x :: xs, y :: ys => f x y && all2 f xs ys
  | _, _ => false
  end.

Definition buckets_of (m : gmap Z LispBlock) (t : Z) : list (list Entry) :=
  match data <$> m !! t with
  | Some (DTable _ _ entries) => map (entries_of 100 m) entries
  | _ => []
  end.

Definition table_atb (m : gmap Z LispBlock) (t : Z) (capacity : Z)
    (buckets : list (list Entry)) : bool :=
  match data <$> m !! t with
  | Some (DTable _ cap entries) =>
      (cap =? capacity) && (0 <? capacity) &&
      (Z.of_nat (length entries) =? capacity) && all2 (alistb m) entries buckets
  | _ => false
  end.

Definition hash_atb (m : gmap Z LispBlock) (q h : Z) : bool :=
  match data <$> m !! q with
  | Some (DSymbol h' _) => h' =? h
  | _ => false
  end.

Definition pair_atb (m : gmap Z LispBlock) (a : Z) (x y : Lisp) : bool :=
  match data <$> m !! a with
  | Some (DPair x' y') => bool_decide (x' = x) && bool_decide (y' = y)
  | _ => false
  end.

Definition symbol_atb (m : gmap Z LispBlock) (a : Z) (name : string) : bool :=
  match data <$> m !! a with
  | Some (DSymbol _ n) => bool_decide (n = name)
  | _ => false
  end.

(** The address in a value that points to a block. *)
Definition address (l : Lisp) : Z :=
  match lisp_val l with Ptr p => p | _ => 0 end.

(** ** The surface keywords the expander lowers *)

Definition lowered_keyword (s : string) : bool :=
  bool_decide (s = "COND") || bool_decide (s = "AND") ||
  bool_decide (s = "OR") || bool_decide (s = "LET").

(** A form with a lowered keyword in operator position: [cond], [and],
    [or], [let], or [define] followed by a signature list. *)
Definition lowered_form (t : sexp) : bool :=
  match t with
  | Cons (Sym s) d =>
      lowered_keyword s ||
      (bool_decide (s = "DEFINE") &&
       match d with Cons (Cons _ _) _ => true | _ => false end)
  | _ => false
  end.

(** Such a form anywhere in a tree: the tree itself or, recursively, an
    element of a list in it. *)
Fixpoint has_lowered (t : sexp) : bool :=
  lowered_form t ||
  (fix elements (t : sexp) : bool :=
     match t with
     | Cons a d => has_lowered a || elements d
     | _ => false
     end) t.

Definition is_quote_form (t : sexp) : bool :=
  match t with
  | Cons (Sym s) _ => bool_decide (s = "QUOTE")
  | _ => false
  end.

(** The same search, not entering quoted data. *)
Fixpoint has_lowered_unquoted (t : sexp) : bool :=
  negb (is_quote_form t) &&
  (lowered_form t ||
   (fix elements (t : sexp) : bool :=
      match t with
      | Cons a d => has_lowered_unquoted a || elements d
      | _ => false
      end) t).

(** ** Scenarios *)

Section Scenarios.
#[local] Existing Instance lp64.

(** A heap that went through [heap_reset]: two pages were filled, both
    were kept and emptied, and the first one was filled again. *)
Definition recycled_heap : M unit :=
  heap_init HEAP;;
  heap_alloc 8176 LISP_STRING GC_CLEAR HEAP;;
  heap_alloc 8176 LISP_STRING GC_CLEAR HEAP;;
  do w <- get;
  do hp <- heap_reset 10 (heap (ctx w)) 16384;
  modify (set_ctx (set_heap HEAP hp));;
  heap_alloc 8176 LISP_STRING GC_CLEAR HEAP;;
  ret tt.

(** A reader context in which the symbol [A] was interned. *)
Definition one_symbol : M unit :=
  lisp_init_reader;;
  lisp_make_symbol 10 "A";;
  ret tt.

Definition no_atof (s : string) : spec_float := S754_zero false.
Definition no_funcs (f : nat) (args : Lisp) : M (Lisp * LispError) :=
  ret (lisp_null, LISP_ERROR_NONE).

(** [lisp_read] in a fresh reader context. *)
Definition read_program (program : string) : M Lisp :=
  lisp_init_reader;;
  parse_body no_atof 100 (lexer_init program).

(** [lisp_read], [lisp_expand] and [lisp_eval] against the global
    environment of a fresh interpreter context. *)
Definition eval_program (program : string) : M Lisp :=
  lisp_init_interpreter 100;;
  do l <- parse_body no_atof 100 (lexer_init program);
  do l <- expand_r 100 l;
  do w <- get;
  eval_r no_funcs 100 l (global_env (ctx w)).

Definition expand_program (program : string) : M Lisp :=
  do l <- read_program program;
  expand_r 100 l.

(** The tree a computation returns, started in the empty process. *)
Definition tree_of (m : M Lisp) : option sexp :=
  match m empty_world with
  | Ok l w => Some (view 100 w l)
  | _ => None
  end.

(** The world and the value left by a computation started in the empty
    process. *)
Definition world_after {A} (m : M A) : World :=
  match m empty_world with
  | Ok _ w => w
  | _ => empty_world
  end.

Definition value_after (m : M Lisp) : Lisp :=
  match m empty_world with
  | Ok l _ => l
  | _ => lisp_null
  end.

(** 0.5 as a binary32 number. *)
Definition one_half : spec_float := S754_finite false 8388608 (-24).

(** The form [(IF 0.5 1 2)], built in a fresh interpreter context. *)
Definition if_one_half : M Lisp :=
  lisp_init_interpreter 100;;
  do s <- lisp_make_symbol 100 "IF";
  lisp_make_listv s [lisp_make_float one_half; lisp_make_int 1; lisp_make_int 2; lisp_null].

(** 2147483648.0, that is 2^31, as a binary32 number. *)
Definition two_to_31 : spec_float := S754_finite false 8388608 8.

(** The form [(IF 2147483648.0 1 2)], built in a fresh interpreter context. *)
Definition if_large_float : M Lisp :=
  lisp_init_interpreter 100;;
  do s <- lisp_make_symbol 100 "IF";
  lisp_make_listv s [lisp_make_float two_to_31; lisp_make_int 1; lisp_make_int 2; lisp_null].

(** A program of two top-level forms whose first is an integer one above
    [INT_MAX]. *)
Definition large_integer_program : string := "2147483648 b".

(** The list [(1 2 3)], read in a fresh reader context. *)
Definition three_list : Lisp := value_after (read_program "(1 2 3)").
Definition three_list_world : World := world_after (read_program "(1 2 3)").

(** A fresh reader context. *)
Definition reader_world : World := world_after lisp_init_reader.

(** [n] times the byte [c], then [s]. *)
Fixpoint pad (n : nat) (c : ascii) (s : string) : string :=
  match n with
  | O => s
  | S n => String c (pad n c s)
  end.

(** Two names of 2050 bytes that differ in their last two bytes. *)
Definition long_name_ab : string := pad 2048 "A" "AB".
Definition long_name_ba : string := pad 2048 "A" "BA".

(** A fresh reader context with the symbols [A] and [B], a table of 13
    buckets in which [A] is bound to 1, and an environment of that one
    table. *)
Definition table_scene : M Lisp :=
  lisp_init_reader;;
  do a <- lisp_make_symbol 10 "A";
  lisp_make_symbol 10 "B";;
  do t <- lisp_make_table 13;
  lisp_table_set 10 t a (lisp_make_int 1);;
  lisp_make_env t.

Definition scene_world : World := world_after table_scene.
Definition scene_env : Lisp := value_after table_scene.
Definition scene_table : Z :=
  match data <$> blocks scene_world !! address scene_env with
  | Some (DPair t _) => address t
  | _ => 0
  end.
Definition scene_a : Z := address (value_after (table_scene;; lisp_make_symbol 10 "A")).
Definition scene_b : Z := address (value_after (table_scene;; lisp_make_symbol 10 "B")).
Definition scene_frame : Frame :=
  mkFrame (address scene_env) scene_table 13 (buckets_of (blocks scene_world) scene_table).

(** Forms read in a fresh reader context. *)
Definition quote_form : M Lisp := read_program "(quote (and x))".
Definition bare_quote : M Lisp := read_program "(quote)".
Definition lambda_form : M Lisp := read_program "(lambda (x) x)".

(** [(define b 5)], read in the context of [table_scene]. *)
Definition define_form : M Lisp :=
  table_scene;;
  parse_body no_atof 100 (lexer_init "(define b 5)").

(** [(quote (and x))] and [(lambda (x) x)], read in the context of
    [table_scene]. *)
Definition quote_scene : M Lisp :=
  table_scene;;
  parse_body no_atof 100 (lexer_init "(quote (and x))").
Definition lambda_scene : M Lisp :=
  table_scene;;
  parse_body no_atof 100 (lexer_init "(lambda (x) x)").

(** The cells of the forms above, and the parts of a list of cells. *)
Definition three_cells : list (Z * Lisp) := cells_of 10 (blocks three_list_world) three_list.
Definition cell_addr (cells : list (Z * Lisp)) (i : nat) : Z :=
  (default (0, lisp_null) (cells !! i)).1.
Definition cell_elem (cells : list (Z * Lisp)) (i : nat) : Lisp :=
  (default (0, lisp_null) (cells !! i)).2.
Definition form_cells (m : M Lisp) : list (Z * Lisp) :=
  cells_of 10 (blocks (world_after m)) (value_after m).

(** The bucket of [A] in the table of [table_scene]. *)
Definition scene_bucket : Lisp :=
  match data <$> blocks scene_world !! scene_table with
  | Some (DTable _ _ entries) =>
      default lisp_null (entries !! Z.to_nat (hash_string "A" mod 13))
  | _ => lisp_null
  end.
Definition scene_entries : list Entry := entries_of 100 (blocks scene_world) scene_bucket.

Definition scene_buckets : list (list Entry) := buckets_of (blocks scene_world) scene_table.

(** The table of [table_scene] after a form was read in its context. *)
Definition frame_after (m : M Lisp) : Frame :=
  mkFrame (address scene_env) scene_table 13 (buckets_of (blocks (world_after m)) scene_table).

(** [(set! a 5)], read in the context of [table_scene]. *)
Definition set_scene : M Lisp :=
  table_scene;;
  parse_body no_atof 100 (lexer_init "(set! a 5)").

(** The binding of [A] in the environment of [table_scene], and the
    block of a symbol. *)
Definition scene_entry : Entry :=
  default (mkEntry 0 0 lisp_null lisp_null)
    (env_entry (symbol_ptr scene_a) (hash_string "A") [scene_frame]).
Definition block_at (w : World) (a : Z) : LispBlock :=
  default (mkBlock 0 0 LISP_NULL DUninit) (blocks w !! a).

End Scenarios.

(** * Properties *)

(** Splitting a conjunction of closed facts and evaluating each one. *)
Ltac split_all := repeat match goal with |- _ ∧ _ => split end.
Ltac evaluate := split_all; vm_compute; first [reflexivity | congruence].


(** ** The allocator *)

(** C2 (code_bug): in a heap whose current page is full and whose next
    page exists and is empty, a request of 32 payload bytes fits the next
    page; [heap_alloc] does not make that page current, it creates a fresh
    page and places the block there. *)
Lemma heap_alloc_skips_fitting_next_page :
  ∃ w pg nx block w',
    recycled_heap empty_world = Ok tt w ∧
    heap_page (heap (ctx w)) = 4096 ∧
    pages w !! 4096 = Some pg ∧ page_next pg = 12304 ∧
    pages w !! 12304 = Some nx ∧
    page_size pg + (32 + sizeof_LispBlock (Layout := lp64)) > page_capacity pg ∧
    page_size nx + (32 + sizeof_LispBlock (Layout := lp64)) <= page_capacity nx ∧
    heap_alloc (L := lp64) 32 LISP_PAIR GC_CLEAR HEAP w = Ok block w' ∧
    pages w !! heap_page (heap (ctx w')) = None ∧
    heap_page (heap (ctx w')) ≠ 12304 ∧
    block = page_buffer (L := lp64) (heap_page (heap (ctx w'))) ∧
    pages w' !! 12304 = Some nx.
Proof.
  let r := eval vm_compute in (recycled_heap empty_world) in
  match r with
  | Ok _ ?w =>
      let r' := eval vm_compute in (heap_alloc (L := lp64) 32 LISP_PAIR GC_CLEAR HEAP w) in
      match r' with
      | Ok ?block ?w' =>
          exists w, (mkPage 8192 8192 12304), (mkPage 0 8192 0), block, w'
      end
  end.
  evaluate.
Qed.

(** ** The collector *)

(** C1 (code_bug): collecting a reader context that holds one symbol.
    After the roots and the blocks they reach are moved, the first page of
    the to-space is filled up to offset 174 of 8192; the scan does not
    stop there: it reads a block header at that offset, where nothing was
    allocated. *)
Lemma collect_scans_past_write_pointer :
  ∃ w pg,
    (one_symbol;; lisp_collect (L := lp64) 100 lisp_null) empty_world = Undef w ∧
    heap_first_page (to_heap (ctx w)) = 12304 ∧
    pages w !! 12304 = Some pg ∧
    page_size pg = 174 ∧ page_capacity pg = 8192 ∧
    heap_size (to_heap (ctx w)) = 174 ∧
    blocks w !! (page_buffer (L := lp64) 12304 + 174) = None ∧
    collect_scan_page (L := lp64) 100 TO_HEAP 12304 174 w = Undef w ∧
    collect_check_page (L := lp64) 100 12304 174 w = Ok tt w.
Proof.
  let r := eval vm_compute in
    ((one_symbol;; lisp_collect (L := lp64) 100 lisp_null) empty_world) in
  match r with
  | Undef ?w => exists w, (mkPage 174 8192 0)
  end.
  evaluate.
Qed.

(** C4 (code_bug): for an empty table the new capacity is not 1: the
    [int] value -1 becomes the [unsigned int] 4294967295, which the test
    against 1 lets through; moving the empty symbol table of a fresh
    reader context then clears that many buckets in a block of 8 bytes. *)
Lemma gc_move_empty_table_capacity :
  gc_table_capacity 0 13 = 4294967295 ∧
  gc_table_capacity 0 512 = 4294967295 ∧
  u32 (sizeof_Table (Layout := lp64) + 4294967295 * sizeof_Lisp (Layout := lp64))
    = 4294967288 ∧
  ∃ w, (lisp_init_reader (L := lp64);;
        do w <- get; gc_move (L := lp64) 100 (symbol_table (ctx w)) TO_HEAP) empty_world
       = Undef w.
Proof.
  split_all; try (vm_compute; reflexivity).
  let r := eval vm_compute in
    ((lisp_init_reader (L := lp64);;
      do w <- get; gc_move (L := lp64) 100 (symbol_table (ctx w)) TO_HEAP) empty_world) in
  match r with
  | Undef ?w => exists w
  end.
  vm_compute; reflexivity.
Qed.

(** ** The evaluator *)

(** C3 (code_bug): [(set! x 1)] with [x] unbound in a fresh interpreter
    context.  The diagnostic is printed, and then [lisp_set_cdr] is
    applied to the null pair: the evaluation does not return. *)
Lemma eval_set_unbound_is_undefined :
  ∃ w, eval_program "(set! x 1)" empty_world = Undef w ∧
       stderr w = ["error: unknown variable: X"].
Proof.
  let r := eval vm_compute in (eval_program "(set! x 1)" empty_world) in
  match r with
  | Undef ?w => exists w
  end.
  evaluate.
Qed.

(** ** The reader *)

(** C7, counterexample: the token stream of [2147483648 b] holds two
    top-level forms, an int token and a symbol token.  No [int] holds the
    value of the first: [atoi] is undefined on it and [lisp_read] does not
    return the list [(begin 2147483648 b)], whatever the fuel. *)
Lemma read_large_integer_is_undefined :
  token (lexer_next_token (lexer_init large_integer_program)) = TOKEN_INT ∧
  token_text (lexer_next_token (lexer_init large_integer_program)) = "2147483648"%string ∧
  token (lexer_next_token (lexer_next_token (lexer_init large_integer_program)))
    = TOKEN_SYMBOL ∧
  token_text (lexer_next_token (lexer_next_token (lexer_init large_integer_program)))
    = "b"%string ∧
  token (lexer_next_token (lexer_next_token (lexer_next_token
           (lexer_init large_integer_program)))) = TOKEN_NONE ∧
  INT_MAX < atoi_value "2147483648" ∧
  (∀ fuel, (2 ≤ fuel)%nat →
     lisp_read (L := lp64) no_atof fuel large_integer_program reader_world
       = Undef reader_world).
Proof.
  do 6 (split; [vm_compute; reflexivity|]).
  intros [|[|f]] H; [lia|lia|]. vm_compute. reflexivity.
Qed.

(** ** The expander *)

(** C5 (code_bug): [(define (f a) a)] expands to a form of four elements:
    the list of body expressions follows the lambda. *)
Lemma expand_define_function_keeps_body :
  tree_of (expand_program "(define (f a) a)") =
  Some (slist [Sym "DEFINE"; Sym "F";
               slist [Sym "LAMBDA"; slist [Sym "A"]; Sym "A"];
               slist [Sym "A"]]).
Proof. vm_compute. reflexivity. Qed.

(** C8, counterexample: the expansion of [(quote (and x))] succeeds and
    its result holds the form [(AND X)]. *)
Lemma expand_keeps_quoted_keywords :
  ∃ r, tree_of (expand_program "(quote (and x))") = Some r ∧
       r = slist [Sym "QUOTE"; slist [Sym "AND"; Sym "X"]] ∧
       has_lowered r = true.
Proof.
  exists (slist [Sym "QUOTE"; slist [Sym "AND"; Sym "X"]]).
  evaluate.
Qed.

(** * Universal properties *)

Section Proofs.
Context {L : Layout}.

(** ** Running the monad *)

Lemma bind_Ok_l {A B} (m : M A) (k : A → M B) w a w1 :
  m w = Ok a w1 → bind m k w = k a w1.
Proof. intros H. unfold bind. by rewrite H. Qed.

Lemma bind_get {B} (k : World → M B) w : bind get k w = k w w.
Proof. done. Qed.

Lemma bind_ret {A B} (a : A) (k : A → M B) w : bind (ret a) k w = k a w.
Proof. done. Qed.

Lemma bind_modify {B} f (k : unit → M B) w : bind (modify f) k w = k tt (f w).
Proof. done. Qed.

Lemma bind_bind {A B C} (m : M A) (k : A → M B) (k' : B → M C) w :
  bind (bind m k) k' w = bind m (fun a => bind (k a) k') w.
Proof. unfold bind. by destruct (m w). Qed.

Lemma u32_small x : 0 <= x < 2 ^ 32 → u32 x = x.
Proof. intros. unfold u32. by apply Z.mod_small. Qed.

Lemma same_roots_refl w : same_roots w w.
Proof. by repeat split. Qed.

Lemma same_roots_trans w1 w2 w3 :
  same_roots w1 w2 → same_roots w2 w3 → same_roots w1 w3.
Proof. intros (?&?&?&?) (?&?&?&?). repeat split; congruence. Qed.

(** ** The allocator on a well-shaped heap *)

Lemma heap_okb_sound w : heap_okb w = true → heap_ok w.
Proof.
  unfold heap_okb, heap_ok.
  destruct (pages w !! heap_page (heap (ctx w))) as [pg|]; [|done].
  rewrite !andb_true_iff, forallb_forall.
  intros [[[[[[H1 H2] H3] H4] H5] H6] H7].
  exists pg. split_and!; try done; try lia.
  intros a [b Hb].
  apply elem_of_map_to_list, list_elem_of_In, H7 in Hb.
  apply andb_true_iff in Hb as [Ha Hb]. apply negb_true_iff in Hb.
  split; [lia|]. intros [? ?].
  apply andb_false_iff in Hb as [Hb|Hb]; lia.
Qed.

(** A request that fits 31 bits gets a block at an address that held no
    block; nothing else changes. *)
Lemma heap_alloc_spec n ty fl w :
  heap_ok w → 0 <= n → n + sizeof_LispBlock < 2 ^ 31 →
  ∃ a w', heap_alloc n ty fl HEAP w = Ok a w' ∧
          blocks w !! a = None ∧
          blocks w' = <[a := mkBlock fl n ty DUninit]> (blocks w) ∧
          heap_ok w' ∧ same_roots w w'.
Proof.
  intros (pg & Hpg & Hnext & Hsize & Hcap & Hbrk & Hend & Hblocks) Hn Hsmall.
  pose proof sizeof_LispBlock_pos as Hhdr.
  pose proof sizeof_Page_pos as HP.
  unfold heap_alloc.
  rewrite (u32_small (n + sizeof_LispBlock)) by lia.
  set (alloc_size := n + sizeof_LispBlock) in *.
  unfold bind at 1. unfold get at 1. cbn [get_heap].
  unfold bind at 1. unfold read_page at 1. rewrite Hpg.
  rewrite (u32_small (page_size pg + alloc_size)) by lia.
  destruct (page_size pg + alloc_size >? page_capacity pg) eqn:Hfit.
  - (* a new page *)
    rewrite Hnext. cbn [Z.eqb].
    unfold bind at 2. unfold ret at 1. cbv iota.
    set (size := if alloc_size <=? PAGE_SIZE then PAGE_SIZE else alloc_size).
    assert (Hsz : alloc_size <= size < 2 ^ 31).
    { unfold size, PAGE_SIZE. destruct (alloc_size <=? 8192) eqn:E; lia. }
    destruct w as [pgs blks b c e]; cbn in *.
    cbv [bind page_create write_page modify read_page ret get set_pages set_ctx set_brk
         set_blocks write_block get_heap set_heap].
    cbn [pages blocks brk ctx stderr heap heap_page heap_first_page heap_size
         page_size page_capacity page_next].
    assert (Hne : heap_page (heap c) ≠ b) by (unfold page_buffer in *; lia).
    rewrite lookup_insert_ne by done. rewrite lookup_insert_eq.
    rewrite ?Z.add_0_l, ?Z.add_0_r.
    rewrite (u32_small alloc_size) by lia.
    eexists _, _. split; [reflexivity|]. cbn. rewrite ?Z.add_0_r.
    split.
    { destruct (blks !! (page_buffer b)) as [bb|] eqn:E; [|done].
      assert (Hs : is_Some (blks !! (page_buffer b))) by eauto.
      apply Hblocks in Hs. unfold page_buffer in *; lia. }
    split; [done|]. split; [|done].
    eexists. split; [apply lookup_insert_eq|]. cbn.
    split_and!; try done; try (unfold page_buffer in *; lia).
    intros a Ha. unfold page_buffer in *.
    apply lookup_insert_is_Some in Ha as [<-|[? Ha]]; [lia|].
    apply Hblocks in Ha. lia.
  - (* the current page *)
    destruct w as [pgs blks b c e]; cbn in *.
    cbv [bind page_create write_page modify read_page ret get set_pages set_ctx set_brk
         set_blocks write_block get_heap set_heap].
    cbn [pages blocks brk ctx stderr heap heap_page heap_first_page heap_size
         page_size page_capacity page_next].
    rewrite Hpg.
    rewrite (u32_small (page_size pg + alloc_size)) by lia.
    eexists _, _. split; [reflexivity|]. cbn.
    split.
    { destruct (blks !! (page_buffer (heap_page (heap c)) + page_size pg)) eqn:E; [|done].
      assert (Hs : is_Some (blks !! (page_buffer (heap_page (heap c)) + page_size pg)))
        by eauto.
      apply Hblocks in Hs. lia. }
    split; [done|]. split; [|done].
    eexists. split; [apply lookup_insert_eq|]. cbn.
    split_and!; try done; try lia.
    intros a Ha.
    apply lookup_insert_is_Some in Ha as [<-|[? Ha]]; [lia|].
    apply Hblocks in Ha. lia.
Qed.

(** Storing into a block that exists keeps the heap shape. *)
Lemma heap_ok_store w a b :
  heap_ok w → is_Some (blocks w !! a) → heap_ok (set_blocks (insert a b) w).
Proof.
  intros (pg & Hpg & Hnext & Hsize & Hcap & Hbrk & Hend & Hblocks) Ha.
  exists pg. split_and!; try done; try lia. cbn.
  intros a' Ha'. apply Hblocks.
  apply lookup_insert_is_Some in Ha' as [<-|[? Ha']]; done.
Qed.

(** ** Pairs *)

Lemma lisp_cons_spec x y w :
  heap_ok w →
  ∃ a w', lisp_cons x y w = Ok (pair_ptr a) w' ∧
          blocks w !! a = None ∧
          blocks w' = <[a := pair_block x y]> (blocks w) ∧
          heap_ok w' ∧ same_roots w w'.
Proof.
  intros Hok.
  pose proof sizeof_Lisp_pos. pose proof sizeof_Lisp_small.
  pose proof sizeof_LispBlock_small.
  destruct (heap_alloc_spec (sizeof_Lisp * 2) LISP_PAIR GC_CLEAR w Hok)
    as (a & w1 & Halloc & Hfresh & Hblocks & Hok1 & Hroots); [lia|lia|].
  exists a, (set_blocks (insert a (pair_block x y)) w1).
  unfold lisp_cons, gc_alloc.
  rewrite (bind_Ok_l _ _ _ _ _ Halloc).
  unfold bind, read_block, write_block, modify, ret.
  rewrite Hblocks, lookup_insert_eq. cbn.
  split; [done|]. split; [done|]. split.
  { by rewrite Hblocks, insert_insert_eq. }
  split; [|exact Hroots].
  apply heap_ok_store; [done|]. rewrite Hblocks, lookup_insert_eq. by eexists.
Qed.

Lemma lisp_car_spec l a x y w :
  lisp_val l = Ptr a → pair_at (blocks w) a x y → lisp_car l w = Ok x w.
Proof.
  intros Hl (b & Hb & Hd). unfold lisp_car, block_of. rewrite Hl.
  unfold bind, read_block, ret. by rewrite Hb, Hd.
Qed.

Lemma lisp_cdr_spec l a x y w :
  lisp_val l = Ptr a → pair_at (blocks w) a x y → lisp_cdr l w = Ok y w.
Proof.
  intros Hl (b & Hb & Hd). unfold lisp_cdr, block_of. rewrite Hl.
  unfold bind, read_block, ret. by rewrite Hb, Hd.
Qed.

Lemma lisp_set_cdr_spec l a x y z w :
  lisp_val l = Ptr a → pair_at (blocks w) a x y →
  ∃ w', lisp_set_cdr l z w = Ok tt w' ∧
        pair_at (blocks w') a x z ∧
        (∀ a', a' ≠ a → blocks w' !! a' = blocks w !! a') ∧
        (heap_ok w → heap_ok w') ∧ same_roots w w'.
Proof.
  intros Hl (b & Hb & Hd). unfold lisp_set_cdr, block_of. rewrite Hl.
  unfold bind, read_block, ret. rewrite Hb, Hd.
  eexists. split; [reflexivity|]. cbn. split.
  { eexists. by rewrite lookup_insert_eq. }
  split; [intros a' Hne; by rewrite lookup_insert_ne|].
  split; [|done].
  intros Hok. apply heap_ok_store; [done|]. by eexists.
Qed.

Lemma lisp_set_car_spec l a x y z w :
  lisp_val l = Ptr a → pair_at (blocks w) a x y →
  ∃ w', lisp_set_car l z w = Ok tt w' ∧
        pair_at (blocks w') a z y ∧
        (∀ a', a' ≠ a → blocks w' !! a' = blocks w !! a') ∧
        (heap_ok w → heap_ok w') ∧ same_roots w w'.
Proof.
  intros Hl (b & Hb & Hd). unfold lisp_set_car, block_of. rewrite Hl.
  unfold bind, read_block, ret. rewrite Hb, Hd.
  eexists. split; [reflexivity|]. cbn. split.
  { eexists. by rewrite lookup_insert_eq. }
  split; [intros a' Hne; by rewrite lookup_insert_ne|].
  split; [|done].
  intros Hok. apply heap_ok_store; [done|]. by eexists.
Qed.

Lemma pair_at_mono m m' a x y : m ⊆ m' → pair_at m a x y → pair_at m' a x y.
Proof.
  intros Hsub (b & Hb & Hd). exists b. split; [|done].
  by eapply lookup_weaken.
Qed.

Lemma chain_mono m m' l cells tl : m ⊆ m' → chain m l cells tl → chain m' l cells tl.
Proof.
  intros Hsub. revert l. induction cells as [|[a x] cells IH]; intros l; cbn; [done|].
  intros (-> & next & Hp & Hc). split; [done|]. exists next.
  split; [by eapply pair_at_mono|by apply IH].
Qed.

Lemma pair_ptr_not_null a : lisp_is_null (pair_ptr a) = false.
Proof. done. Qed.

(** ** lisp_append *)

(** The loop of [lisp_append] followed by the final [lisp_set_cdr]: the
    rest of the list, read in the memory [m0] that existed before, is
    copied behind the cell [t]. *)
Lemma append_loop_spec l2 cells :
  ∀ l t x w m0 fuel,
    heap_ok w → chain m0 l cells lisp_null → m0 ⊆ blocks w →
    m0 !! t = None → pair_at (blocks w) t x lisp_null →
    (length cells ≤ fuel)%nat →
    ∃ w' new,
      (do tail <- lisp_append_loop fuel l (pair_ptr t); lisp_set_cdr tail l2) w = Ok tt w' ∧
      heap_ok w' ∧ same_roots w w' ∧
      chain (blocks w') (pair_ptr t) ((t, x) :: new) l2 ∧
      new.*2 = cells.*2 ∧
      (∀ a, a ∈ new.*1 → blocks w !! a = None) ∧
      (∀ a b, a ≠ t → blocks w !! a = Some b → blocks w' !! a = Some b).
Proof.
  induction cells as [|[c y] cells IH]; intros l t x w m0 fuel Hok Hchain Hsub Ht Htail Hfuel.
  - cbn in Hchain. subst l.
    destruct (lisp_set_cdr_spec (pair_ptr t) t x lisp_null l2 w eq_refl Htail)
      as (w' & Hset & Hp & Hframe & Hok' & Hroots).
    exists w', []. split.
    { destruct fuel; cbn; unfold bind, ret; exact Hset. }
    split; [auto|]. split; [done|]. split.
    { cbn. split; [done|]. by exists l2. }
    split; [done|]. split; [intros a Ha; by apply elem_of_nil in Ha|].
    intros a b Hne Hb. by rewrite Hframe.
  - cbn in Hchain. destruct Hchain as (-> & next & Hcy & Hchain).
    destruct fuel as [|fuel]; [cbn in Hfuel; lia|].
    assert (Hcy' : pair_at (blocks w) c y next) by (by eapply pair_at_mono).
    destruct (lisp_cons_spec y lisp_null w Hok)
      as (n & w1 & Hcons & Hfresh & Hblocks1 & Hok1 & Hroots1).
    assert (Hn0 : m0 !! n = None).
    { destruct (m0 !! n) eqn:E; [|done]. eapply lookup_weaken in E; [|done]. congruence. }
    assert (Htn : t ≠ n).
    { intros ->. destruct Htail as (b & Hb & _). congruence. }
    assert (Htail1 : pair_at (blocks w1) t x lisp_null).
    { destruct Htail as (b & Hb & Hd). exists b. rewrite Hblocks1, lookup_insert_ne; done. }
    destruct (lisp_set_cdr_spec (pair_ptr t) t x lisp_null (pair_ptr n) w1 eq_refl Htail1)
      as (w2 & Hset & Hp2 & Hframe2 & Hok2 & Hroots2).
    assert (Hsub2 : m0 ⊆ blocks w2).
    { apply map_subseteq_spec. intros a b Hab.
      assert (a ≠ t) by congruence. assert (a ≠ n) by congruence.
      rewrite Hframe2, Hblocks1, lookup_insert_ne by done. by eapply lookup_weaken. }
    assert (Hn2 : pair_at (blocks w2) n y lisp_null).
    { exists (pair_block y lisp_null).
      rewrite Hframe2, Hblocks1, lookup_insert_eq by done. done. }
    destruct (IH next n y w2 m0 fuel (Hok2 Hok1) Hchain Hsub2 Hn0 Hn2)
      as (w' & new & Hrun & Hok' & Hroots' & Hchain' & Hcars & Hnew & Hframe');
      [cbn in Hfuel; lia|].
    exists w', ((n, y) :: new). split.
    { cbn [lisp_append_loop]. rewrite pair_ptr_not_null.
      unfold bind at 1. unfold bind at 1.
      rewrite (lisp_car_spec (pair_ptr c) c y next w eq_refl Hcy').
      unfold bind at 1. rewrite Hcons.
      unfold bind at 1. rewrite Hset.
      unfold bind at 1.
      rewrite (lisp_cdr_spec (pair_ptr c) c y next w2 eq_refl); [exact Hrun|].
      eapply pair_at_mono; [exact Hsub2|done]. }
    split; [done|]. split.
    { eapply same_roots_trans; [exact Hroots1|]. eapply same_roots_trans; done. }
    split.
    { cbn. split; [done|]. exists (pair_ptr n). split; [|exact Hchain'].
      destruct Hp2 as (b & Hb & Hd). exists b. split; [|done]. by apply Hframe'. }
    split; [cbn; by f_equal|]. split.
    { intros a Ha. cbn in Ha. apply elem_of_cons in Ha as [->|Ha]; [done|].
      apply Hnew in Ha. rewrite Hframe2, Hblocks1 in Ha.
      - destruct (decide (a = n)) as [->|]; [by rewrite lookup_insert_eq in Ha|].
        by rewrite lookup_insert_ne in Ha.
      - intros ->. destruct Hp2 as (b & Hb & _). congruence. }
    intros a b Hne Hb. apply Hframe'.
    + intros ->. congruence.
    + rewrite Hframe2, Hblocks1, lookup_insert_ne by congruence. done.
Qed.

(** C9: [lisp_append] with a null first argument returns that null value,
    whatever [l2] is; with a proper non-empty first list it returns the
    head of a chain of cells that did not exist before, with the same
    cars and [l2] as last cdr, and every block that existed, the cells of
    the first list among them, is left as it was. *)
Theorem lisp_append_copies (fuel : nat) (l l2 : Lisp) (w : World) :
  (lisp_is_null l = true → lisp_append fuel l l2 w = Ok l w) ∧
  (∀ cells,
     cells ≠ [] → heap_ok w → chain (blocks w) l cells lisp_null →
     (length cells ≤ S fuel)%nat →
     ∃ start w' new,
       lisp_append fuel l l2 w = Ok start w' ∧
       chain (blocks w') start new l2 ∧
       new.*2 = cells.*2 ∧
       (∀ a, a ∈ new.*1 → blocks w !! a = None) ∧
       blocks w ⊆ blocks w' ∧
       chain (blocks w') l cells lisp_null).
Proof.
  split.
  { intros Hnull. unfold lisp_append. by rewrite Hnull. }
  intros [|[c x] cells] Hne Hok Hchain Hfuel; [done|].
  cbn in Hchain. destruct Hchain as (-> & next & Hcx & Hchain).
  destruct (lisp_cons_spec x lisp_null w Hok)
    as (t & w1 & Hcons & Hfresh & Hblocks1 & Hok1 & Hroots1).
  assert (Hsub1 : blocks w ⊆ blocks w1).
  { rewrite Hblocks1. by apply insert_subseteq. }
  assert (Ht1 : pair_at (blocks w1) t x lisp_null).
  { exists (pair_block x lisp_null). by rewrite Hblocks1, lookup_insert_eq. }
  destruct (append_loop_spec l2 cells next t x w1 (blocks w) fuel Hok1 Hchain Hsub1 Hfresh Ht1)
    as (w' & new & Hrun & Hok' & Hroots' & Hchain' & Hcars & Hnew & Hframe');
    [cbn in Hfuel; lia|].
  unfold bind in Hrun.
  destruct (lisp_append_loop fuel next (pair_ptr t) w1) as [tail w2| | |] eqn:Hloop;
    try done.
  assert (Hsub : blocks w ⊆ blocks w').
  { apply map_subseteq_spec. intros a b Hab. apply Hframe'; [congruence|].
    by eapply lookup_weaken. }
  exists (pair_ptr t), w', ((t, x) :: new). split.
  { unfold lisp_append. rewrite pair_ptr_not_null.
    unfold bind at 1.
    rewrite (lisp_car_spec (pair_ptr c) c x next w eq_refl Hcx).
    unfold bind at 1. rewrite Hcons.
    unfold bind at 1.
    rewrite (lisp_cdr_spec (pair_ptr c) c x next w1 eq_refl);
      [|by eapply pair_at_mono].
    unfold bind at 1. rewrite Hloop.
    unfold bind at 1. rewrite Hrun. done. }
  split; [done|]. split; [cbn; by f_equal|]. split.
  { intros a Ha. cbn in Ha. apply elem_of_cons in Ha as [->|Ha]; [done|].
    apply Hnew in Ha. destruct (blocks w !! a) eqn:E; [|done].
    eapply lookup_weaken in E; [|exact Hsub1]. congruence. }
  split; [done|].
  eapply chain_mono; [exact Hsub|]. cbn. split; [done|]. by exists next.
Qed.

(** ** The [if] of the evaluator *)

Lemma chainb_sound m l cells tl : chainb m l cells tl = true → chain m l cells tl.
Proof.
  revert l. induction cells as [|[a x] cells IH]; intros l; cbn.
  - by intros ?%bool_decide_eq_true.
  - intros [Hl H]%andb_true_iff. apply bool_decide_eq_true in Hl.
    destruct (m !! a) as [b|] eqn:Hb; [|done]. cbn in H.
    destruct (data b) as [|x' next| | | |] eqn:Hd; try done.
    apply andb_true_iff in H as [Hx H]. apply bool_decide_eq_true in Hx. subst.
    split; [done|]. exists next. split; [by exists b|by apply IH].
Qed.

Lemma float_trunc_below_one f : float_below_one f → float_trunc f = Some 0.
Proof.
  destruct f as [s| | |s m e]; cbn; try done.
  intros [He Hm]. destruct (0 <=? e) eqn:E; [lia|].
  rewrite Z.div_small by lia. by destruct s.
Qed.

Lemma float_trunc_at_least_one f t :
  float_at_least_one f → float_trunc f = Some t → t ≠ 0.
Proof.
  destruct f as [s| | |s m e]; cbn; try done.
  intros Hm [= <-]. destruct (0 <=? e) eqn:E.
  - assert (0 < Z.pos m * 2 ^ e) by (apply Z.mul_pos_pos; [lia|apply Z.pow_pos_nonneg; lia]).
    destruct s; lia.
  - destruct Hm as [?|Hm]; [lia|].
    assert (0 < 2 ^ (- e)) by (apply Z.pow_pos_nonneg; lia).
    assert (1 <= Z.pos m / 2 ^ (- e)).
    { apply Z.div_le_lower_bound; lia. }
    destruct s; lia.
Qed.

Lemma lisp_symbol_spec a name w :
  symbol_at (blocks w) a name → lisp_symbol (symbol_ptr a) w = Ok name w.
Proof.
  intros (b & h & Hb & Hd). unfold lisp_symbol, block_of, assert. cbn.
  rewrite bool_decide_eq_true_2 by done.
  unfold bind, read_block, ret. by rewrite Hb, Hd.
Qed.

Lemma lisp_at_index_loop_chain w cells :
  ∀ l tl i a x,
    chain (blocks w) l cells tl → cells !! i = Some (a, x) →
    lisp_at_index_loop i l w = Ok x w.
Proof.
  induction cells as [|[c y] cells IH]; intros l tl i a x Hchain Hi; [done|].
  cbn in Hchain. destruct Hchain as (-> & next & Hc & Hchain).
  destruct i as [|i]; cbn in Hi |- *.
  - injection Hi as -> ->. by eapply lisp_car_spec.
  - rewrite bool_decide_eq_true_2 by done.
    rewrite (bind_Ok_l _ _ _ _ _ (lisp_cdr_spec (pair_ptr c) c _ _ w eq_refl Hc)).
    by eapply IH.
Qed.

Lemma lisp_at_index_chain w cells l tl i a x :
  chain (blocks w) l cells tl → cells !! i = Some (a, x) →
  lisp_at_index l (Z.of_nat i) w = Ok x w.
Proof.
  intros. unfold lisp_at_index. rewrite Nat2Z.id. by eapply lisp_at_index_loop_chain.
Qed.

(** The three sub-forms of an [if] form as the evaluator fetches them. *)
Lemma if_form_fetch x predicate conseq alt w :
  if_form (blocks w) x predicate conseq alt →
  lisp_type x = LISP_PAIR ∧
  op_name_of x w = Ok (Some "IF") w ∧
  lisp_at_index x 1 w = Ok predicate w ∧
  lisp_at_index x 2 w = Ok conseq w ∧
  lisp_at_index x 3 w = Ok alt w.
Proof.
  intros (a0 & s & a1 & a2 & a3 & tl & Hchain & Hsym).
  pose proof (lisp_at_index_chain w _ _ _ 1 _ _ Hchain eq_refl) as I1.
  pose proof (lisp_at_index_chain w _ _ _ 2 _ _ Hchain eq_refl) as I2.
  pose proof (lisp_at_index_chain w _ _ _ 3 _ _ Hchain eq_refl) as I3.
  cbn in Hchain. destruct Hchain as (-> & l1 & H0 & _).
  split; [done|]. split; [|done].
  unfold op_name_of.
  rewrite (bind_Ok_l _ _ _ _ _ (lisp_car_spec (pair_ptr a0) a0 _ _ w eq_refl H0)).
  cbn. rewrite ?bool_decide_eq_true_2 by done.
  by rewrite (bind_Ok_l _ _ _ _ _ (lisp_symbol_spec _ _ _ Hsym)).
Qed.

(** One turn of the evaluator loop on an [if] form whose predicate
    evaluates to [p]. *)
Lemma eval_if_step funcs fuel x env predicate conseq alt p w w1 :
  if_form (blocks w) x predicate conseq alt →
  lisp_is_null env = false →
  eval_r funcs fuel predicate env w = Ok p w1 →
  eval_r funcs (S fuel) x env w =
  (do n <- lisp_int p;
   if negb (n =? 0) then eval_r funcs fuel conseq env
   else eval_r funcs fuel alt env) w1.
Proof.
  intros Hif Henv Hp.
  destruct (if_form_fetch _ _ _ _ _ Hif) as (Hx & Hop & H1 & H2 & H3).
  cbn [eval_r]. rewrite Henv, Hx. cbn [negb assert].
  unfold bind at 1. cbn [ret].
  rewrite (bind_Ok_l _ _ _ _ _ Hop). unfold is_op.
  rewrite bool_decide_eq_true_2 by done.
  rewrite (bind_Ok_l _ _ _ _ _ H1), (bind_Ok_l _ _ _ _ _ H2), (bind_Ok_l _ _ _ _ _ H3).
  by rewrite (bind_Ok_l _ _ _ _ _ Hp).
Qed.

(** C10: the predicate of an [if] goes through [lisp_int].  When it
    evaluates to a float of magnitude below 1 the evaluation continues
    with the alternative; when it evaluates to a float of magnitude at
    least 1 whose integral part an [int] can hold, or to a non-zero
    integer, it continues with the consequent. *)
Theorem eval_if_truncates_predicate funcs fuel x env predicate conseq alt p w w1 :
  if_form (blocks w) x predicate conseq alt →
  lisp_is_null env = false →
  eval_r funcs fuel predicate env w = Ok p w1 →
  (∀ f, p = lisp_make_float f → float_below_one f →
        eval_r funcs (S fuel) x env w = eval_r funcs fuel alt env w1) ∧
  (∀ f t, p = lisp_make_float f → float_at_least_one f →
          float_trunc f = Some t → INT_MIN <= t <= INT_MAX →
          eval_r funcs (S fuel) x env w = eval_r funcs fuel conseq env w1) ∧
  (∀ n, p = lisp_make_int n → n ≠ 0 →
        eval_r funcs (S fuel) x env w = eval_r funcs fuel conseq env w1).
Proof.
  intros Hif Henv Hp.
  rewrite (eval_if_step _ _ _ _ _ _ _ _ _ _ Hif Henv Hp).
  split_and!.
  - intros f -> Hf. unfold lisp_int, int_of_float. cbn.
    rewrite (float_trunc_below_one _ Hf). done.
  - intros f t -> Hf Ht Hrange. unfold lisp_int, int_of_float. cbn.
    rewrite Ht.
    assert (t ≠ 0) by (by eapply float_trunc_at_least_one).
    destruct (INT_MIN <=? t) eqn:E1; [|lia].
    destruct (t <=? INT_MAX) eqn:E2; [|lia].
    cbn. unfold bind, ret. destruct (t =? 0) eqn:E; [lia|done].
  - intros n -> Hn. cbn. unfold bind, ret. destruct (n =? 0) eqn:E; [lia|done].
Qed.

(** ** Case folding *)

Lemma tolower_toupper c : tolower (toupper c) = tolower c.
Proof. destruct c as [[] [] [] [] [] [] [] []]; reflexivity. Qed.

Lemma toupper_tolower c : toupper (tolower c) = toupper c.
Proof. destruct c as [[] [] [] [] [] [] [] []]; reflexivity. Qed.

Lemma toupper_idem c : toupper (toupper c) = toupper c.
Proof. destruct c as [[] [] [] [] [] [] [] []]; reflexivity. Qed.

Lemma tolower_eq_toupper_eq x y : tolower x = tolower y ↔ toupper x = toupper y.
Proof.
  split; intros H.
  - by rewrite <- (toupper_tolower x), H, toupper_tolower.
  - by rewrite <- (tolower_toupper x), H, tolower_toupper.
Qed.

Lemma upper_idem s : upper (upper s) = upper s.
Proof. unfold upper. induction s as [|c s IH]; cbn; [done|]. by rewrite toupper_idem, IH. Qed.

Lemma hash_string_loop_upper s : ∀ s1 s2,
  hash_string_loop (upper s) s1 s2 = hash_string_loop s s1 s2.
Proof. unfold upper. induction s as [|c s IH]; intros; cbn; [done|]. by rewrite toupper_idem, IH. Qed.

Lemma hash_string_loop_lower s : ∀ s1 s2,
  hash_string_loop (lower s) s1 s2 = hash_string_loop s s1 s2.
Proof. unfold lower. induction s as [|c s IH]; intros; cbn; [done|]. by rewrite toupper_tolower, IH. Qed.

Lemma hash_string_upper s : hash_string (upper s) = hash_string s.
Proof. apply hash_string_loop_upper. Qed.

Lemma hash_string_lower s : hash_string (lower s) = hash_string s.
Proof. apply hash_string_loop_lower. Qed.

(** [strncasecmp] compares the uppercase foldings of the first [n] bytes. *)
Lemma strncasecmp_eq_prefix n : ∀ a b,
  strncasecmp_eq a b n = true ↔ prefix n (upper a) = prefix n (upper b).
Proof.
  unfold prefix, upper.
  induction n as [|n IH]; intros a b; cbn.
  - by destruct a, b.
  - destruct a as [|x a], b as [|y b]; cbn; try done.
    case_bool_decide as Hxy.
    + rewrite IH. apply tolower_eq_toupper_eq in Hxy. rewrite Hxy.
      split; [by intros ->|by intros [= ->]].
    + split; [done|]. intros [= H _]. by apply tolower_eq_toupper_eq in H.
Qed.

Lemma prefix_upper_upper n s : prefix n (upper (upper s)) = prefix n (upper s).
Proof. by rewrite upper_idem. Qed.

Lemma upper_lower s : upper (lower s) = upper s.
Proof. unfold upper, lower. induction s as [|c s IH]; cbn; [done|]. by rewrite toupper_tolower, IH. Qed.

Lemma prefix_short n s : (String.length s ≤ n)%nat → prefix n s = s.
Proof.
  unfold prefix. revert n. induction s as [|c s IH]; intros n Hn; destruct n; cbn in *; try done; try lia.
  f_equal. apply IH. lia.
Qed.

Lemma upper_length s : String.length (upper s) = String.length s.
Proof. unfold upper. induction s; cbn; congruence. Qed.

Lemma prefix_length_lt n a b :
  prefix n a = prefix n b → (String.length b < n)%nat → a = b.
Proof.
  unfold prefix. revert a b. induction n as [|n IH]; intros a b H Hb; [lia|].
  destruct a as [|x a], b as [|y b]; cbn in *; try done.
  injection H as -> H. f_equal. apply IH; [done|lia].
Qed.

(** ** The symbol table *)

(** Frames *)

Lemma stable_refl m : stable m m.
Proof. by intros a b. Qed.

Lemma stable_trans m1 m2 m3 : stable m1 m2 → stable m2 m3 → stable m1 m3.
Proof. intros H12 H23 a b Ha Hd. apply H23; [|done]. by apply H12. Qed.

Lemma stable_insert_fresh m a b : m !! a = None → stable m (<[a := b]> m).
Proof.
  intros Ha a' b' Ha' _. rewrite lookup_insert_ne; [done|]. congruence.
Qed.

Lemma stable_insert_table m t b b' :
  m !! t = Some b → is_table_data (data b) = true → stable m (<[t := b']> m).
Proof.
  intros Ht Hd a' b'' Ha' Hd'. rewrite lookup_insert_ne; [done|]. intros ->. congruence.
Qed.

Lemma pair_at_stable m m' a x y : stable m m' → pair_at m a x y → pair_at m' a x y.
Proof.
  intros Hst (b & Hb & Hd). exists b. split; [|done]. apply Hst; [done|]. by rewrite Hd.
Qed.

Lemma symbol_at_stable m m' a n : stable m m' → symbol_at m a n → symbol_at m' a n.
Proof.
  intros Hst (b & h & Hb & Hd). exists b, h. split; [|done]. apply Hst; [done|]. by rewrite Hd.
Qed.

Lemma chain_stable m m' l cells tl : stable m m' → chain m l cells tl → chain m' l cells tl.
Proof.
  intros Hst. revert l. induction cells as [|[a x] cells IH]; intros l; cbn; [done|].
  intros (-> & next & Hp & Hc). split; [done|]. exists next.
  split; [by eapply pair_at_stable|by apply IH].
Qed.

Lemma binding_ok_stable m m' e : stable m m' → binding_ok m e → binding_ok m' e.
Proof.
  intros Hst ([v Hp] & Hs & Hu). split_and!; [|by eapply symbol_at_stable|done].
  exists v. by eapply pair_at_stable.
Qed.

Lemma bucket_stable m m' it es : stable m m' → bucket m it es → bucket m' it es.
Proof.
  intros Hst [Hc Hes]. split; [by eapply chain_stable|].
  eapply Forall_impl; [done|]. intros e. by apply binding_ok_stable.
Qed.

(** Lookup *)

Lemma table_get_string_loop_spec s w es :
  ∀ it f, bucket (blocks w) it es → (length es ≤ f)%nat →
    table_get_string_loop f it s w =
    Ok (match find (matches s) es with
        | Some e => pair_ptr (binding_pair e)
        | None => lisp_null
        end) w.
Proof.
  induction es as [|e es IH]; intros it f [Hc Hes] Hf.
  - cbn in Hc. subst it. by destruct f.
  - cbn in Hc. destruct Hc as (-> & next & Hcell & Hc).
    apply Forall_cons in Hes as [([v Hp] & Hs & Hu) Hes].
    destruct f as [|f]; [cbn in Hf; lia|].
    cbn [table_get_string_loop find]. rewrite pair_ptr_not_null.
    rewrite (bind_Ok_l _ _ _ _ _ (lisp_car_spec (pair_ptr _) _ _ _ w eq_refl Hcell)).
    rewrite (bind_Ok_l _ _ _ _ _ (lisp_car_spec (pair_ptr _) _ _ _ w eq_refl Hp)).
    rewrite (bind_Ok_l _ _ _ _ _ (lisp_symbol_spec _ _ _ Hs)).
    unfold matches at 1.
    destruct (strncasecmp_eq (binding_name e) s 2048); [done|].
    rewrite (bind_Ok_l _ _ _ _ _ (lisp_cdr_spec (pair_ptr _) _ _ _ w eq_refl Hcell)).
    apply IH; [done|]. cbn in Hf. lia.
Qed.

Lemma lisp_table_spec t b size capacity entries w :
  blocks w !! t = Some b → data b = DTable size capacity entries →
  lisp_table (table_ptr t) w = Ok (t, b, (size, capacity, entries)) w.
Proof.
  intros Hb Hd. unfold lisp_table, block_of, assert. cbn.
  rewrite ?bool_decide_eq_true_2 by done.
  unfold bind, read_block, ret. by rewrite Hb, Hd.
Qed.

Lemma table_entry_spec capacity (entries : list Lisp) hash w :
  0 < capacity → Z.of_nat (length entries) = capacity →
  ∃ it, entries !! Z.to_nat (hash mod capacity) = Some it ∧
        table_entry capacity entries hash w = Ok (Z.to_nat (hash mod capacity), it) w.
Proof.
  intros Hcap Hlen. unfold table_entry.
  destruct (capacity =? 0) eqn:E; [lia|].
  assert (Hlt : (Z.to_nat (hash mod capacity) < length entries)%nat).
  { pose proof (Z.mod_pos_bound hash capacity Hcap). lia. }
  apply lookup_lt_is_Some in Hlt as [it Hit]. exists it. by rewrite Hit.
Qed.

(** A name that is in the table: [lisp_make_symbol] returns its symbol and
    changes nothing. *)
Lemma intern_lookup s w capacity buckets e :
  symtab w capacity buckets → lookup_name capacity buckets s = Some e →
  returns (fun f => lisp_make_symbol f s) w (symbol_ptr (binding_symbol e)) w.
Proof.
  intros (t & b & size & entries & Hst & Hb & Hd & Hcap & Hlen & Hbuckets) Hlook.
  unfold lookup_name in Hlook.
  destruct (table_entry_spec capacity entries (hash_string s) w Hcap Hlen) as (it & Hit & Hentry).
  destruct (buckets !! Z.to_nat (hash_string s mod capacity)) as [es|] eqn:Hes; [|done].
  pose proof (Forall2_lookup_lr _ _ _ _ _ _ Hbuckets Hit Hes) as Hbucket.
  exists (length es). intros f Hf.
  unfold lisp_make_symbol, table_get_string.
  rewrite bind_get, Hst. rewrite bind_bind.
  rewrite (bind_Ok_l _ _ _ _ _ (lisp_table_spec _ _ _ _ _ _ Hb Hd)). rewrite bind_bind.
  rewrite (bind_Ok_l _ _ _ _ _ Hentry).
  rewrite (bind_Ok_l _ _ _ _ _ (table_get_string_loop_spec s w es it f Hbucket Hf)).
  rewrite Hlook. rewrite pair_ptr_not_null.
  destruct Hbucket as [_ Hall].
  apply find_some in Hlook as [Hin _].
  rewrite Forall_forall in Hall. apply list_elem_of_In, Hall in Hin as ([v Hp] & _).
  by eapply lisp_car_spec.
Qed.

Lemma lisp_null_is_null : lisp_is_null lisp_null = true.
Proof. done. Qed.

Lemma write_block_spec a b' w :
  is_Some (blocks w !! a) →
  ∃ w', write_block a b' w = Ok tt w' ∧
        blocks w' = <[a := b']> (blocks w) ∧
        (heap_ok w → heap_ok w') ∧ same_roots w w'.
Proof.
  intros Ha. eexists. split; [reflexivity|]. split; [done|]. split; [|done].
  intros Hok. by apply heap_ok_store.
Qed.

Lemma symbol_hash_spec a b h name w :
  blocks w !! a = Some b → data b = DSymbol h name →
  symbol_hash (symbol_ptr a) w = Ok h w.
Proof.
  intros Hb Hd. unfold symbol_hash, block_of, assert. cbn.
  rewrite ?bool_decide_eq_true_2 by done.
  unfold bind, read_block, ret. by rewrite Hb, Hd.
Qed.

(** No key of the bucket is the symbol at [a]. *)
Lemma lisp_assoc_miss a w es :
  ∀ it f, bucket (blocks w) it es →
    (∀ e, e ∈ es → binding_symbol e ≠ a) → (length es ≤ f)%nat →
    lisp_assoc f it (symbol_ptr a) w = Ok lisp_null w.
Proof.
  induction es as [|e es IH]; intros it f [Hc Hes] Hne Hf.
  - cbn in Hc. subst it. by destruct f.
  - cbn in Hc. destruct Hc as (-> & next & Hcell & Hc).
    apply Forall_cons in Hes as [([v Hp] & Hs & Hu) Hes].
    destruct f as [|f]; [cbn in Hf; lia|].
    cbn [lisp_assoc]. rewrite pair_ptr_not_null.
    rewrite (bind_Ok_l _ _ _ _ _ (lisp_car_spec (pair_ptr _) _ _ _ w eq_refl Hcell)).
    cbn [pair_ptr lisp_type]. rewrite bool_decide_eq_true_2 by done.
    rewrite bind_bind.
    rewrite (bind_Ok_l _ _ _ _ _ (lisp_car_spec (pair_ptr _) _ _ _ w eq_refl Hp)).
    rewrite bind_ret.
    assert (Hk : lisp_eq (symbol_ptr (binding_symbol e)) (symbol_ptr a) = false).
    { unfold lisp_eq. apply bool_decide_eq_false. cbn. intros [= Heq].
      by eapply Hne; [apply list_elem_of_here|]. }
    rewrite Hk.
    rewrite (bind_Ok_l _ _ _ _ _ (lisp_cdr_spec (pair_ptr _) _ _ _ w eq_refl Hcell)).
    apply IH; [done| |cbn in Hf; lia].
    intros e' He'. apply Hne. by apply list_elem_of_further.
Qed.

(** A name that is not in the table: a symbol block with the uppercase
    name is allocated and bound at the head of its bucket. *)
Lemma intern_insert s w capacity buckets :
  heap_ok w → symtab w capacity buckets → lookup_name capacity buckets s = None →
  name_fits s →
  ∃ a w' e es,
    returns (fun f => lisp_make_symbol f s) w (symbol_ptr a) w' ∧
    heap_ok w' ∧ same_roots w w' ∧
    buckets !! Z.to_nat (hash_string s mod capacity) = Some es ∧
    symtab w' capacity (<[Z.to_nat (hash_string s mod capacity) := e :: es]> buckets) ∧
    binding_symbol e = a ∧ binding_name e = upper s ∧
    blocks w !! a = None ∧ stable (blocks w) (blocks w') ∧
    blocks w !! binding_cell e = None ∧ blocks w !! binding_pair e = None.
Proof.
  intros Hok (t & b & size & entries & Hst & Hb & Hd & Hcap & Hlen & Hbuckets) Hlook Hfits.
  pose proof sizeof_Symbol_pos. pose proof sizeof_Symbol_small.
  pose proof sizeof_LispBlock_small. pose proof sizeof_LispBlock_pos.
  unfold name_fits, strlen in Hfits.
  set (idx := Z.to_nat (hash_string s mod capacity)) in *.
  assert (∃ it, entries !! idx = Some it) as [it Hit].
  { destruct (table_entry_spec capacity entries (hash_string s) w Hcap Hlen) as (it & ? & _).
    by exists it. }
  destruct (Forall2_lookup_l _ _ _ _ _ Hbuckets Hit) as (es & Hes & Hbucket).
  unfold lookup_name in Hlook. fold idx in Hlook. rewrite Hes in Hlook.
  (* the symbol block *)
  destruct (heap_alloc_spec (sizeof_Symbol + (strlen s + 1)) LISP_SYMBOL GC_CLEAR w Hok)
    as (p & w1 & Halloc & Hfresh & Hblocks1 & Hok1 & Hroots1);
    [unfold strlen; lia|unfold strlen; lia|].
  destruct (write_block_spec p
              (set_data (DSymbol (hash_string s) (upper s))
                 (mkBlock GC_CLEAR (sizeof_Symbol + (strlen s + 1)) LISP_SYMBOL DUninit)) w1)
    as (w2 & Hwrite2 & Hblocks2 & Hok2 & Hroots2).
  { rewrite Hblocks1, lookup_insert_eq. by eexists. }
  rewrite Hblocks1, insert_insert_eq in Hblocks2.
  assert (Hst2 : stable (blocks w) (blocks w2)).
  { rewrite Hblocks2. by apply stable_insert_fresh. }
  assert (Hpt : p ≠ t) by congruence.
  assert (Hb2 : blocks w2 !! t = Some b).
  { rewrite Hblocks2, lookup_insert_ne; done. }
  assert (Hsym2 : blocks w2 !! p = Some (set_data (DSymbol (hash_string s) (upper s))
                 (mkBlock GC_CLEAR (sizeof_Symbol + (strlen s + 1)) LISP_SYMBOL DUninit))).
  { by rewrite Hblocks2, lookup_insert_eq. }
  assert (Hbucket2 : bucket (blocks w2) it es) by (by eapply bucket_stable).
  assert (Hkeys : ∀ e, e ∈ es → binding_symbol e ≠ p).
  { intros e He. destruct Hbucket as [_ Hall]. rewrite Forall_forall in Hall.
    destruct (Hall e He) as (_ & (bs & h & Hbs & _) & _). congruence. }
  (* the pair and the chain cell *)
  destruct (lisp_cons_spec (symbol_ptr p) lisp_null w2 (Hok2 Hok1))
    as (pa & w3 & Hcons3 & Hfresh3 & Hblocks3 & Hok3 & Hroots3).
  destruct (lisp_cons_spec (pair_ptr pa) it w3 Hok3)
    as (c & w4 & Hcons4 & Hfresh4 & Hblocks4 & Hok4 & Hroots4).
  assert (Hpa_p : pa ≠ p) by congruence.
  assert (Hpa_t : pa ≠ t) by congruence.
  assert (Hpa3 : blocks w3 !! pa = Some (pair_block (symbol_ptr p) lisp_null)).
  { by rewrite Hblocks3, lookup_insert_eq. }
  assert (Hp3 : blocks w3 !! p = Some (set_data (DSymbol (hash_string s) (upper s))
                 (mkBlock GC_CLEAR (sizeof_Symbol + (strlen s + 1)) LISP_SYMBOL DUninit))).
  { by rewrite Hblocks3, lookup_insert_ne. }
  assert (Hc_pa : c ≠ pa) by congruence.
  assert (Hc_p : c ≠ p) by congruence.
  assert (Hb3 : blocks w3 !! t = Some b).
  { rewrite Hblocks3, lookup_insert_ne; [done|congruence]. }
  assert (Hb4 : blocks w4 !! t = Some b).
  { rewrite Hblocks4, lookup_insert_ne; [done|congruence]. }
  destruct (write_block_spec t
              (set_data (DTable (u16 (size + 1)) capacity (<[idx := pair_ptr c]> entries)) b) w4)
    as (w5 & Hwrite5 & Hblocks5 & Hok5 & Hroots5).
  { by eexists. }
  assert (Hst5 : stable (blocks w) (blocks w5)).
  { eapply stable_trans; [exact Hst2|].
    rewrite Hblocks5, Hblocks4, Hblocks3.
    eapply stable_trans; [by apply stable_insert_fresh|].
    eapply stable_trans; [apply stable_insert_fresh; by rewrite <- Hblocks3|].
    eapply stable_insert_table; [by rewrite <- Hblocks3, <- Hblocks4|by rewrite Hd]. }
  assert (Hroots : same_roots w w5).
  { repeat (eapply same_roots_trans; [eassumption|]). apply same_roots_refl. }
  exists p, w5, (mkBinding c pa p (upper s)), es.
  split.
  { exists (length es). intros f Hf.
    unfold lisp_make_symbol, table_get_string.
    rewrite bind_get, Hst. rewrite ?bind_bind.
    rewrite (bind_Ok_l _ _ _ _ _ (lisp_table_spec _ _ _ _ _ _ Hb Hd)). rewrite ?bind_bind.
    destruct (table_entry_spec capacity entries (hash_string s) w Hcap Hlen)
      as (it' & Hit' & Hentry). fold idx in Hit', Hentry.
    rewrite Hit in Hit'. injection Hit' as <-.
    rewrite (bind_Ok_l _ _ _ _ _ Hentry).
    rewrite (bind_Ok_l _ _ _ _ _ (table_get_string_loop_spec s w es it f Hbucket Hf)).
    rewrite Hlook. rewrite lisp_null_is_null.
    unfold gc_alloc. rewrite u32_small by (unfold strlen; lia).
    rewrite (bind_Ok_l _ _ _ _ _ Halloc).
    unfold read_block at 1. unfold bind at 1.
    rewrite Hblocks1, lookup_insert_eq.
    rewrite (bind_Ok_l _ _ _ _ _ Hwrite2).
    rewrite bind_get.
    destruct Hroots1 as (Hr1 & _). destruct Hroots2 as (Hr2 & _).
    rewrite Hr2, Hr1, Hst.
    cbn [block_type].
    change (mkLisp LISP_SYMBOL (Ptr p)) with (symbol_ptr p).
    unfold lisp_table_set. rewrite ?bind_bind.
    rewrite (bind_Ok_l _ _ _ _ _ (lisp_table_spec _ _ _ _ _ _ Hb2 Hd)). rewrite ?bind_bind.
    rewrite (bind_Ok_l _ _ _ _ _ (symbol_hash_spec _ _ _ _ _ Hsym2 eq_refl)).
    destruct (table_entry_spec capacity entries (hash_string s) w2 Hcap Hlen)
      as (it' & Hit' & Hentry2). fold idx in Hit', Hentry2.
    rewrite Hit in Hit'. injection Hit' as <-. rewrite ?bind_bind.
    rewrite (bind_Ok_l _ _ _ _ _ Hentry2). rewrite ?bind_bind.
    rewrite (bind_Ok_l _ _ _ _ _ (lisp_assoc_miss p w2 es it f Hbucket2 Hkeys Hf)).
    rewrite lisp_null_is_null. rewrite ?bind_bind.
    rewrite (bind_Ok_l _ _ _ _ _ Hcons3). rewrite ?bind_bind.
    rewrite (bind_Ok_l _ _ _ _ _ Hcons4). rewrite ?bind_bind.
    rewrite (bind_Ok_l _ _ _ _ _ (lisp_table_spec _ _ _ _ _ _ Hb4 Hd)).
    rewrite (bind_Ok_l _ _ _ _ _ Hwrite5). done. }
  split; [auto|]. split; [done|]. split; [done|]. split.
  { exists t, (set_data (DTable (u16 (size + 1)) capacity (<[idx := pair_ptr c]> entries)) b),
      (u16 (size + 1)), (<[idx := pair_ptr c]> entries).
    destruct Hroots as (-> & _).
    split; [done|]. split; [by rewrite Hblocks5, lookup_insert_eq|].
    split; [done|]. split; [done|]. split; [by rewrite length_insert|].
    apply Forall2_insert.
    - eapply Forall2_impl; [exact Hbuckets|]. intros. by eapply bucket_stable.
    - assert (Hpc : pair_at (blocks w5) c (pair_ptr pa) it).
      { exists (pair_block (pair_ptr pa) it). split; [|done].
        rewrite Hblocks5, lookup_insert_ne by congruence.
        by rewrite Hblocks4, lookup_insert_eq. }
      assert (Hpp : pair_at (blocks w5) pa (symbol_ptr p) lisp_null).
      { exists (pair_block (symbol_ptr p) lisp_null). split; [|done].
        rewrite Hblocks5, lookup_insert_ne by congruence.
        rewrite Hblocks4, lookup_insert_ne by congruence.
        by rewrite Hblocks3, lookup_insert_eq. }
      assert (Hsp : symbol_at (blocks w5) p (upper s)).
      { exists (set_data (DSymbol (hash_string s) (upper s))
                 (mkBlock GC_CLEAR (sizeof_Symbol + (strlen s + 1)) LISP_SYMBOL DUninit)),
          (hash_string s).
        split; [|done].
        rewrite Hblocks5, lookup_insert_ne by congruence.
        rewrite Hblocks4, lookup_insert_ne by congruence.
        exact Hp3. }
      destruct (bucket_stable _ _ _ _ Hst5 Hbucket) as [Hc5 Hall5].
      split.
      + cbn. split; [done|]. by exists it.
      + apply Forall_cons. split; [|done].
        split_and!; [by exists lisp_null|done|apply upper_idem]. }
  split; [done|]. split; [done|]. split; [done|]. split; [done|].
  cbn [binding_cell binding_pair].
  rewrite Hblocks3, Hblocks2 in Hfresh4. rewrite Hblocks2 in Hfresh3.
  apply lookup_insert_None in Hfresh4 as [Hfresh4 _].
  apply lookup_insert_None in Hfresh4 as [Hfresh4 _].
  apply lookup_insert_None in Hfresh3 as [Hfresh3 _].
  done.
Qed.

Lemma find_ext {A} (f g : A → bool) l : (∀ x, f x = g x) → find f l = find g l.
Proof. intros H. induction l as [|x l IH]; cbn; [done|]. by rewrite H, IH. Qed.

Lemma hash_string_same_upper s s' : upper s' = upper s → hash_string s' = hash_string s.
Proof. intros H. by rewrite <- (hash_string_upper s'), H, hash_string_upper. Qed.

Lemma matches_same_upper s s' e : upper s' = upper s → matches s' e = matches s e.
Proof.
  intros H. unfold matches. apply eq_true_iff_eq.
  by rewrite !strncasecmp_eq_prefix, H.
Qed.

(** The lookup only depends on the uppercase folding of the name. *)
Lemma lookup_name_same_upper capacity buckets s s' :
  upper s' = upper s → lookup_name capacity buckets s' = lookup_name capacity buckets s.
Proof.
  intros H. unfold lookup_name. rewrite (hash_string_same_upper _ _ H).
  destruct (buckets !! _); [|done]. apply find_ext. intros e. by apply matches_same_upper.
Qed.

Lemma lookup_name_binding_ok w capacity buckets s e :
  symtab w capacity buckets → lookup_name capacity buckets s = Some e →
  binding_ok (blocks w) e ∧ matches s e = true.
Proof.
  intros (t & b & size & entries & _ & _ & _ & _ & _ & Hbuckets) Hlook.
  unfold lookup_name in Hlook.
  destruct (buckets !! _) as [es|] eqn:Hes; [|done].
  apply find_some in Hlook as [Hin Hm]. split; [|done].
  destruct (Forall2_lookup_r _ _ _ _ _ Hbuckets Hes) as (it & _ & [_ Hall]).
  rewrite Forall_forall in Hall. by apply Hall, list_elem_of_In.
Qed.

(** [lisp_make_symbol] on a well-formed table: the name is looked up, or
    else bound; afterwards the lookup of the name finds the symbol
    returned. *)
Lemma intern_spec s w capacity buckets :
  heap_ok w → symtab w capacity buckets → name_fits s →
  ∃ a w' buckets' e,
    returns (fun f => lisp_make_symbol f s) w (symbol_ptr a) w' ∧
    heap_ok w' ∧ same_roots w w' ∧ symtab w' capacity buckets' ∧
    lookup_name capacity buckets' s = Some e ∧ binding_symbol e = a ∧
    stable (blocks w) (blocks w') ∧
    ((w' = w ∧ buckets' = buckets) ∨ blocks w !! a = None).
Proof.
  intros Hok Htab Hfits.
  destruct (lookup_name capacity buckets s) as [e|] eqn:Hlook.
  - exists (binding_symbol e), w, buckets, e.
    split; [by eapply intern_lookup|].
    split_and!; try done; [apply stable_refl|by left].
  - destruct (intern_insert s w capacity buckets Hok Htab Hlook Hfits)
      as (a & w' & e & es & Hret & Hok' & Hroots & Hes & Htab' & Hsym & Hname & Hfresh & Hst & _).
    exists a, w', (<[Z.to_nat (hash_string s mod capacity) := e :: es]> buckets), e.
    split_and!; try done; [|by right].
    unfold lookup_name. rewrite list_lookup_insert_eq by (by eapply lookup_lt_Some).
    cbn. replace (matches s e) with true; [done|].
    symmetry. unfold matches. rewrite Hname.
    apply strncasecmp_eq_prefix. by rewrite upper_idem.
Qed.

Lemma symbol_at_inj m a n n' : symbol_at m a n → symbol_at m a n' → n = n'.
Proof. intros (b & h & Hb & Hd) (b' & h' & Hb' & Hd'). congruence. Qed.

(** C6, amended: the symbol returned for [s] is the one returned again
    for its uppercase and lowercase spellings; its block holds an
    uppercase name that agrees with the uppercase folding of [s] on the
    first 2048 bytes, and is that folding when [s] is shorter; a name
    whose folding differs from that of [s] within the first 2048 bytes
    gets another block. *)
Theorem intern_folds_case (s t : string) (w : World) :
  heap_ok w → symtab_ok w → name_fits s → name_fits t →
  ∃ a w1 name,
    returns (fun f => lisp_make_symbol f s) w (symbol_ptr a) w1 ∧
    returns (fun f => lisp_make_symbol f (upper s)) w1 (symbol_ptr a) w1 ∧
    returns (fun f => lisp_make_symbol f (lower s)) w1 (symbol_ptr a) w1 ∧
    symbol_at (blocks w1) a name ∧ upper name = name ∧
    prefix 2048 name = prefix 2048 (upper s) ∧
    ((String.length s < 2048)%nat → name = upper s) ∧
    (prefix 2048 (upper s) ≠ prefix 2048 (upper t) →
     ∃ b w2, returns (fun f => lisp_make_symbol f t) w1 (symbol_ptr b) w2 ∧ b ≠ a).
Proof.
  intros Hok (capacity & buckets & Htab) Hs Ht.
  destruct (intern_spec s w capacity buckets Hok Htab Hs)
    as (a & w1 & buckets1 & e & Hret & Hok1 & Hroots1 & Htab1 & Hlook1 & Hsym & _ & _).
  destruct (lookup_name_binding_ok _ _ _ _ _ Htab1 Hlook1) as [(_ & Hname & Hupper) Hmatch].
  rewrite Hsym in Hname.
  unfold matches in Hmatch. apply strncasecmp_eq_prefix in Hmatch.
  rewrite Hupper in Hmatch.
  exists a, w1, (binding_name e).
  split; [done|]. split.
  { rewrite <- Hsym. eapply intern_lookup; [done|].
    rewrite <- Hlook1. apply lookup_name_same_upper, upper_idem. }
  split.
  { rewrite <- Hsym. eapply intern_lookup; [done|].
    rewrite <- Hlook1. apply lookup_name_same_upper, upper_lower. }
  split; [done|]. split; [done|]. split; [done|]. split.
  { intros Hlen. eapply prefix_length_lt; [done|]. by rewrite upper_length. }
  intros Hdiff.
  destruct (intern_spec t w1 capacity buckets1 Hok1 Htab1 Ht)
    as (b & w2 & buckets2 & e' & Hret' & _ & _ & Htab2 & Hlook2 & Hsym' & _ & Hcase).
  exists b, w2. split; [done|]. intros ->.
  destruct Hcase as [[-> ->]|Hfresh].
  - destruct (lookup_name_binding_ok _ _ _ _ _ Htab1 Hlook2)
      as [(_ & Hname' & Hupper') Hmatch'].
    rewrite Hsym' in Hname'.
    pose proof (symbol_at_inj _ _ _ _ Hname Hname') as Heq.
    unfold matches in Hmatch'. apply strncasecmp_eq_prefix in Hmatch'.
    rewrite Hupper', <- Heq in Hmatch'. congruence.
  - destruct Hname as (bb & h & Hbb & _). congruence.
Qed.

(** ** Value trees and the program's cells *)

Lemma keeps_refl F m : keeps F m m.
Proof. by intros a b. Qed.

Lemma stable_keeps F m m' : stable m m' → keeps F m m'.
Proof. intros H a b Hb Ht _. by apply H. Qed.

Lemma keeps_subseteq F G m m' : F ⊆ G → keeps G m m' → keeps F m m'.
Proof. intros HFG H a b Hb Ht [Ha|Hp]; apply H; auto. Qed.

Lemma pair_at_keeps F m m' a x y : keeps F m m' → a ∈ F → pair_at m a x y → pair_at m' a x y.
Proof.
  intros H Ha (b & Hb & Hd). exists b. split; [|done].
  apply H; [done|by rewrite Hd|by left].
Qed.

Lemma symbol_at_keeps F m m' a n : keeps F m m' → symbol_at m a n → symbol_at m' a n.
Proof.
  intros H (b & h & Hb & Hd). exists b, h. split; [|done].
  apply H; [done|by rewrite Hd|right; by rewrite Hd].
Qed.

Lemma string_at_keeps F m m' a n : keeps F m m' → string_at m a n → string_at m' a n.
Proof.
  intros H (b & Hb & Hd). exists b. split; [|done].
  apply H; [done|by rewrite Hd|right; by rewrite Hd].
Qed.

Lemma tree_keeps m m' F l t : tree m F l t → keeps F m m' → tree m' F l t.
Proof.
  induction 1; intros Hk.
  - constructor.
  - constructor.
  - constructor.
  - constructor. by eapply symbol_at_keeps.
  - constructor. by eapply string_at_keeps.
  - econstructor; try done.
    + eapply pair_at_keeps; [done| |done]. set_solver.
    + apply IHtree1. eapply keeps_subseteq; [|done]. set_solver.
    + apply IHtree2. eapply keeps_subseteq; [|done]. set_solver.
Qed.

Lemma tree_dom m F l t a : tree m F l t → a ∈ F → ∃ x y, pair_at m a x y.
Proof.
  induction 1; intros Ha; try (by apply not_elem_of_empty in Ha).
  apply elem_of_union in Ha as [Ha|Ha]; [apply elem_of_union in Ha as [Ha|Ha]|]; auto.
  apply elem_of_singleton in Ha as ->. eauto.
Qed.

Lemma tree_cons' m F a x y tx ty Fx Fy :
  pair_at m a x y → tree m Fx x tx → tree m Fy y ty →
  a ∉ Fx → a ∉ Fy → Fx ## Fy → F = {[a]} ∪ Fx ∪ Fy →
  tree m F (pair_ptr a) (Cons tx ty).
Proof. intros. subst. by econstructor. Qed.

Lemma spine_tree m F l ts c : spine m F l ts c → tree m F l (slist ts).
Proof.
  induction 1; cbn.
  - eapply tree_cons'; [done|done|apply tree_nil|done|set_solver|set_solver|set_solver].
  - by econstructor.
Qed.

Lemma spine_last_in m F l ts c : spine m F l ts c → c ∈ F.
Proof. induction 1; set_solver. Qed.

Lemma spine_last_pair m F l ts c : spine m F l ts c → ∃ y, pair_at m c y lisp_null.
Proof. induction 1; eauto. Qed.

Lemma spine_snoc m m' F l ts c n x tx Fx :
  spine m F l ts c →
  (∀ a b, m !! a = Some b → a ≠ c → m' !! a = Some b) →
  (∀ y z, pair_at m c y z → pair_at m' c y (pair_ptr n)) →
  pair_at m' n x lisp_null → tree m' Fx x tx → n ∉ Fx → n ∉ F → Fx ## F →
  spine m' (F ∪ ({[n]} ∪ Fx)) l (ts ++ [tx]) n.
Proof.
  intros Hsp Hframe Hc Hn Hx HnFx HnF HFx.
  assert (Hkeep : ∀ G, c ∉ G → keeps G m m').
  { intros G HG a b Hb _ [Ha|Hp]; apply Hframe; try done; [set_solver|].
    intros ->. destruct (spine_last_pair _ _ _ _ _ Hsp) as (y & b' & Hb' & Hd').
    rewrite Hb in Hb'. injection Hb' as ->. by rewrite Hd' in Hp. }
  induction Hsp as [c y ty Fy Hpc Hy HcFy | a y z ty ts Fy Fz c Hpa Hy Hz IH HaFy HaFz HFyz].
  - cbn. replace ({[c]} ∪ Fy ∪ ({[n]} ∪ Fx)) with ({[c]} ∪ Fy ∪ ({[n]} ∪ Fx)) by done.
    eapply spine_cons; [by eapply Hc|eapply tree_keeps; [done|by apply Hkeep]| | | |].
    + by eapply spine_last.
    + done.
    + set_solver.
    + set_solver.
  - cbn.
    assert (Hcz := spine_last_in _ _ _ _ _ Hz).
    replace ({[a]} ∪ Fy ∪ Fz ∪ ({[n]} ∪ Fx)) with ({[a]} ∪ Fy ∪ (Fz ∪ ({[n]} ∪ Fx))) by set_solver.
    eapply spine_cons.
    + destruct Hpa as (b & Hb & Hd). exists b. split; [|done]. apply Hframe; [done|set_solver].
    + eapply tree_keeps; [done|]. apply Hkeep. set_solver.
    + apply IH; set_solver.
    + done.
    + set_solver.
    + set_solver.
Qed.

Lemma chain_agree m m' l cells tl :
  (∀ a b, a ∈ cells.*1 → m !! a = Some b → m' !! a = Some b) →
  chain m l cells tl → chain m' l cells tl.
Proof.
  revert l. induction cells as [|[a x] cells IH]; intros l Hag; cbn; [done|].
  intros (-> & next & (b & Hb & Hd) & Hc). split; [done|]. exists next. split.
  - exists b. split; [|done]. apply Hag; [|done]. cbn. apply list_elem_of_here.
  - apply IH; [|done]. intros a' b' Ha'. apply Hag. cbn. by apply list_elem_of_further.
Qed.

Lemma symtab_agree w w' capacity buckets :
  symtab w capacity buckets → symbol_table (ctx w') = symbol_table (ctx w) →
  (∀ a b, blocks w !! a = Some b →
          is_pair_data (data b) = false ∨ table_cell buckets a →
          blocks w' !! a = Some b) →
  symtab w' capacity buckets.
Proof.
  intros (t & b & size & entries & Hst & Hb & Hd & Hcap & Hlen & Hbuckets) Hroot Hag.
  exists t, b, size, entries.
  split; [congruence|]. split; [apply Hag; [done|left; by rewrite Hd]|].
  split; [done|]. split; [done|]. split; [done|].
  assert (Hgen : ∀ ents bs, Forall2 (bucket (blocks w)) ents bs →
                   (∀ es, es ∈ bs → es ∈ buckets) →
                   Forall2 (bucket (blocks w')) ents bs); [|by apply Hgen].
  clear Hbuckets Hlen Hd.
  induction 1 as [|it es entries' bs' Hbucket Hrest IH]; intros Hsub; constructor.
  - destruct Hbucket as [Hc Hall]. split.
    + eapply chain_agree; [|done]. intros a ba Ha Hba. apply Hag; [done|]. right.
      rewrite <- list_fmap_compose in Ha. apply list_elem_of_fmap in Ha as (e & -> & He).
      exists es, e. split; [apply Hsub, list_elem_of_here|]. split; [done|]. by left.
    + rewrite Forall_forall in Hall |- *. intros e He.
      destruct (Hall e He) as ((v & bp & Hbp & Hdp) & (bs0 & h & Hbs0 & Hds) & Hup).
      split; [|split; [|done]].
      * exists v, bp. split; [|done]. apply Hag; [done|]. right.
        exists es, e. split; [apply Hsub, list_elem_of_here|]. split; [done|]. by right.
      * exists bs0, h. split; [|done]. apply Hag; [done|]. left. by rewrite Hds.
  - apply IH. intros es' Hes'. apply Hsub. by apply list_elem_of_further.
Qed.

Lemma world_ok_cons x y w D :
  world_ok w D →
  ∃ a w', lisp_cons x y w = Ok (pair_ptr a) w' ∧
          blocks w !! a = None ∧ (a ∉ D) ∧
          blocks w' = <[a := pair_block x y]> (blocks w) ∧
          world_ok w' ({[a]} ∪ D) ∧ same_roots w w'.
Proof.
  intros (Hok & Hdom & capacity & buckets & Htab & Hapart).
  destruct (lisp_cons_spec x y w Hok) as (a & w' & Hrun & Hfresh & Hblocks & Hok' & Hroots).
  exists a, w'.
  assert (HaD : a ∉ D).
  { intros Ha. apply Hdom in Ha as (? & ? & ? & ? & _). congruence. }
  split; [done|]. split; [done|]. split; [done|]. split; [done|]. split; [|done].
  split; [done|]. split.
  { intros a' Ha'. rewrite Hblocks.
    destruct (decide (a' = a)) as [->|Hne].
    - exists x, y, (pair_block x y). by rewrite lookup_insert_eq.
    - assert (Ha'' : a' ∈ D) by set_solver.
      destruct (Hdom a' Ha'') as (x' & y' & b' & Hb' & Hd'). exists x', y', b'.
      by rewrite lookup_insert_ne. }
  exists capacity, buckets. split.
  - eapply symtab_agree; [done|by destruct Hroots|].
    intros a' b' Hb' _. rewrite Hblocks, lookup_insert_ne; [done|congruence].
  - intros c Hc. apply not_elem_of_union. split; [|by apply Hapart].
    intros Hin. apply elem_of_singleton in Hin as ->.
    destruct Htab as (t & b & size & entries & _ & _ & _ & _ & _ & Hbuckets).
    destruct Hc as (es & e & Hes & He & Hcase).
    apply list_elem_of_lookup in Hes as [i Hi].
    destruct (Forall2_lookup_r _ _ _ _ _ Hbuckets Hi) as (it & _ & Hc & Hall).
    rewrite Forall_forall in Hall. destruct (Hall e He) as ((v & bp & Hbp & _) & _).
    destruct Hcase as [->| ->]; [|congruence].
    apply list_elem_of_lookup in He as [j Hj].
    clear -Hc Hj Hfresh. revert it j Hc Hj.
    induction es as [|e' es IH]; intros it j Hc Hj; [done|].
    cbn in Hc. destruct Hc as (-> & next & (bc & Hbc & _) & Hc).
    destruct j as [|j]; [injection Hj as ->; congruence|]. by eapply IH.
Qed.

Lemma world_ok_set_cdr c x y z w D :
  world_ok w D → c ∈ D → pair_at (blocks w) c x y →
  ∃ w', lisp_set_cdr (pair_ptr c) z w = Ok tt w' ∧
        pair_at (blocks w') c x z ∧
        (∀ a', a' ≠ c → blocks w' !! a' = blocks w !! a') ∧
        world_ok w' D ∧ same_roots w w'.
Proof.
  intros (Hok & Hdom & capacity & buckets & Htab & Hapart) Hc Hp.
  destruct (lisp_set_cdr_spec (pair_ptr c) c x y z w eq_refl Hp)
    as (w' & Hrun & Hp' & Hframe & Hok' & Hroots).
  exists w'. split; [done|]. split; [done|]. split; [done|]. split; [|done].
  split; [auto|]. split.
  { intros a Ha. destruct (decide (a = c)) as [->|Hne]; [by eauto|].
    destruct (Hdom a Ha) as (x' & y' & b' & Hb' & Hd'). exists x', y', b'.
    by rewrite Hframe. }
  exists capacity, buckets. split; [|done].
  eapply symtab_agree; [done|by destruct Hroots|].
  intros a b Hb Hcase. rewrite Hframe; [done|]. intros ->.
  destruct Hcase as [Hnp|Htc]; [|by apply Hapart in Htc].
  destruct Hp as (b' & Hb' & Hd'). rewrite Hb in Hb'. injection Hb' as ->.
  by rewrite Hd' in Hnp.
Qed.

Lemma world_ok_set_car c x y z w D :
  world_ok w D → c ∈ D → pair_at (blocks w) c x y →
  ∃ w', lisp_set_car (pair_ptr c) z w = Ok tt w' ∧
        pair_at (blocks w') c z y ∧
        (∀ a', a' ≠ c → blocks w' !! a' = blocks w !! a') ∧
        world_ok w' D ∧ same_roots w w'.
Proof.
  intros (Hok & Hdom & capacity & buckets & Htab & Hapart) Hc Hp.
  destruct (lisp_set_car_spec (pair_ptr c) c x y z w eq_refl Hp)
    as (w' & Hrun & Hp' & Hframe & Hok' & Hroots).
  exists w'. split; [done|]. split; [done|]. split; [done|]. split; [|done].
  split; [auto|]. split.
  { intros a Ha. destruct (decide (a = c)) as [->|Hne]; [by eauto|].
    destruct (Hdom a Ha) as (x' & y' & b' & Hb' & Hd'). exists x', y', b'.
    by rewrite Hframe. }
  exists capacity, buckets. split; [|done].
  eapply symtab_agree; [done|by destruct Hroots|].
  intros a b Hb Hcase. rewrite Hframe; [done|]. intros ->.
  destruct Hcase as [Hnp|Htc]; [|by apply Hapart in Htc].
  destruct Hp as (b' & Hb' & Hd'). rewrite Hb in Hb'. injection Hb' as ->.
  by rewrite Hd' in Hnp.
Qed.

Lemma world_ok_intern s w D :
  world_ok w D → (String.length s < 2048)%nat →
  ∃ a w',
    returns (fun f => lisp_make_symbol f s) w (symbol_ptr a) w' ∧
    world_ok w' D ∧ same_roots w w' ∧ stable (blocks w) (blocks w') ∧
    symbol_at (blocks w') a (upper s).
Proof.
  intros (Hok & Hdom & capacity & buckets & Htab & Hapart) Hlen.
  assert (Hfits : name_fits s).
  { unfold name_fits, strlen. lia. }
  destruct (lookup_name capacity buckets s) as [e|] eqn:Hlook.
  - exists (binding_symbol e), w.
    destruct (lookup_name_binding_ok _ _ _ _ _ Htab Hlook) as [(_ & Hname & Hupper) Hmatch].
    unfold matches in Hmatch. apply strncasecmp_eq_prefix in Hmatch.
    rewrite Hupper in Hmatch.
    split; [by eapply intern_lookup|].
    split; [split; [done|]; split; [done|]; by exists capacity, buckets|].
    split; [apply same_roots_refl|]. split; [apply stable_refl|].
    replace (upper s) with (binding_name e); [done|].
    eapply prefix_length_lt; [done|]. by rewrite upper_length.
  - destruct (intern_insert s w capacity buckets Hok Htab Hlook Hfits)
      as (a & w' & e & es & Hret & Hok' & Hroots & Hes & Htab' & Hsym & Hname & Hfresh & Hst
          & Hfc & Hfp).
    exists a, w'. split; [done|]. split.
    { split; [done|]. split.
      { intros a' Ha'. destruct (Hdom a' Ha') as (x' & y' & Hp').
        exists x', y'. by eapply pair_at_stable. }
      eexists _, _. split; [exact Htab'|].
      intros x (es' & e' & Hes' & He' & Hcase).
      apply list_elem_of_lookup in Hes' as [i Hi].
      destruct (decide (i = Z.to_nat (hash_string s mod capacity))) as [->|Hne].
      - rewrite list_lookup_insert_eq in Hi by (by eapply lookup_lt_Some).
        injection Hi as <-. apply elem_of_cons in He' as [->|He'].
        + intros Hx. apply Hdom in Hx as (? & ? & ? & ? & _).
          destruct Hcase as [->| ->]; congruence.
        + apply Hapart. exists es, e'. split; [by eapply list_elem_of_lookup_2|]. done.
      - rewrite list_lookup_insert_ne in Hi by done.
        apply Hapart. exists es', e'. split; [by eapply list_elem_of_lookup_2|]. done. }
    split; [done|]. split; [done|].
    destruct (lookup_name_binding_ok w' capacity _ s e Htab') as [(_ & Hn & _) _].
    { unfold lookup_name. rewrite list_lookup_insert_eq by (by eapply lookup_lt_Some).
      cbn. replace (matches s e) with true; [done|].
      symmetry. unfold matches. rewrite Hname.
      apply strncasecmp_eq_prefix. by rewrite upper_idem. }
    by rewrite Hsym, Hname in Hn.
Qed.

(** ** The reader *)

Lemma building_tree m F front back ts :
  building m F front back ts → tree m F front (slist ts).
Proof.
  intros [(-> & -> & -> & _)|(c & _ & Hsp)]; [constructor|by eapply spine_tree].
Qed.

Lemma back_append_spec front back ts F x tx Fx w D :
  world_ok w D → building (blocks w) F front back ts → F ⊆ D →
  tree (blocks w) Fx x tx → Fx ## F →
  ∃ front' back' w' n,
    back_append front back x w = Ok (front', back') w' ∧
    world_ok w' ({[n]} ∪ D) ∧ same_roots w w' ∧
    building (blocks w') (F ∪ ({[n]} ∪ Fx)) front' back' (ts ++ [tx]) ∧
    blocks w !! n = None ∧ (n ∉ D) ∧
    (∀ a b, blocks w !! a = Some b → a ∉ F → blocks w' !! a = Some b).
Proof.
  intros Hw Hb HFD Hx Hdisj.
  destruct (world_ok_cons x lisp_null w D Hw)
    as (n & w1 & Hcons & Hfresh & HnD & Hblocks1 & Hw1 & Hroots1).
  assert (Hsub : blocks w ⊆ blocks w1).
  { rewrite Hblocks1. by apply insert_subseteq. }
  assert (Hn1 : pair_at (blocks w1) n x lisp_null).
  { exists (pair_block x lisp_null). by rewrite Hblocks1, lookup_insert_eq. }
  assert (HnFx : n ∉ Fx).
  { intros Hin. destruct (tree_dom _ _ _ _ _ Hx Hin) as (? & ? & ? & ? & _). congruence. }
  assert (Hx1 : tree (blocks w1) Fx x tx).
  { eapply tree_keeps; [done|]. intros a b Hab _ _. by eapply lookup_weaken. }
  unfold back_append. rewrite (bind_Ok_l _ _ _ _ _ Hcons).
  destruct Hb as [(-> & -> & -> & ->)|(c & -> & Hsp)].
  - rewrite lisp_null_is_null. exists (pair_ptr n), (pair_ptr n), w1, n.
    split; [done|]. split; [done|]. split; [done|]. split.
    { right. exists n. split; [done|]. cbn.
      replace (∅ ∪ ({[n]} ∪ Fx)) with ({[n]} ∪ Fx) by set_solver.
      by eapply spine_last. }
    split; [done|]. split; [done|]. intros a b Hab _. by eapply lookup_weaken.
  - rewrite pair_ptr_not_null.
    assert (HcF := spine_last_in _ _ _ _ _ Hsp).
    destruct (spine_last_pair _ _ _ _ _ Hsp) as (y & Hpc).
    assert (Hpc1 : pair_at (blocks w1) c y lisp_null) by (by eapply pair_at_mono).
    destruct (world_ok_set_cdr c y lisp_null (pair_ptr n) w1 ({[n]} ∪ D) Hw1)
      as (w2 & Hset & Hpc2 & Hframe & Hw2 & Hroots2); [set_solver|done|].
    rewrite (bind_Ok_l _ _ _ _ _ Hset).
    exists front, (pair_ptr n), w2, n.
    split; [done|]. split; [done|].
    split; [by eapply same_roots_trans|]. split.
    { right. exists n. split; [done|].
      assert (HnF : n ∉ F) by set_solver.
      assert (Hnc : n ≠ c) by (by intros ->).
      eapply (spine_snoc (blocks w)); try done.
      - intros a b Hab Hac. rewrite Hframe by done. by eapply lookup_weaken.
      - intros y' z' (b & Hb & Hd). destruct Hpc as (b' & Hb' & Hd').
        rewrite Hb in Hb'. injection Hb' as ->. rewrite Hd in Hd'. by injection Hd' as -> _.
      - destruct Hn1 as (b & Hb & Hd). exists b. by rewrite Hframe.
      - eapply tree_keeps; [exact Hx1|]. intros a b Hab _ [Ha|Hp].
        + rewrite Hframe; [done|]. intros ->. set_solver.
        + rewrite Hframe; [done|]. intros ->.
          destruct Hpc1 as (b' & Hb' & Hd'). rewrite Hab in Hb'. injection Hb' as ->.
          by rewrite Hd' in Hp. }
    split; [done|]. split; [done|]. intros a b Hab HaF.
    rewrite Hframe; [by eapply lookup_weaken|]. by intros ->.
Qed.

Lemma substring_length_le s : ∀ n m, (String.length (substring n m s) ≤ m)%nat.
Proof.
  induction s as [|a s IH]; intros [|n] [|m]; cbn; try lia.
  - specialize (IH 0%nat m). lia.
  - apply (IH n 0%nat).
  - apply (IH n (S m)).
Qed.

Lemma copy_to_scratch_spec lex w :
  0 <= scan_length lex < SCRATCH_MAX → copy_to_scratch lex w = Ok (token_text lex) w.
Proof.
  intros Hlen. unfold copy_to_scratch, lexer_copy_token, assert.
  rewrite (proj2 (Z.leb_gt _ _)) by lia.
  rewrite (proj2 (Z.leb_le _ _)) by lia. done.
Qed.

Lemma parse_atom_spec atof lex t w D :
  read_atom atof lex = Some t → world_ok w D →
  ∃ l w',
    returns (fun f => parse_atom atof f lex) w (l, lexer_next_token lex) w' ∧
    world_ok w' D ∧ same_roots w w' ∧ stable (blocks w) (blocks w') ∧
    tree (blocks w') ∅ l t.
Proof.
  intros Hread Hw. unfold read_atom in Hread.
  destruct (token lex) eqn:Htok; try done.
  - (* symbol *)
    destruct (_ && _) eqn:Hshort in Hread; [|done]. injection Hread as <-.
    apply andb_prop in Hshort as [H0 H1]. apply Z.leb_le in H0. apply Z.ltb_lt in H1.
    destruct (world_ok_intern (token_text lex) w D Hw)
      as (a & w' & [f0 Hret] & Hw' & Hroots & Hst & Hsym).
    { pose proof (substring_length_le (lex_sc lex) 0 (Z.to_nat (scan_length lex))).
      unfold token_text. unfold SCRATCH_MAX in H1. lia. }
    exists (symbol_ptr a), w'. split.
    { exists f0. intros f Hf. unfold parse_atom. rewrite Htok.
      rewrite bind_bind, (bind_Ok_l _ _ _ _ _ (copy_to_scratch_spec lex w (conj H0 H1))).
      by rewrite (bind_Ok_l _ _ _ _ _ (Hret f Hf)). }
    split; [done|]. split; [done|]. split; [done|]. by constructor.
  - (* string *)
    destruct (_ && _) eqn:Hlen in Hread; [|done]. injection Hread as <-.
    apply andb_prop in Hlen as [H0 H1]. apply Z.leb_le in H0. apply Z.ltb_lt in H1.
    destruct Hw as (Hok & Hdom & capacity & buckets & Htab & Hapart).
    pose proof sizeof_LispBlock_small. pose proof sizeof_LispBlock_pos.
    destruct (heap_alloc_spec (scan_length lex - 1) LISP_STRING GC_CLEAR w Hok)
      as (p & w1 & Halloc & Hfresh & Hblocks1 & Hok1 & Hroots1); [lia|lia|].
    set (text := substring 1 (Z.to_nat (scan_length lex - 2)) (lex_sc lex)).
    set (b := mkBlock GC_CLEAR (scan_length lex - 1) LISP_STRING DUninit) in *.
    destruct (write_block_spec p (set_data (DString text) b) w1)
      as (w2 & Hwrite & Hblocks2 & Hok2 & Hroots2).
    { rewrite Hblocks1, lookup_insert_eq. by eexists. }
    rewrite Hblocks1, insert_insert_eq in Hblocks2.
    exists (string_ptr p), w2. split.
    { exists 0%nat. intros f _. unfold parse_atom. rewrite Htok.
      unfold gc_alloc. rewrite u32_small by lia. rewrite ?bind_bind.
      rewrite (bind_Ok_l _ _ _ _ _ Halloc). rewrite ?bind_bind.
      unfold lexer_copy_token, assert. rewrite (proj2 (Z.leb_le _ _)) by lia.
      repeat first [rewrite bind_bind | rewrite bind_ret].
      unfold read_block at 1. unfold bind at 1.
      rewrite Hblocks1, lookup_insert_eq. rewrite ?bind_bind.
      by rewrite (bind_Ok_l _ _ _ _ _ Hwrite). }
    assert (Hroots : same_roots w w2) by (by eapply same_roots_trans).
    split.
    { split; [auto|]. split.
      - intros a Ha. destruct (Hdom a Ha) as (x & y & bx & Hbx & Hdx).
        exists x, y, bx. split; [|done].
        rewrite Hblocks2, lookup_insert_ne; [done|congruence].
      - exists capacity, buckets. split; [|done].
        eapply symtab_agree; [done|by destruct Hroots|].
        intros a ba Hba _. rewrite Hblocks2, lookup_insert_ne; [done|congruence]. }
    split; [done|]. split.
    { rewrite Hblocks2. by apply stable_insert_fresh. }
    constructor. exists (set_data (DString text) b).
    by rewrite Hblocks2, lookup_insert_eq.
  - (* int *)
    destruct (_ && _) eqn:Hc in Hread; [|done]. injection Hread as <-.
    apply andb_prop in Hc as [Hc H3]. apply andb_prop in Hc as [Hc H2].
    apply andb_prop in Hc as [H0 H1]. apply Z.leb_le in H0. apply Z.ltb_lt in H1.
    exists (lisp_make_int (atoi_value (token_text lex))), w. split.
    { exists 0%nat. intros f _. unfold parse_atom. rewrite Htok.
      rewrite ?bind_bind, (bind_Ok_l _ _ _ _ _ (copy_to_scratch_spec lex w (conj H0 H1))).
      unfold atoi. by rewrite H2, H3. }
    split; [done|]. split; [apply same_roots_refl|]. split; [apply stable_refl|].
    constructor.
  - (* float *)
    destruct (_ && _) eqn:Hc in Hread; [|done]. injection Hread as <-.
    apply andb_prop in Hc as [H0 H1]. apply Z.leb_le in H0. apply Z.ltb_lt in H1.
    exists (lisp_make_float (atof (token_text lex))), w. split.
    { exists 0%nat. intros f _. unfold parse_atom. rewrite Htok.
      by rewrite ?bind_bind, (bind_Ok_l _ _ _ _ _ (copy_to_scratch_spec lex w (conj H0 H1))). }
    split; [done|]. split; [apply same_roots_refl|]. split; [apply stable_refl|].
    constructor.
Qed.

Lemma keeps_trans F m1 m2 m3 : keeps F m1 m2 → keeps F m2 m3 → keeps F m1 m3.
Proof. intros H1 H2 a b Hb Ht Hc. apply H2; [|done|done]. by apply H1. Qed.

Lemma keeps_insert_fresh F m a b : m !! a = None → keeps F m (<[a := b]> m).
Proof. intros. by apply stable_keeps, stable_insert_fresh. Qed.

Lemma spine_keeps m m' F l ts c : spine m F l ts c → keeps F m m' → spine m' F l ts c.
Proof.
  induction 1; intros Hk.
  - eapply spine_last; [|eapply tree_keeps; [done|]|done].
    + eapply pair_at_keeps; [done| |done]. set_solver.
    + eapply keeps_subseteq; [|done]. set_solver.
  - eapply spine_cons; try done.
    + eapply pair_at_keeps; [done| |done]. set_solver.
    + eapply tree_keeps; [done|]. eapply keeps_subseteq; [|done]. set_solver.
    + apply IHspine. eapply keeps_subseteq; [|done]. set_solver.
Qed.

Lemma building_keeps m m' F front back ts :
  building m F front back ts → keeps F m m' → building m' F front back ts.
Proof.
  intros [?|(c & ? & Hsp)] Hk; [by left|]. right. exists c. split; [done|].
  by eapply spine_keeps.
Qed.

Section Items.
Variable read : Lexer → option (sexp * Lexer).
Variable parse : nat → Lexer → M (Lisp * Lexer).
Hypothesis parse_ok : ∀ lex t lex' w D,
  read lex = Some (t, lex') → world_ok w D →
  ∃ l w' F,
    returns (fun f => parse f lex) w (l, lex') w' ∧
    world_ok w' (F ∪ D) ∧ same_roots w w' ∧ keeps D (blocks w) (blocks w') ∧
    tree (blocks w') F l t ∧ F ## D.

Lemma parse_items_spec n : ∀ lex ts2 lex' w D F front back ts1,
  read_items read n lex = Some (ts2, lex') →
  world_ok w D → F ⊆ D → building (blocks w) F front back ts1 →
  ∃ front' back' w' F',
    (∃ f0, ∀ f g, (f0 ≤ f)%nat → (f0 ≤ g)%nat →
           parse_items (parse g) f lex front back w = Ok (front', lex') w') ∧
    world_ok w' (F' ∪ D) ∧ same_roots w w' ∧
    building (blocks w') F' front' back' (ts1 ++ ts2) ∧
    F ⊆ F' ∧ (∀ a, a ∈ F' → a ∈ F ∨ a ∉ D) ∧
    keeps (D ∖ F) (blocks w) (blocks w').
Proof.
  assert (Hstop : ∀ lex ts2 lex' w D F front back ts1,
    token lex = TOKEN_R_PAREN → Some ([], lex) = Some (ts2, lex') →
    world_ok w D → F ⊆ D → building (blocks w) F front back ts1 →
    ∃ front' back' w' F',
      (∃ f0, ∀ f g, (f0 ≤ f)%nat → (f0 ≤ g)%nat →
             parse_items (parse g) f lex front back w = Ok (front', lex') w') ∧
      world_ok w' (F' ∪ D) ∧ same_roots w w' ∧
      building (blocks w') F' front' back' (ts1 ++ ts2) ∧
      F ⊆ F' ∧ (∀ a, a ∈ F' → a ∈ F ∨ a ∉ D) ∧
      keeps (D ∖ F) (blocks w) (blocks w')).
  { intros lex ts2 lex' w D F front back ts1 Htok [= <- <-] Hw HFD Hb.
    exists front, back, w, F. split.
    { exists 0%nat. intros f g _ _. destruct f; cbn; by rewrite bool_decide_eq_true_2. }
    replace (F ∪ D) with D by set_solver. rewrite app_nil_r.
    split; [done|]. split; [apply same_roots_refl|]. split; [done|].
    split; [done|]. split; [auto|apply keeps_refl]. }
  induction n as [|n IH]; intros lex ts2 lex' w D F front back ts1 Hread Hw HFD Hb;
    cbn in Hread; case_bool_decide as Htok; try done; try by eapply Hstop.
  destruct (read lex) as [[x lex1]|] eqn:Hx; [|done].
  destruct (read_items read n lex1) as [[xs lex2]|] eqn:Hxs; [|done].
  injection Hread as <- <-.
  destruct (parse_ok lex x lex1 w D Hx Hw)
    as (l & w1 & Fx & [f1 Hret1] & Hw1 & Hroots1 & Hk1 & Hl & HFx).
  assert (Hb1 : building (blocks w1) F front back ts1).
  { eapply building_keeps; [done|]. by eapply keeps_subseteq. }
  destruct (back_append_spec front back ts1 F l x Fx w1 (Fx ∪ D) Hw1 Hb1)
    as (front2 & back2 & w2 & c & Happ & Hw2 & Hroots2 & Hb2 & Hfresh & HcD & Hframe2);
    [set_solver|done|set_solver|].
  destruct (IH lex1 xs lex2 w2 ({[c]} ∪ (Fx ∪ D)) (F ∪ ({[c]} ∪ Fx)) front2 back2
              (ts1 ++ [x]) Hxs Hw2)
    as (front' & back' & w' & F' & [f2 Hret2] & Hw' & Hroots' & Hb' & Hsub & Hnew & Hk');
    [set_solver|done|].
  exists front', back', w', F'. split.
  { exists (S (Nat.max f1 f2)). intros f g Hf Hg.
    destruct f as [|f]; [lia|]. cbn. rewrite bool_decide_eq_false_2 by done.
    rewrite (bind_Ok_l _ _ _ _ _ (Hret1 g ltac:(lia))). cbn beta iota.
    rewrite (bind_Ok_l _ _ _ _ _ Happ). cbn beta iota.
    apply Hret2; lia. }
  split.
  { replace (F' ∪ D) with (F' ∪ ({[c]} ∪ (Fx ∪ D))); [done|]. set_solver. }
  split; [by repeat (eapply same_roots_trans; [eassumption|])|].
  split; [by rewrite <- app_assoc in Hb'|].
  split; [set_solver|]. split.
  { intros a Ha. destruct (Hnew a Ha) as [Hin|Hout]; [|set_solver].
    destruct (decide (a ∈ F)); [by left|right]. set_solver. }
  intros a b Hab Ht Hcase.
  assert (Hab1 : blocks w1 !! a = Some b).
  { apply Hk1; [done|done|]. destruct Hcase as [Ha|Hp]; [left; set_solver|by right]. }
  assert (Hac : a ≠ c) by congruence.
  apply Hk'; [|done|].
  - destruct Hcase as [Ha|Hp]; [apply Hframe2; [done|set_solver]|].
    apply Hframe2; [done|]. intros HaF.
    destruct Hw as (_ & Hdom & _). destruct (Hdom a ltac:(set_solver)) as (? & ? & b' & Hb'' & Hd').
    rewrite Hab in Hb''. injection Hb'' as ->. by rewrite Hd' in Hp.
  - destruct Hcase as [Ha|Hp]; [left|by right]. set_solver.
Qed.

End Items.

Lemma world_ok_proper w D D' : D = D' → world_ok w D → world_ok w D'.
Proof. by intros ->. Qed.

Lemma parse_list_r_spec atof n : ∀ lex t lex' w D,
  read_form atof n lex = Some (t, lex') → world_ok w D →
  ∃ l w' F,
    returns (fun f => parse_list_r atof f lex) w (l, lex') w' ∧
    world_ok w' (F ∪ D) ∧ same_roots w w' ∧ keeps D (blocks w) (blocks w') ∧
    tree (blocks w') F l t ∧ F ## D.
Proof.
  induction n as [|n IH]; intros lex t lex' w D Hread Hw; [done|].
  assert (Hatom : (∃ x, read_atom atof lex = Some x ∧ t = x ∧ lex' = lexer_next_token lex) →
    (∀ f, parse_list_r atof (S f) lex = parse_atom atof f lex) →
    ∃ l w' F,
      returns (fun f => parse_list_r atof f lex) w (l, lex') w' ∧
      world_ok w' (F ∪ D) ∧ same_roots w w' ∧ keeps D (blocks w) (blocks w') ∧
      tree (blocks w') F l t ∧ F ## D).
  { intros (x & Hx & -> & ->) Heq.
    destruct (parse_atom_spec atof lex x w D Hx Hw)
      as (l & w' & [f0 Hret] & Hw' & Hroots & Hst & Hl).
    exists l, w', ∅. split.
    { exists (S f0). intros f Hf. destruct f as [|f]; [lia|]. rewrite Heq. apply Hret. lia. }
    split; [eapply world_ok_proper; [|done]; set_solver|].
    split; [done|]. split; [by apply stable_keeps|]. split; [done|set_solver]. }
  cbn in Hread. destruct (token lex) eqn:Htok; try done.
  - (* a list *)
    destruct (read_items _ n _) as [[xs lex1]|] eqn:Hxs; [|done]. injection Hread as <- <-.
    destruct (parse_items_spec (read_form atof n) (parse_list_r atof) IH n
                (lexer_next_token lex) xs lex1 w D ∅ lisp_null lisp_null [] Hxs Hw)
      as (front & back & w' & F & [f0 Hret] & Hw' & Hroots & Hb & _ & Hnew & Hk).
    { set_solver. }
    { by left. }
    exists front, w', F. split.
    { exists (S f0). intros f Hf. destruct f as [|f]; [lia|]. cbn. rewrite Htok.
      by rewrite (bind_Ok_l _ _ _ _ _ (Hret f f ltac:(lia) ltac:(lia))). }
    split; [done|]. split; [done|]. split.
    { eapply keeps_subseteq; [|done]. set_solver. }
    split; [by eapply building_tree|].
    intros a Ha HaD. destruct (Hnew a Ha); set_solver.
  - (* a quoted item *)
    destruct (read_form atof n _) as [[x lex1]|] eqn:Hx; [|done]. injection Hread as <- <-.
    destruct (IH _ _ _ w D Hx Hw) as (l & w1 & Fx & [f1 Hret1] & Hw1 & Hroots1 & Hk1 & Hl & HFx).
    destruct (world_ok_cons l lisp_null w1 _ Hw1)
      as (c & w2 & Hcons2 & Hfresh2 & Hc2 & Hblocks2 & Hw2 & Hroots2).
    destruct (world_ok_intern "QUOTE" w2 _ Hw2)
      as (q & w3 & [f3 Hret3] & Hw3 & Hroots3 & Hst3 & Hq); [cbn; lia|].
    destruct (world_ok_cons (symbol_ptr q) (pair_ptr c) w3 _ Hw3)
      as (r & w4 & Hcons4 & Hfresh4 & Hr4 & Hblocks4 & Hw4 & Hroots4).
    exists (pair_ptr r), w4, ({[r]} ∪ ∅ ∪ ({[c]} ∪ Fx ∪ ∅)). split.
    { exists (S (Nat.max f1 f3)). intros f Hf. destruct f as [|f]; [lia|]. cbn. rewrite Htok.
      rewrite (bind_Ok_l _ _ _ _ _ (Hret1 f ltac:(lia))). cbn beta iota.
      rewrite (bind_Ok_l _ _ _ _ _ Hcons2).
      rewrite (bind_Ok_l _ _ _ _ _ (Hret3 f ltac:(lia))).
      by rewrite (bind_Ok_l _ _ _ _ _ Hcons4). }
    assert (Hk12 : keeps (Fx ∪ D) (blocks w1) (blocks w2)).
    { rewrite Hblocks2. by apply keeps_insert_fresh. }
    assert (Hk23 : keeps ({[c]} ∪ (Fx ∪ D)) (blocks w2) (blocks w3)) by (by apply stable_keeps).
    assert (Hk34 : keeps ({[c]} ∪ (Fx ∪ D)) (blocks w3) (blocks w4)).
    { rewrite Hblocks4. by apply keeps_insert_fresh. }
    split; [eapply world_ok_proper; [|done]; set_solver|].
    split; [by repeat (eapply same_roots_trans; [eassumption|])|].
    split.
    { eapply keeps_trans; [done|].
      eapply keeps_trans; [eapply keeps_subseteq; [|exact Hk12]; set_solver|].
      eapply keeps_trans; [eapply keeps_subseteq; [|exact Hk23]; set_solver|].
      eapply keeps_subseteq; [|exact Hk34]. set_solver. }
    split; [|set_solver].
    assert (Hc4 : pair_at (blocks w4) c l lisp_null).
    { eapply (pair_at_keeps _ (blocks w3)); [done|set_solver|].
      eapply (pair_at_keeps _ (blocks w2)); [done|set_solver|].
      exists (pair_block l lisp_null). by rewrite Hblocks2, lookup_insert_eq. }
    assert (Hl4 : tree (blocks w4) Fx l x).
    { eapply tree_keeps; [|eapply keeps_subseteq; [|exact Hk34]; set_solver].
      eapply tree_keeps; [|eapply keeps_subseteq; [|exact Hk23]; set_solver].
      eapply tree_keeps; [done|eapply keeps_subseteq; [|exact Hk12]; set_solver]. }
    cbn. econstructor.
    + exists (pair_block (symbol_ptr q) (pair_ptr c)). by rewrite Hblocks4, lookup_insert_eq.
    + constructor. eapply symbol_at_keeps; [exact Hk34|]. exact Hq.
    + econstructor; [exact Hc4|exact Hl4|constructor|set_solver|set_solver|set_solver].
    + set_solver.
    + set_solver.
    + set_solver.
  - apply Hatom; [|intros f; cbn [parse_list_r]; by rewrite Htok]. destruct (read_atom atof lex); [|done]. injection Hread as <- <-. eauto.
  - apply Hatom; [|intros f; cbn [parse_list_r]; by rewrite Htok]. destruct (read_atom atof lex); [|done]. injection Hread as <- <-. eauto.
  - apply Hatom; [|intros f; cbn [parse_list_r]; by rewrite Htok]. destruct (read_atom atof lex); [|done]. injection Hread as <- <-. eauto.
  - apply Hatom; [|intros f; cbn [parse_list_r]; by rewrite Htok]. destruct (read_atom atof lex); [|done]. injection Hread as <- <-. eauto.
Qed.


Lemma parse_more_spec atof n : ∀ lex ts2 w D F front back ts1,
  read_forms atof n lex = Some ts2 →
  world_ok w D → F ⊆ D → building (blocks w) F front back ts1 →
  ∃ front' lex' w' F' D',
    returns (fun f => parse_more atof f lex front back) w (front', lex') w' ∧
    world_ok w' D' ∧ same_roots w w' ∧ F' ⊆ D' ∧
    tree (blocks w') F' front' (slist (ts1 ++ ts2)).
Proof.
  assert (Hstop : ∀ lex ts2 w D F front back ts1,
    token lex = TOKEN_NONE → Some [] = Some ts2 →
    world_ok w D → F ⊆ D → building (blocks w) F front back ts1 →
    ∃ front' lex' w' F' D',
      returns (fun f => parse_more atof f lex front back) w (front', lex') w' ∧
      world_ok w' D' ∧ same_roots w w' ∧ F' ⊆ D' ∧
      tree (blocks w') F' front' (slist (ts1 ++ ts2))).
  { intros lex ts2 w D F front back ts1 Htok [= <-] Hw HFD Hb.
    exists front, lex, w, F, D. split.
    { exists 0%nat. intros f _. destruct f; cbn; by rewrite bool_decide_eq_true_2. }
    rewrite app_nil_r. split; [done|].
    split; [apply same_roots_refl|]. split; [done|]. by eapply building_tree. }
  induction n as [|n IH]; intros lex ts2 w D F front back ts1 Hread Hw HFD Hb;
    cbn in Hread; case_bool_decide as Htok; try done; try by eapply Hstop.
  destruct (read_form atof n lex) as [[x lex1]|] eqn:Hx; [|done].
  destruct (read_forms atof n lex1) as [xs|] eqn:Hxs; [|done].
  injection Hread as <-.
  destruct (parse_list_r_spec atof n lex x lex1 w D Hx Hw)
    as (l & w1 & Fx & [f1 Hret1] & Hw1 & Hroots1 & Hk1 & Hl & HFx).
  assert (Hb1 : building (blocks w1) F front back ts1).
  { eapply building_keeps; [done|]. by eapply keeps_subseteq. }
  destruct (back_append_spec front back ts1 F l x Fx w1 (Fx ∪ D) Hw1 Hb1)
    as (front2 & back2 & w2 & c & Happ & Hw2 & Hroots2 & Hb2 & Hfresh & HcD & Hframe2);
    [set_solver|done|set_solver|].
  destruct (IH lex1 xs w2 ({[c]} ∪ (Fx ∪ D)) (F ∪ ({[c]} ∪ Fx)) front2 back2
              (ts1 ++ [x]) Hxs Hw2)
    as (front' & lex' & w' & F' & D' & [f2 Hret2] & Hw' & Hroots' & HFD' & Ht');
    [set_solver|done|].
  exists front', lex', w', F', D'.
  split.
  { exists (S (Nat.max f1 f2)). intros f Hf.
    destruct f as [|f]; [lia|]. cbn. rewrite bool_decide_eq_false_2 by done.
    rewrite (bind_Ok_l _ _ _ _ _ (Hret1 f ltac:(lia))). cbn beta iota.
    rewrite (bind_Ok_l _ _ _ _ _ Happ). cbn beta iota.
    apply Hret2; lia. }
  split; [done|].
  split; [by repeat (eapply same_roots_trans; [eassumption|])|].
  split; [done|]. by rewrite <- app_assoc in Ht'.
Qed.

Lemma read_forms_nil atof n lex : read_forms atof n lex = Some [] → token lex = TOKEN_NONE.
Proof.
  destruct n; cbn; case_bool_decide; try done.
  destruct (read_form atof n lex) as [[x lex1]|]; [|done].
  by destruct (read_forms atof n lex1).
Qed.

Lemma read_forms_cons atof n lex x xs :
  read_forms atof n lex = Some (x :: xs) → token lex ≠ TOKEN_NONE.
Proof. destruct n; cbn; by case_bool_decide. Qed.

Lemma parse_body_spec atof n lex forms w D :
  read_forms atof n (lexer_next_token lex) = Some forms → forms ≠ [] → world_ok w D →
  ∃ l w' F D',
    returns (fun f => parse_body atof f lex) w l w' ∧
    world_ok w' D' ∧ same_roots w w' ∧ F ⊆ D' ∧
    tree (blocks w') F l (wrap_forms forms).
Proof.
  intros Hread Hne Hw. destruct n as [|n]; cbn in Hread; case_bool_decide as Htok; try done;
    try (by injection Hread as <-).
  destruct (read_form atof n _) as [[x lex1]|] eqn:Hx; [|done].
  destruct (read_forms atof n lex1) as [xs|] eqn:Hxs; [|done].
  injection Hread as <-.
  destruct (parse_list_r_spec atof n _ x lex1 w D Hx Hw)
    as (l & w1 & Fx & [f1 Hret1] & Hw1 & Hroots1 & Hk1 & Hl & HFx).
  destruct xs as [|x' xs].
  - (* a single form *)
    apply read_forms_nil in Hxs.
    exists l, w1, Fx, (Fx ∪ D). split.
    { exists f1. intros f Hf. unfold parse_body.
      rewrite (bind_Ok_l _ _ _ _ _ (Hret1 f Hf)). cbn beta iota.
      by rewrite bool_decide_eq_true_2. }
    split; [done|]. split; [done|]. split; [set_solver|done].
  - (* several forms *)
    pose proof (read_forms_cons _ _ _ _ _ Hxs) as Htok1.
    destruct (world_ok_cons l lisp_null w1 _ Hw1)
      as (c & w2 & Hcons2 & Hfresh2 & Hc2 & Hblocks2 & Hw2 & Hroots2).
    destruct (world_ok_intern "BEGIN" w2 _ Hw2)
      as (q & w3 & [f3 Hret3] & Hw3 & Hroots3 & Hst3 & Hq); [cbn; lia|].
    destruct (world_ok_cons (symbol_ptr q) (pair_ptr c) w3 _ Hw3)
      as (r & w4 & Hcons4 & Hfresh4 & Hr4 & Hblocks4 & Hw4 & Hroots4).
    assert (Hk12 : keeps (Fx ∪ D) (blocks w1) (blocks w2)).
    { rewrite Hblocks2. by apply keeps_insert_fresh. }
    assert (Hk23 : keeps ({[c]} ∪ (Fx ∪ D)) (blocks w2) (blocks w3)) by (by apply stable_keeps).
    assert (Hk34 : keeps ({[c]} ∪ (Fx ∪ D)) (blocks w3) (blocks w4)).
    { rewrite Hblocks4. by apply keeps_insert_fresh. }
    assert (Hc4 : pair_at (blocks w4) c l lisp_null).
    { eapply (pair_at_keeps _ (blocks w3)); [done|set_solver|].
      eapply (pair_at_keeps _ (blocks w2)); [done|set_solver|].
      exists (pair_block l lisp_null). by rewrite Hblocks2, lookup_insert_eq. }
    assert (Hl4 : tree (blocks w4) Fx l x).
    { eapply tree_keeps; [|eapply keeps_subseteq; [|exact Hk34]; set_solver].
      eapply tree_keeps; [|eapply keeps_subseteq; [|exact Hk23]; set_solver].
      eapply tree_keeps; [done|eapply keeps_subseteq; [|exact Hk12]; set_solver]. }
    assert (Hb4 : building (blocks w4) ({[r]} ∪ ∅ ∪ ({[c]} ∪ Fx)) (pair_ptr r) (pair_ptr c)
                    ([Sym "BEGIN"] ++ [x])).
    { right. exists c. split; [done|]. cbn. eapply spine_cons.
      - exists (pair_block (symbol_ptr q) (pair_ptr c)). by rewrite Hblocks4, lookup_insert_eq.
      - constructor. eapply symbol_at_keeps; [exact Hk34|]. exact Hq.
      - eapply spine_last; [exact Hc4|exact Hl4|set_solver].
      - set_solver.
      - set_solver.
      - set_solver. }
    destruct (parse_more_spec atof n lex1 (x' :: xs) w4 ({[r]} ∪ ({[c]} ∪ (Fx ∪ D)))
                ({[r]} ∪ ∅ ∪ ({[c]} ∪ Fx)) (pair_ptr r) (pair_ptr c) ([Sym "BEGIN"] ++ [x])
                Hxs Hw4)
      as (front' & lex' & w' & F' & D' & [f2 Hret2] & Hw' & Hroots' & HFD' & Ht');
      [set_solver|exact Hb4|].
    exists front', w', F', D'. split.
    { exists (Nat.max f1 (Nat.max f2 f3)). intros f Hf. unfold parse_body.
      rewrite (bind_Ok_l _ _ _ _ _ (Hret1 f ltac:(lia))). cbn beta iota.
      rewrite bool_decide_eq_false_2 by done. cbn [negb].
      rewrite (bind_Ok_l _ _ _ _ _ Hcons2).
      rewrite (bind_Ok_l _ _ _ _ _ (Hret3 f ltac:(lia))).
      rewrite (bind_Ok_l _ _ _ _ _ Hcons4).
      by rewrite (bind_Ok_l _ _ _ _ _ (Hret2 f ltac:(lia))). }
    split; [done|].
    split; [by repeat (eapply same_roots_trans; [eassumption|])|].
    split; [done|]. exact Ht'.
Qed.

Lemma tree_view w F l t :
  tree (blocks w) F l t → ∃ d, ∀ k, (d ≤ k)%nat → view k w l = t.
Proof.
  induction 1 as [| | |a name (b & h & Hb & Hd)|a s (b & Hb & Hd)
                  |a x y tx ty Fx Fy (b & Hb & Hd) _ [d1 IH1] _ [d2 IH2] _ _ _].
  - exists 1%nat. intros [|k] ?; [lia|done].
  - exists 1%nat. intros [|k] ?; [lia|done].
  - exists 1%nat. intros [|k] ?; [lia|done].
  - exists 1%nat. intros [|k] ?; [lia|]. cbn. by rewrite Hb; cbn; rewrite Hd.
  - exists 1%nat. intros [|k] ?; [lia|]. cbn. by rewrite Hb; cbn; rewrite Hd.
  - exists (S (Nat.max d1 d2)). intros [|k] ?; [lia|]. cbn. rewrite Hb. cbn. rewrite Hd.
    rewrite IH1, IH2 by lia. done.
Qed.

(** C7.  Whenever the reference reader of section 4.6 finds the top-level
    forms [forms] (at least one) in the token stream of [program],
    [lisp_read], given enough fuel, returns without error a value that
    stands in memory for the single form itself when there is one, and
    for the list [(BEGIN form1 form2 ...)] of the parsed forms in source
    order when there are several.  The reference reader reads the tokens
    that [parse_atom] can hold: tokens shorter than the 1024 bytes of
    [scratch], integers within the range of [int] and strings shorter
    than 2^30 bytes. *)
Theorem read_wraps_forms atof program n forms w :
  heap_ok w → symtab_ok w →
  read_forms atof n (lexer_next_token (lexer_init program)) = Some forms → forms ≠ [] →
  ∃ l w',
    returns (fun f => lisp_read atof f program) w (l, LISP_ERROR_NONE) w' ∧
    (∃ F, tree (blocks w') F l (wrap_forms forms)) ∧
    (∃ d, ∀ k, (d ≤ k)%nat → view k w' l = wrap_forms forms) ∧
    heap_ok w' ∧ symtab_ok w'.
Proof.
  intros Hok (capacity & buckets & Htab) Hread Hne.
  assert (Hw : world_ok w ∅).
  { split; [done|]. split; [set_solver|]. exists capacity, buckets. split; [done|set_solver]. }
  destruct (parse_body_spec atof n _ forms w ∅ Hread Hne Hw)
    as (l & w' & F & D' & [f0 Hret] & Hw' & _ & _ & Ht).
  exists l, w'. split.
  { exists f0. intros f Hf. unfold lisp_read, parse, catch. by rewrite (Hret f Hf). }
  split; [by exists F|]. split; [by eapply tree_view|].
  destruct Hw' as (Hok' & _ & capacity' & buckets' & Htab' & _).
  split; [done|]. by exists capacity', buckets'.
Qed.

(** * Further properties of the code *)

(** ** Proper lists *)

Lemma chain_app m l c1 c2 tl :
  chain m l (c1 ++ c2) tl ↔ ∃ mid, chain m l c1 mid ∧ chain m mid c2 tl.
Proof.
  revert l. induction c1 as [|[a x] c1 IH]; intros l; cbn.
  - split; [intros H; by exists l|by intros (mid & -> & H)].
  - split.
    + intros (-> & next & Hp & Hc). apply IH in Hc as (mid & H1 & H2).
      exists mid. split; [|done]. split; [done|]. by exists next.
    + intros (mid & (-> & next & Hp & H1) & H2). split; [done|].
      exists next. split; [done|]. apply IH. by exists mid.
Qed.

Lemma chain_inj m l c1 c2 tl :
  lisp_type tl ≠ LISP_PAIR → chain m l c1 tl → chain m l c2 tl → c1 = c2.
Proof.
  intros Htl. revert l c2. induction c1 as [|[a x] c1 IH]; intros l [|[a' x'] c2]; cbn.
  - done.
  - intros -> (-> & _). done.
  - intros (-> & _) <-. done.
  - intros (-> & next & (b & Hb & Hd) & H1) ([= <-] & next' & (b' & Hb' & Hd') & H2).
    rewrite Hb in Hb'. injection Hb' as <-. rewrite Hd in Hd'. injection Hd' as <- <-.
    f_equal. by eapply IH.
Qed.

Lemma chain_NoDup m l cells tl :
  lisp_type tl ≠ LISP_PAIR → chain m l cells tl → NoDup cells.*1.
Proof.
  intros Htl. revert l. induction cells as [|[a x] cells IH]; intros l Hc; cbn.
  - constructor.
  - pose proof Hc as Hc0. cbn in Hc. destruct Hc as (-> & next & Hp & Hc).
    constructor; [|by eapply IH].
    intros Hin. apply list_elem_of_fmap in Hin as ([a' x'] & Ha & Hin). cbn in Ha. subst a'.
    apply list_elem_of_split in Hin as (c1 & c2 & ->).
    apply chain_app in Hc as (mid & _ & Hmid).
    pose proof Hmid as Hmid0. cbn in Hmid. destruct Hmid as (-> & _).
    pose proof (chain_inj _ _ _ _ _ Htl Hc0 Hmid0) as Heq.
    apply (f_equal length) in Heq. cbn in Heq. rewrite length_app in Heq. cbn in Heq. lia.
Qed.

Lemma lisp_length_loop_chain w cells : ∀ l f n,
  chain (blocks w) l cells lisp_null → (length cells ≤ f)%nat →
  lisp_length_loop f l n w = Ok (n + Z.of_nat (length cells)) w.
Proof.
  induction cells as [|[a x] cells IH]; intros l f n Hc Hf; cbn in Hc.
  - subst. destruct f; cbn; rewrite ?lisp_null_is_null; by rewrite Z.add_0_r.
  - destruct Hc as (-> & next & Hp & Hc). destruct f as [|f]; [cbn in Hf; lia|].
    cbn [lisp_length_loop]. rewrite pair_ptr_not_null.
    rewrite (bind_Ok_l _ _ _ _ _ (lisp_cdr_spec (pair_ptr a) a _ _ w eq_refl Hp)).
    rewrite (IH next f (n + 1) Hc) by (cbn in Hf; lia).
    f_equal. cbn [length]. lia.
Qed.

Lemma lisp_length_chain w cells l f :
  chain (blocks w) l cells lisp_null → (length cells ≤ f)%nat →
  lisp_length f l w = Ok (Z.of_nat (length cells)) w.
Proof. intros. unfold lisp_length. by rewrite (lisp_length_loop_chain w cells). Qed.

(** X1.  [lisp_length] of a proper list is the number of its cells, and it
    reads the list without changing anything. *)
Theorem lisp_length_counts_cells (fuel : nat) (l : Lisp) (cells : list (Z * Lisp)) (w : World) :
  chain (blocks w) l cells lisp_null → (length cells ≤ fuel)%nat →
  lisp_length fuel l w = Ok (Z.of_nat (length cells)) w.
Proof. apply lisp_length_chain. Qed.

Lemma lisp_at_index_loop_past w cells : ∀ l tl i,
  chain (blocks w) l cells tl → lisp_type tl ≠ LISP_PAIR → (length cells < i)%nat →
  lisp_at_index_loop i l w = Ok lisp_null w.
Proof.
  induction cells as [|[a x] cells IH]; intros l tl i Hc Htl Hi; cbn in Hc.
  - subst. destruct i as [|i]; [cbn in Hi; lia|]. cbn.
    by rewrite bool_decide_eq_false_2.
  - destruct Hc as (-> & next & Hp & Hc). destruct i as [|i]; [cbn in Hi; lia|].
    cbn [lisp_at_index_loop]. rewrite bool_decide_eq_true_2 by done.
    rewrite (bind_Ok_l _ _ _ _ _ (lisp_cdr_spec (pair_ptr a) a _ _ w eq_refl Hp)).
    eapply IH; [done|done|cbn in Hi; lia].
Qed.

(** X2.  [lisp_at_index] returns the element at an index inside the list, the
    first element for an index that is not positive, and null for an
    index beyond the end of the list. *)
Theorem lisp_at_index_bounds (l tl : Lisp) (cells : list (Z * Lisp)) (w : World) :
  chain (blocks w) l cells tl → lisp_type tl ≠ LISP_PAIR →
  (∀ i a x, cells !! i = Some (a, x) → lisp_at_index l (Z.of_nat i) w = Ok x w) ∧
  (∀ i a x, i <= 0 → cells !! 0%nat = Some (a, x) → lisp_at_index l i w = Ok x w) ∧
  (∀ i, Z.of_nat (length cells) < i → lisp_at_index l i w = Ok lisp_null w).
Proof.
  intros Hc Htl. split; [|split].
  - intros i a x Hi. by eapply lisp_at_index_chain.
  - intros i a x Hi H0. unfold lisp_at_index.
    replace (Z.to_nat i) with 0%nat by lia. by eapply lisp_at_index_loop_chain.
  - intros i Hi. unfold lisp_at_index. eapply lisp_at_index_loop_past; [done|done|lia].
Qed.


Lemma chain_frame m m' l cells tl :
  (∀ a, a ∈ cells.*1 → m' !! a = m !! a) → chain m l cells tl → chain m' l cells tl.
Proof.
  intros H. apply chain_agree. intros a b Ha Hb. by rewrite H.
Qed.

Lemma reverse_loop_spec (tl p0 : Lisp) : ∀ cells l p done w fuel,
  chain (blocks w) l cells tl → lisp_type tl ≠ LISP_PAIR →
  chain (blocks w) p done p0 →
  (∀ a, a ∈ cells.*1 → a ∉ done.*1) →
  (length cells ≤ fuel)%nat →
  ∃ r w',
    lisp_reverse_inplace_loop fuel l p w = Ok r w' ∧
    chain (blocks w') r (rev cells ++ done) p0 ∧
    (∀ a, a ∉ cells.*1 → blocks w' !! a = blocks w !! a) ∧
    (∀ a, is_Some (blocks w' !! a) ↔ is_Some (blocks w !! a)) ∧
    (heap_ok w → heap_ok w') ∧ same_roots w w'.
Proof.
  induction cells as [|[a x] cells IH]; intros l p done w fuel Hc Htl Hp Hdisj Hf.
  - cbn in Hc. subst l. exists p, w. split.
    { destruct fuel; cbn; by rewrite bool_decide_eq_false_2. }
    split; [done|]. split; [done|]. split; [done|]. split; [done|apply same_roots_refl].
  - pose proof (chain_NoDup _ _ _ _ Htl Hc) as Hnd. cbn in Hnd.
    apply NoDup_cons in Hnd as [Ha Hnd].
    cbn in Hc. destruct Hc as (-> & next & Hpa & Hc).
    destruct fuel as [|fuel]; [cbn in Hf; lia|].
    destruct (lisp_set_cdr_spec (pair_ptr a) a x next p w eq_refl Hpa)
      as (w1 & Hset & Hpa1 & Hframe1 & Hok1 & Hroots1).
    assert (Hc1 : chain (blocks w1) next cells tl).
    { eapply chain_frame; [|done]. intros a' Ha'. apply Hframe1. by intros ->. }
    assert (Hp1 : chain (blocks w1) (pair_ptr a) ((a, x) :: done) p0).
    { cbn. split; [done|]. exists p. split; [done|].
      eapply chain_frame; [|done]. intros a' Ha'. apply Hframe1. intros ->.
      eapply Hdisj; [|done]. cbn. apply list_elem_of_here. }
    destruct (IH next (pair_ptr a) ((a, x) :: done) w1 fuel Hc1 Htl Hp1)
      as (r & w' & Hrun & Hr & Hframe & Hdom & Hok & Hroots).
    { intros a' Ha' Hin. cbn in Hin. apply elem_of_cons in Hin as [->|Hin]; [done|].
      eapply Hdisj; [|done]. cbn. by apply list_elem_of_further. }
    { cbn in Hf. lia. }
    exists r, w'. split.
    { cbn [lisp_reverse_inplace_loop]. rewrite bool_decide_eq_true_2 by done.
      rewrite (bind_Ok_l _ _ _ _ _ (lisp_cdr_spec (pair_ptr a) a _ _ w eq_refl Hpa)).
      by rewrite (bind_Ok_l _ _ _ _ _ Hset). }
    split; [cbn [rev]; by rewrite <- app_assoc|].
    split.
    { intros a' Ha'. cbn in Ha'. apply not_elem_of_cons in Ha' as [Hne Ha'].
      rewrite Hframe by done. by apply Hframe1. }
    split.
    { intros a'. rewrite Hdom. destruct (decide (a' = a)) as [->|Hne].
      - destruct Hpa as (b & -> & _), Hpa1 as (b1 & -> & _). split; by eexists.
      - by rewrite Hframe1. }
    split; [intros H; by apply Hok, Hok1|]. eapply same_roots_trans; [exact Hroots1|exact Hroots].
Qed.

Lemma reverse_inplace_spec l cells tl w fuel :
  chain (blocks w) l cells tl → lisp_type tl ≠ LISP_PAIR → (length cells ≤ fuel)%nat →
  ∃ r w',
    lisp_reverse_inplace fuel l w = Ok r w' ∧
    chain (blocks w') r (rev cells) lisp_null ∧
    (∀ a, a ∉ cells.*1 → blocks w' !! a = blocks w !! a) ∧
    (∀ a, is_Some (blocks w' !! a) ↔ is_Some (blocks w !! a)) ∧
    (heap_ok w → heap_ok w') ∧ same_roots w w'.
Proof.
  intros Hc Htl Hf.
  destruct (reverse_loop_spec tl lisp_null cells l lisp_null [] w fuel Hc Htl)
    as (r & w' & Hrun & Hr & H); [done|intros a _ Hin; by apply elem_of_nil in Hin|done|].
  exists r, w'. rewrite app_nil_r in Hr. done.
Qed.

(** X3.  [lisp_reverse_inplace] turns a list around in its own cells: the
    result heads the same cells in reverse order, ending in null (a dotted
    tail is dropped); no block is allocated and no block outside the list
    is written. *)
Theorem lisp_reverse_inplace_reverses
    (fuel : nat) (l tl : Lisp) (cells : list (Z * Lisp)) (w : World) :
  chain (blocks w) l cells tl → lisp_type tl ≠ LISP_PAIR → (length cells ≤ fuel)%nat →
  ∃ r w',
    lisp_reverse_inplace fuel l w = Ok r w' ∧
    chain (blocks w') r (rev cells) lisp_null ∧
    (∀ a, a ∉ cells.*1 → blocks w' !! a = blocks w !! a) ∧
    (∀ a, is_Some (blocks w' !! a) ↔ is_Some (blocks w !! a)).
Proof.
  intros Hc Htl Hf.
  destruct (reverse_inplace_spec l cells tl w fuel Hc Htl Hf) as (r & w' & H1 & H2 & H3 & H4 & _).
  by exists r, w'.
Qed.

(** X4.  Reversing a proper list twice gives back the list it was, headed by
    the same cell. *)
Theorem lisp_reverse_inplace_twice
    (fuel : nat) (l : Lisp) (cells : list (Z * Lisp)) (w : World) :
  chain (blocks w) l cells lisp_null → (length cells ≤ fuel)%nat →
  ∃ r w1 w2,
    lisp_reverse_inplace fuel l w = Ok r w1 ∧
    lisp_reverse_inplace fuel r w1 = Ok l w2 ∧
    chain (blocks w2) l cells lisp_null ∧
    (∀ a, a ∉ cells.*1 → blocks w2 !! a = blocks w !! a).
Proof.
  intros Hc Hf.
  destruct (reverse_inplace_spec l cells lisp_null w fuel Hc) as (r & w1 & H1 & Hr & Hf1 & _);
    [done|done|].
  destruct (reverse_inplace_spec r (rev cells) lisp_null w1 fuel Hr) as (r2 & w2 & H2 & Hr2 & Hf2 & _);
    [done|by rewrite length_rev|].
  rewrite rev_involutive in Hr2.
  assert (r2 = l) as ->.
  { destruct cells as [|[a x] cells]; cbn in Hc, Hr2; [by subst|].
    destruct Hc as (-> & _), Hr2 as (-> & _). done. }
  exists r, w1, w2. split; [done|]. split; [done|]. split; [done|].
  intros a Ha. rewrite Hf2, Hf1; [done|done|].
  intros Hin. apply Ha. apply list_elem_of_In. apply list_elem_of_In in Hin.
  change (fst <$> rev cells) with (map fst (rev cells)) in Hin.
  rewrite map_rev in Hin. by apply in_rev in Hin.
Qed.


(** ** Building lists *)


Lemma back_append_fresh m0 front back cells x w :
  heap_ok w → m0 ⊆ blocks w → under_construction (blocks w) front back cells →
  (∀ a, a ∈ cells.*1 → m0 !! a = None) →
  ∃ front' n w',
    back_append front back x w = Ok (front', pair_ptr n) w' ∧
    heap_ok w' ∧ same_roots w w' ∧ m0 ⊆ blocks w' ∧
    under_construction (blocks w') front' (pair_ptr n) (cells ++ [(n, x)]) ∧
    blocks w !! n = None.
Proof.
  intros Hok Hsub [Hc Hback] Hfresh.
  destruct (lisp_cons_spec x lisp_null w Hok)
    as (n & w1 & Hcons & Hn & Hblocks1 & Hok1 & Hroots1).
  assert (Hsub1 : blocks w ⊆ blocks w1).
  { rewrite Hblocks1. by apply insert_subseteq. }
  assert (Hn1 : pair_at (blocks w1) n x lisp_null).
  { exists (pair_block x lisp_null). by rewrite Hblocks1, lookup_insert_eq. }
  unfold back_append. rewrite (bind_Ok_l _ _ _ _ _ Hcons).
  destruct (last cells) as [[c xc]|] eqn:Hlast.
  - subst back. rewrite pair_ptr_not_null.
    apply last_Some in Hlast as [pre ->].
    assert (Hnd : NoDup (pre ++ [(c, xc)]).*1).
    { eapply (chain_NoDup _ _ _ lisp_null); [done|exact Hc]. }
    apply chain_app in Hc as (mid & Hpre & Hmid).
    pose proof Hmid as Hmid0. cbn in Hmid. destruct Hmid as (-> & next & Hpc & ->).
    assert (Hpc1 : pair_at (blocks w1) c xc lisp_null) by (by eapply pair_at_mono).
    destruct (lisp_set_cdr_spec (pair_ptr c) c xc lisp_null (pair_ptr n) w1 eq_refl Hpc1)
      as (w2 & Hset & Hpc2 & Hframe2 & Hok2 & Hroots2).
    rewrite (bind_Ok_l _ _ _ _ _ Hset).
    assert (Hcn : c ≠ n).
    { intros ->. destruct Hpc as (b & Hb & _). congruence. }
    exists front, n, w2. split; [done|]. split; [auto|].
    split; [eapply same_roots_trans; [exact Hroots1|exact Hroots2]|]. split.
    { apply map_subseteq_spec. intros a b Hab.
      rewrite Hframe2.
      - eapply lookup_weaken; [|exact Hsub1]. by eapply lookup_weaken.
      - intros ->. rewrite Hfresh in Hab; [done|].
        rewrite fmap_app. apply elem_of_app. right. cbn. apply list_elem_of_here. }
    split; [|done]. split.
    + rewrite <- app_assoc. apply chain_app. exists (pair_ptr c). split.
      * eapply chain_frame; [|by eapply chain_mono].
        intros a Ha. apply Hframe2. intros ->.
        rewrite fmap_app in Hnd. apply NoDup_app in Hnd as (_ & Hnd & _).
        eapply Hnd; [done|]. cbn. apply list_elem_of_here.
      * cbn. split; [done|]. exists (pair_ptr n). split; [done|].
        split; [done|]. exists lisp_null. split; [|done].
        destruct Hn1 as (b & Hb & Hd). exists b. by rewrite Hframe2.
    + by rewrite last_snoc.
  - subst back. rewrite lisp_null_is_null.
    apply last_None in Hlast as ->. cbn in Hc. subst front.
    exists (pair_ptr n), n, w1. split; [done|]. split; [done|]. split; [done|].
    split; [by etrans|]. split; [|done]. split; [|done].
    cbn. split; [done|]. by exists lisp_null.
Qed.

Lemma make_listv_loop_spec m0 : ∀ xs rest front back cells w,
  heap_ok w → m0 ⊆ blocks w → under_construction (blocks w) front back cells →
  cells ≠ [] → (∀ a, a ∈ cells.*1 → m0 !! a = None) →
  Forall (fun x => lisp_is_null x = false) xs →
  ∃ w' new,
    lisp_make_listv_loop front back (xs ++ lisp_null :: rest) w = Ok front w' ∧
    heap_ok w' ∧ same_roots w w' ∧ m0 ⊆ blocks w' ∧
    chain (blocks w') front (cells ++ new) lisp_null ∧ new.*2 = xs ∧
    (∀ a, a ∈ new.*1 → m0 !! a = None).
Proof.
  induction xs as [|x xs IH]; intros rest front back cells w Hok Hsub Hb Hne Hfresh Hxs.
  - exists w, []. cbn. rewrite lisp_null_is_null. rewrite app_nil_r.
    split; [done|]. split; [done|]. split; [apply same_roots_refl|]. split; [done|].
    split; [by destruct Hb|]. split; [done|]. intros a Ha. by apply elem_of_nil in Ha.
  - apply Forall_cons in Hxs as [Hx Hxs].
    destruct (back_append_fresh m0 front back cells x w Hok Hsub Hb Hfresh)
      as (front' & n & w1 & Happ & Hok1 & Hroots1 & Hsub1 & Hb1 & Hn).
    assert (Hn0 : m0 !! n = None).
    { destruct (m0 !! n) eqn:E; [|done]. eapply lookup_weaken in E; [|exact Hsub]. congruence. }
    assert (front' = front) as ->.
    { destruct Hb as [Hc _], Hb1 as [Hc1 _].
      destruct cells as [|[a y] cells]; [done|]. cbn in Hc, Hc1.
      destruct Hc as (-> & _), Hc1 as (-> & _). done. }
    destruct (IH rest front (pair_ptr n) (cells ++ [(n, x)]) w1 Hok1 Hsub1 Hb1)
      as (w' & new & Hrun & Hok' & Hroots' & Hsub' & Hc' & Hcars & Hnew).
    { by destruct cells. }
    { intros a Ha. rewrite fmap_app in Ha. apply elem_of_app in Ha as [Ha|Ha]; [auto|].
      cbn in Ha. apply list_elem_of_singleton in Ha as ->. done. }
    { done. }
    exists w', ((n, x) :: new). split.
    { cbn. rewrite Hx. by rewrite (bind_Ok_l _ _ _ _ _ Happ). }
    split; [done|]. split; [by eapply same_roots_trans|]. split; [done|].
    split; [by rewrite <- app_assoc in Hc'|]. split; [cbn; by f_equal|].
    intros a Ha. cbn in Ha. apply elem_of_cons in Ha as [->|Ha]; auto.
Qed.

(** X5.  [lisp_make_listv] builds, in fresh cells, the list of its first
    argument and of the arguments that follow up to the first null; what
    comes after that null is not read, and no block that existed is
    changed. *)
Theorem lisp_make_listv_builds (first : Lisp) (xs rest : list Lisp) (w : World) :
  heap_ok w → Forall (fun x => lisp_is_null x = false) xs →
  ∃ r w' cells,
    lisp_make_listv first (xs ++ lisp_null :: rest) w = Ok r w' ∧
    chain (blocks w') r cells lisp_null ∧ cells.*2 = first :: xs ∧
    (∀ a, a ∈ cells.*1 → blocks w !! a = None) ∧
    blocks w ⊆ blocks w' ∧ heap_ok w'.
Proof.
  intros Hok Hxs.
  destruct (lisp_cons_spec first lisp_null w Hok)
    as (n & w1 & Hcons & Hn & Hblocks1 & Hok1 & Hroots1).
  destruct (make_listv_loop_spec (blocks w) xs rest (pair_ptr n) (pair_ptr n) [(n, first)] w1 Hok1)
    as (w' & new & Hrun & Hok' & _ & Hsub' & Hc' & Hcars & Hnew).
  { rewrite Hblocks1. by apply insert_subseteq. }
  { split; [|done]. cbn. split; [done|]. exists lisp_null. split; [|done].
    exists (pair_block first lisp_null). by rewrite Hblocks1, lookup_insert_eq. }
  { done. }
  { intros a Ha. cbn in Ha. by apply list_elem_of_singleton in Ha as ->. }
  { done. }
  exists (pair_ptr n), w', ((n, first) :: new). split.
  { unfold lisp_make_listv. by rewrite (bind_Ok_l _ _ _ _ _ Hcons). }
  split; [done|]. split; [cbn; by f_equal|]. split; [|done].
  intros a Ha. cbn in Ha. apply elem_of_cons in Ha as [->|Ha]; auto.
Qed.

Lemma make_list_loop_spec m0 x : ∀ n front back cells w,
  heap_ok w → m0 ⊆ blocks w → under_construction (blocks w) front back cells →
  (∀ a, a ∈ cells.*1 → m0 !! a = None) →
  ∃ r w' new,
    lisp_make_list_loop n front back x w = Ok r w' ∧
    heap_ok w' ∧ m0 ⊆ blocks w' ∧
    chain (blocks w') r (cells ++ new) lisp_null ∧ new.*2 = replicate n x ∧
    (∀ a, a ∈ new.*1 → m0 !! a = None).
Proof.
  induction n as [|n IH]; intros front back cells w Hok Hsub Hb Hfresh.
  - exists front, w, []. cbn. rewrite app_nil_r.
    split; [done|]. split; [done|]. split; [done|]. split; [by destruct Hb|].
    split; [done|]. intros a Ha. by apply elem_of_nil in Ha.
  - destruct (back_append_fresh m0 front back cells x w Hok Hsub Hb Hfresh)
      as (front' & c & w1 & Happ & Hok1 & Hroots1 & Hsub1 & Hb1 & Hc).
    assert (Hc0 : m0 !! c = None).
    { destruct (m0 !! c) eqn:E; [|done]. eapply lookup_weaken in E; [|exact Hsub]. congruence. }
    destruct (IH front' (pair_ptr c) (cells ++ [(c, x)]) w1 Hok1 Hsub1 Hb1)
      as (r & w' & new & Hrun & Hok' & Hsub' & Hc' & Hcars & Hnew).
    { intros a Ha. rewrite fmap_app in Ha. apply elem_of_app in Ha as [Ha|Ha]; [auto|].
      cbn in Ha. apply list_elem_of_singleton in Ha as ->. done. }
    exists r, w', ((c, x) :: new). split.
    { cbn [lisp_make_list_loop]. by rewrite (bind_Ok_l _ _ _ _ _ Happ). }
    split; [done|]. split; [done|].
    split; [by rewrite <- app_assoc in Hc'|]. split; [cbn; by f_equal|].
    intros a Ha. cbn in Ha. apply elem_of_cons in Ha as [->|Ha]; auto.
Qed.

(** X6.  [lisp_make_list x n] is a list of [n] fresh cells that all hold [x]
    (null when [n] is not positive); no block that existed is changed. *)
Theorem lisp_make_list_replicates (x : Lisp) (n : Z) (w : World) :
  heap_ok w →
  ∃ r w' cells,
    lisp_make_list x n w = Ok r w' ∧
    chain (blocks w') r cells lisp_null ∧ cells.*2 = replicate (Z.to_nat n) x ∧
    (n <= 0 → r = lisp_null) ∧
    (∀ a, a ∈ cells.*1 → blocks w !! a = None) ∧
    blocks w ⊆ blocks w' ∧ heap_ok w'.
Proof.
  intros Hok.
  destruct (make_list_loop_spec (blocks w) x (Z.to_nat n) lisp_null lisp_null [] w Hok)
    as (r & w' & new & Hrun & Hok' & Hsub' & Hc' & Hcars & Hnew).
  { done. }
  { by split. }
  { intros a Ha. by apply elem_of_nil in Ha. }
  exists r, w', new. split; [done|]. split; [done|]. split; [done|]. split; [|done].
  intros Hn. replace (Z.to_nat n) with 0%nat in Hcars by lia.
  destruct new; [by cbn in Hc'|done].
Qed.

(** ** Association lists *)

Lemma lisp_assoc_alist w key : ∀ es l fuel,
  alist (blocks w) l es → (length es ≤ fuel)%nat →
  lisp_assoc fuel l key w = Ok (assoc_result key es) w.
Proof.
  induction es as [|e es IH]; intros l fuel [Hc Hall] Hf.
  - cbn in Hc. subst l. destruct fuel; cbn; by rewrite lisp_null_is_null.
  - cbn in Hc. destruct Hc as (-> & next & Hcell & Hc).
    apply Forall_cons in Hall as [Hpair Hall].
    destruct fuel as [|fuel]; [cbn in Hf; lia|].
    cbn [lisp_assoc]. rewrite pair_ptr_not_null.
    rewrite (bind_Ok_l _ _ _ _ _ (lisp_car_spec (pair_ptr _) _ _ _ w eq_refl Hcell)).
    rewrite bool_decide_eq_true_2 by done. rewrite bind_bind.
    rewrite (bind_Ok_l _ _ _ _ _ (lisp_car_spec (pair_ptr _) _ _ _ w eq_refl Hpair)).
    rewrite bind_ret. unfold assoc_result, assoc_entry. cbn [find].
    destruct (lisp_eq (entry_key e) key); [done|].
    rewrite (bind_Ok_l _ _ _ _ _ (lisp_cdr_spec (pair_ptr _) _ _ _ w eq_refl Hcell)).
    apply IH; [by split|cbn in Hf; lia].
Qed.

(** X7.  [lisp_assoc] on a list of pairs returns the first pair whose key is
    [lisp_eq] to the key looked for, and null when there is none; it
    changes nothing. *)
Theorem lisp_assoc_first_match
    (fuel : nat) (l key : Lisp) (es : list Entry) (w : World) :
  alist (blocks w) l es → (length es ≤ fuel)%nat →
  lisp_assoc fuel l key w = Ok (assoc_result key es) w ∧
  (∀ e, assoc_entry key es = Some e →
        e ∈ es ∧ lisp_eq (entry_key e) key = true ∧
        pair_at (blocks w) (entry_pair e) (entry_key e) (entry_value e)) ∧
  (assoc_entry key es = None → ∀ e, e ∈ es → lisp_eq (entry_key e) key = false).
Proof.
  intros Hal Hf. split; [by apply lisp_assoc_alist|]. split.
  - intros e He. unfold assoc_entry in He. apply find_some in He as [Hin Heq].
    apply list_elem_of_In in Hin. split; [done|]. split; [done|].
    destruct Hal as [_ Hall]. rewrite Forall_forall in Hall. by apply Hall.
  - intros Hnone e He. unfold assoc_entry in Hnone.
    apply list_elem_of_In in He. by apply (find_none _ _ Hnone).
Qed.

(** ** Strings and lambdas *)

Lemma lisp_string_spec a s w :
  string_at (blocks w) a s → lisp_string (string_ptr a) w = Ok s w.
Proof.
  intros (b & Hb & Hd). unfold lisp_string, block_of, assert. cbn.
  rewrite bool_decide_eq_true_2 by done.
  unfold bind, read_block, ret. by rewrite Hb, Hd.
Qed.

Lemma lisp_lambda_spec a b i args body env w :
  blocks w !! a = Some b → data b = DLambda i args body env →
  lisp_lambda (mkLisp LISP_LAMBDA (Ptr a)) w = Ok (i, args, body, env) w.
Proof.
  intros Hb Hd. unfold lisp_lambda, block_of. cbn.
  unfold bind, read_block, ret. by rewrite Hb, Hd.
Qed.

(** X10.  A string made by [lisp_make_string] is read back by [lisp_string];
    it lives in a block of its own and no other block is changed. *)
Theorem lisp_make_string_round_trip (s : string) (w : World) :
  heap_ok w → strlen s + 1 + sizeof_LispBlock < 2 ^ 31 →
  ∃ p w',
    lisp_make_string s w = Ok (string_ptr p) w' ∧
    lisp_string (string_ptr p) w' = Ok s w' ∧
    blocks w !! p = None ∧
    (∀ a, a ≠ p → blocks w' !! a = blocks w !! a) ∧
    heap_ok w'.
Proof.
  intros Hok Hlen. pose proof sizeof_LispBlock_pos.
  assert (0 <= strlen s) by (unfold strlen; lia).
  destruct (heap_alloc_spec (strlen s + 1) LISP_STRING GC_CLEAR w Hok)
    as (p & w1 & Halloc & Hfresh & Hblocks1 & Hok1 & Hroots1); [lia|lia|].
  set (b := mkBlock GC_CLEAR (strlen s + 1) LISP_STRING DUninit) in *.
  destruct (write_block_spec p (set_data (DString s) b) w1)
    as (w2 & Hwrite & Hblocks2 & Hok2 & Hroots2).
  { rewrite Hblocks1, lookup_insert_eq. by eexists. }
  rewrite Hblocks1, insert_insert_eq in Hblocks2.
  exists p, w2. split.
  { unfold lisp_make_string, gc_alloc. rewrite u32_small by lia.
    rewrite (bind_Ok_l _ _ _ _ _ Halloc).
    unfold read_block at 1. unfold bind at 1. rewrite Hblocks1, lookup_insert_eq.
    by rewrite (bind_Ok_l _ _ _ _ _ Hwrite). }
  split.
  { apply lisp_string_spec. exists (set_data (DString s) b).
    by rewrite Hblocks2, lookup_insert_eq. }
  split; [done|]. split; [|auto].
  intros a Ha. by rewrite Hblocks2, lookup_insert_ne.
Qed.

Lemma lisp_make_lambda_spec (args body env : Lisp) (w : World) :
  heap_ok w →
  ∃ p w',
    lisp_make_lambda args body env w = Ok (mkLisp LISP_LAMBDA (Ptr p)) w' ∧
    lisp_lambda (mkLisp LISP_LAMBDA (Ptr p)) w' =
      Ok (lambda_counter (ctx w), args, body, env) w' ∧
    lambda_counter (ctx w') = lambda_counter (ctx w) + 1 ∧
    blocks w !! p = None ∧
    (∀ a, a ≠ p → blocks w' !! a = blocks w !! a).
Proof.
  intros Hok. pose proof sizeof_LispBlock_pos. pose proof sizeof_LispBlock_small.
  pose proof sizeof_Lambda_pos. pose proof sizeof_Lambda_small.
  destruct (heap_alloc_spec sizeof_Lambda LISP_LAMBDA GC_CLEAR w Hok)
    as (p & w1 & Halloc & Hfresh & Hblocks1 & Hok1 & Hroots1); [lia|lia|].
  destruct Hroots1 as (_ & _ & Hcounter & _).
  set (b := mkBlock GC_CLEAR sizeof_Lambda LISP_LAMBDA DUninit) in *.
  set (w2 := set_ctx (set_lambda_counter (lambda_counter (ctx w1) + 1)) w1).
  destruct (write_block_spec p
              (set_data (DLambda (lambda_counter (ctx w1)) args body env) b) w2)
    as (w3 & Hwrite & Hblocks3 & _ & Hroots3).
  { cbn. rewrite Hblocks1, lookup_insert_eq. by eexists. }
  cbn [blocks w2 set_ctx] in Hblocks3. rewrite Hblocks1, insert_insert_eq in Hblocks3.
  exists p, w3. split.
  { unfold lisp_make_lambda, gc_alloc.
    rewrite (bind_Ok_l _ _ _ _ _ Halloc). rewrite bind_get, bind_modify.
    fold w2. unfold read_block at 1. unfold bind at 1. cbn [blocks w2 set_ctx].
    rewrite Hblocks1, lookup_insert_eq.
    by rewrite (bind_Ok_l _ _ _ _ _ Hwrite). }
  split.
  { rewrite <- Hcounter. eapply lisp_lambda_spec; [by rewrite Hblocks3, lookup_insert_eq|done]. }
  split.
  { destruct Hroots3 as (_ & _ & -> & _). cbn. by rewrite Hcounter. }
  split; [done|]. intros a Ha. by rewrite Hblocks3, lookup_insert_ne.
Qed.

(** X11.  [lisp_make_lambda] stores its three arguments with the current
    value of the lambda counter as identifier and then advances the
    counter; [lisp_lambda] reads the four fields back. *)
Theorem lisp_make_lambda_round_trip (args body env : Lisp) (w : World) :
  heap_ok w → lambda_counter (ctx w) < INT_MAX →
  ∃ p w',
    lisp_make_lambda args body env w = Ok (mkLisp LISP_LAMBDA (Ptr p)) w' ∧
    lisp_lambda (mkLisp LISP_LAMBDA (Ptr p)) w' =
      Ok (lambda_counter (ctx w), args, body, env) w' ∧
    lambda_counter (ctx w') = lambda_counter (ctx w) + 1 ∧
    blocks w !! p = None ∧
    (∀ a, a ≠ p → blocks w' !! a = blocks w !! a).
Proof. intros Hok _. by apply lisp_make_lambda_spec. Qed.

(** X12.  [hash_string] does not see the case of letters, and its value is an
    [unsigned int]. *)
Theorem hash_string_ignores_case (s : string) :
  hash_string (upper s) = hash_string s ∧
  hash_string (lower s) = hash_string s ∧
  0 <= hash_string s < 2 ^ 32.
Proof.
  split; [apply hash_string_upper|]. split; [apply hash_string_lower|].
  assert (Hloop : ∀ c s1 s2, 0 <= hash_string_loop c s1 s2 < 2 ^ 32); [|apply Hloop].
  induction c as [|a c IH]; intros s1 s2; cbn.
  - unfold u32. apply Z.mod_pos_bound. lia.
  - apply IH.
Qed.


(** ** Tables *)

Lemma alist_agree m m' l es :
  alist m l es →
  (∀ e, e ∈ es → m' !! entry_cell e = m !! entry_cell e ∧
                 m' !! entry_pair e = m !! entry_pair e) →
  alist m' l es.
Proof.
  intros [Hc Hall] Hag. split.
  - eapply chain_frame; [|done]. intros a Ha.
    rewrite <- list_fmap_compose in Ha. apply list_elem_of_fmap in Ha as (e & -> & He).
    by apply Hag.
  - rewrite Forall_forall in Hall |- *. intros e He.
    destruct (Hall e He) as (b & Hb & Hd). exists b. split; [|done].
    by rewrite (proj2 (Hag e He)).
Qed.

Lemma alist_length m l es : alist m l es → ∀ e, e ∈ es →
  (∃ next, pair_at m (entry_cell e) (pair_ptr (entry_pair e)) next) ∧
  pair_at m (entry_pair e) (entry_key e) (entry_value e).
Proof.
  intros [Hc Hall] e He. rewrite Forall_forall in Hall. split; [|by apply Hall].
  clear Hall. revert l Hc. induction es as [|e' es IH]; intros l Hc.
  - by apply elem_of_nil in He.
  - cbn in Hc. destruct Hc as (-> & next & Hp & Hc).
    apply elem_of_cons in He as [->|He]; [by exists next|by eapply IH].
Qed.

Lemma table_at_bucket m t capacity buckets h :
  table_at m t capacity buckets →
  ∃ b size entries it,
    m !! t = Some b ∧ data b = DTable size capacity entries ∧
    0 < capacity ∧ Z.of_nat (length entries) = capacity ∧
    Forall2 (alist m) entries buckets ∧
    entries !! Z.to_nat (h mod capacity) = Some it ∧
    buckets !! Z.to_nat (h mod capacity) = Some (bucket_of capacity buckets h) ∧
    alist m it (bucket_of capacity buckets h).
Proof.
  intros (b & size & entries & Hb & Hd & Hcap & Hlen & Hall).
  assert (Hidx : (Z.to_nat (h mod capacity) < length entries)%nat).
  { pose proof (Z.mod_pos_bound h capacity Hcap). lia. }
  apply lookup_lt_is_Some_2 in Hidx as [it Hit].
  destruct (Forall2_lookup_l _ _ _ _ _ Hall Hit) as (es & Hes & Hal).
  exists b, size, entries, it. unfold bucket_of. rewrite Hes. cbn. done.
Qed.

Lemma table_get_spec w t capacity buckets q h fuel :
  table_at (blocks w) t capacity buckets → hash_at (blocks w) q h →
  (length (bucket_of capacity buckets h) ≤ fuel)%nat →
  lisp_table_get fuel (table_ptr t) (symbol_ptr q) w =
    Ok (assoc_result (symbol_ptr q) (bucket_of capacity buckets h)) w.
Proof.
  intros Ht (bq & name & Hbq & Hdq) Hf.
  destruct (table_at_bucket _ _ _ _ h Ht)
    as (b & size & entries & it & Hb & Hd & Hcap & Hlen & Hall & Hit & Hes & Hal).
  unfold lisp_table_get.
  rewrite (bind_Ok_l _ _ _ _ _ (lisp_table_spec _ _ _ _ _ _ Hb Hd)).
  rewrite (bind_Ok_l _ _ _ _ _ (symbol_hash_spec _ _ _ _ _ Hbq Hdq)).
  destruct (table_entry_spec capacity entries h w Hcap Hlen) as (it' & Hit' & Hentry).
  rewrite Hit in Hit'. injection Hit' as <-.
  rewrite (bind_Ok_l _ _ _ _ _ Hentry).
  by apply lisp_assoc_alist.
Qed.


Lemma assoc_entry_update key p v es :
  assoc_entry key (map (update_entry p v) es) = update_entry p v <$> assoc_entry key es.
Proof.
  unfold assoc_entry. induction es as [|e es IH]; [done|]. cbn.
  replace (entry_key (update_entry p v e)) with (entry_key e)
    by (unfold update_entry; by case_bool_decide).
  destruct (lisp_eq (entry_key e) key); [done|exact IH].
Qed.

Lemma assoc_result_update key p v es :
  assoc_result key (map (update_entry p v) es) = assoc_result key es.
Proof.
  unfold assoc_result. rewrite assoc_entry_update.
  destruct (assoc_entry key es) as [e|]; [|done]. cbn.
  unfold update_entry. by case_bool_decide.
Qed.

Lemma table_set_spec w t capacity buckets q h value fuel :
  heap_ok w → table_at (blocks w) t capacity buckets → hash_at (blocks w) q h →
  (length (bucket_of capacity buckets h) ≤ fuel)%nat →
  ∃ w' buckets' e,
    lisp_table_set fuel (table_ptr t) (symbol_ptr q) value w = Ok tt w' ∧
    heap_ok w' ∧ same_roots w w' ∧
    table_at (blocks w') t capacity buckets' ∧
    assoc_entry (symbol_ptr q) (bucket_of capacity buckets' h) = Some e ∧
    entry_value e = value ∧
    (length (bucket_of capacity buckets' h) ≤ S (length (bucket_of capacity buckets h)))%nat ∧
    (∀ key2 h2, lisp_val key2 ≠ Ptr q →
       assoc_result key2 (bucket_of capacity buckets' h2) =
       assoc_result key2 (bucket_of capacity buckets h2)) ∧
    (∀ h2, (length (bucket_of capacity buckets' h2)
            ≤ S (length (bucket_of capacity buckets h2)))%nat) ∧
    (∀ a b, blocks w !! a = Some b → is_table_data (data b) = false →
       (∀ k v, data b = DPair k v → lisp_val k ≠ Ptr q) →
       blocks w' !! a = Some b).
Proof.
  intros Hok Ht Hq Hf. pose proof Hq as (bq & name & Hbq & Hdq).
  destruct (table_at_bucket _ _ _ _ h Ht)
    as (b & size & entries & it & Hb & Hd & Hcap & Hlen & Hall & Hit & Hes & Hal).
  set (idx := Z.to_nat (h mod capacity)) in *.
  set (es := bucket_of capacity buckets h) in *.
  destruct (table_entry_spec capacity entries h w Hcap Hlen) as (it' & Hit' & Hentry).
  fold idx in Hit', Hentry. rewrite Hit in Hit'. injection Hit' as <-.
  destruct (assoc_entry (symbol_ptr q) es) as [e|] eqn:Hfind.
  - (* the key is there: its pair is updated *)
    pose proof Hfind as Hfind0.
    unfold assoc_entry in Hfind. apply find_some in Hfind as [Hin Heq].
    apply list_elem_of_In in Hin.
    destruct (alist_length _ _ _ Hal e Hin) as [_ Hpe].
    set (p := entry_pair e) in *.
    destruct (lisp_set_cdr_spec (pair_ptr p) p _ _ value w eq_refl Hpe)
      as (w' & Hset & Hp' & Hframe & Hok' & Hroots).
    assert (Hkey : lisp_val (entry_key e) = Ptr q).
    { unfold lisp_eq in Heq. by apply bool_decide_eq_true in Heq. }
    assert (Hcells : ∀ es' l' e', alist (blocks w) l' es' → e' ∈ es' → entry_cell e' ≠ p).
    { intros es' l' e' Hal' He' Hcp.
      destruct (alist_length _ _ _ Hal' e' He') as [(next & bc & Hbc & Hdc) (bp' & Hbp' & Hdp')].
      destruct Hpe as (bp & Hbp & Hdp). rewrite Hcp, Hbp in Hbc. injection Hbc as <-.
      rewrite Hdp in Hdc. injection Hdc as Hk _. rewrite Hk in Hkey. cbn in Hkey.
      injection Hkey as Hkey. rewrite Hkey, Hbq in Hbp'. injection Hbp' as <-.
      by rewrite Hdq in Hdp'. }
    assert (Hupd : ∀ es' l', alist (blocks w) l' es' →
                     alist (blocks w') l' (map (update_entry p value) es')).
    { intros es' l' Hal'. pose proof Hal' as [Hc' Hall']. split.
      - rewrite map_map.
        rewrite (map_ext _ (fun e => (entry_cell e, pair_ptr (entry_pair e))))
          by (intros e'; unfold update_entry; by case_bool_decide).
        eapply chain_frame; [|done]. intros a Ha.
        rewrite <- list_fmap_compose in Ha. apply list_elem_of_fmap in Ha as (e' & -> & He').
        apply Hframe. cbn. by eapply Hcells.
      - apply Forall_forall. intros e1 He1. apply list_elem_of_In in He1.
        apply in_map_iff in He1 as (e' & <- & He'). apply list_elem_of_In in He'.
        destruct (alist_length _ _ _ Hal' e' He') as [_ (bp' & Hbp' & Hdp')].
        unfold update_entry. case_bool_decide as Hcase; cbn.
        + rewrite Hcase. destruct Hpe as (bp & Hbp & Hdp).
          rewrite Hcase, Hbp in Hbp'. injection Hbp' as <-.
          rewrite Hdp in Hdp'. injection Hdp' as <- _. done.
        + exists bp'. split; [|done]. by rewrite Hframe. }
    assert (Hbucket' : ∀ h2, bucket_of capacity (map (map (update_entry p value)) buckets) h2
                             = map (update_entry p value) (bucket_of capacity buckets h2)).
    { intros h2. unfold bucket_of.
      change (map (map (update_entry p value)) buckets)
        with (map (update_entry p value) <$> buckets).
      rewrite list_lookup_fmap.
      destruct (buckets !! Z.to_nat (h2 mod capacity)); reflexivity. }
    exists w', (map (map (update_entry p value)) buckets), (update_entry p value e).
    split.
    { unfold lisp_table_set.
      rewrite (bind_Ok_l _ _ _ _ _ (lisp_table_spec _ _ _ _ _ _ Hb Hd)).
      rewrite (bind_Ok_l _ _ _ _ _ (symbol_hash_spec _ _ _ _ _ Hbq Hdq)).
      rewrite (bind_Ok_l _ _ _ _ _ Hentry).
      rewrite (bind_Ok_l _ _ _ _ _ (lisp_assoc_alist w (symbol_ptr q) es it fuel Hal Hf)).
      unfold assoc_result. rewrite Hfind0. by rewrite pair_ptr_not_null. }
    split; [auto|]. split; [done|]. split.
    { exists b, size, entries. split.
      - rewrite Hframe; [done|]. intros ->. destruct Hpe as (bp & Hbp & Hdp).
        rewrite Hb in Hbp. injection Hbp as <-. by rewrite Hd in Hdp.
      - split; [done|]. split; [done|]. split; [done|].
        apply Forall2_fmap_r. eapply Forall2_impl; [exact Hall|]. intros l' es'. apply Hupd. }
    split.
    { rewrite Hbucket'. fold es. rewrite assoc_entry_update, Hfind0. done. }
    split.
    { unfold update_entry. by rewrite bool_decide_eq_true_2. }
    split; [rewrite Hbucket', length_map; fold es; lia|].
    split; [intros key2 h2 _; by rewrite Hbucket', assoc_result_update|].
    split; [intros h2; rewrite Hbucket', length_map; lia|].
    intros a ba Hba Hnt Hnk. rewrite Hframe; [done|]. intros ->.
    destruct Hpe as (bp & Hbp & Hdp). rewrite Hba in Hbp. injection Hbp as <-.
    by eapply Hnk.
  - (* the key is new: a pair and a cell are added in front of the chain *)
    destruct (lisp_cons_spec (symbol_ptr q) value w Hok)
      as (pa & w1 & Hcons1 & Hfresh1 & Hblocks1 & Hok1 & Hroots1).
    destruct (lisp_cons_spec (pair_ptr pa) it w1 Hok1)
      as (c & w2 & Hcons2 & Hfresh2 & Hblocks2 & Hok2 & Hroots2).
    assert (Hpa_t : pa ≠ t) by congruence.
    assert (Hc_pa : c ≠ pa).
    { intros ->. by rewrite Hblocks1, lookup_insert_eq in Hfresh2. }
    assert (Hc_w : blocks w !! c = None).
    { rewrite Hblocks1 in Hfresh2. by apply lookup_insert_None in Hfresh2 as [? _]. }
    assert (Hc_t : c ≠ t) by congruence.
    assert (Hb2 : blocks w2 !! t = Some b).
    { by rewrite Hblocks2, lookup_insert_ne, Hblocks1, lookup_insert_ne. }
    set (new := mkEntry c pa (symbol_ptr q) value).
    destruct (write_block_spec t
                (set_data (DTable (u16 (size + 1)) capacity (<[idx := pair_ptr c]> entries)) b) w2)
      as (w3 & Hwrite & Hblocks3 & Hok3 & Hroots3); [by eexists|].
    assert (Hold : ∀ a, a ≠ t → a ≠ c → a ≠ pa → blocks w3 !! a = blocks w !! a).
    { intros a ? ? ?.
      by rewrite Hblocks3, lookup_insert_ne, Hblocks2, lookup_insert_ne,
                 Hblocks1, lookup_insert_ne. }
    assert (Hkeep : ∀ es' l', alist (blocks w) l' es' → alist (blocks w3) l' es').
    { intros es' l' Hal'. eapply alist_agree; [done|]. intros e' He'.
      destruct (alist_length _ _ _ Hal' e' He') as [(next & bc & Hbc & Hdc) (bp' & Hbp' & Hdp')].
      split; apply Hold; congruence. }
    assert (Hbucket' : ∀ h2, bucket_of capacity (<[idx := new :: es]> buckets) h2 =
              if bool_decide (Z.to_nat (h2 mod capacity) = idx)
              then new :: bucket_of capacity buckets h2
              else bucket_of capacity buckets h2).
    { intros h2. unfold bucket_of at 1. case_bool_decide as Hcase.
      - rewrite Hcase, list_lookup_insert_eq by (by eapply lookup_lt_Some).
        cbn. unfold bucket_of. rewrite Hcase. fold idx. rewrite Hes. done.
      - by rewrite list_lookup_insert_ne. }
    exists w3, (<[idx := new :: es]> buckets), new.
    split.
    { unfold lisp_table_set.
      rewrite (bind_Ok_l _ _ _ _ _ (lisp_table_spec _ _ _ _ _ _ Hb Hd)).
      rewrite (bind_Ok_l _ _ _ _ _ (symbol_hash_spec _ _ _ _ _ Hbq Hdq)).
      rewrite (bind_Ok_l _ _ _ _ _ Hentry).
      rewrite (bind_Ok_l _ _ _ _ _ (lisp_assoc_alist w (symbol_ptr q) es it fuel Hal Hf)).
      unfold assoc_result. rewrite Hfind. rewrite lisp_null_is_null.
      rewrite (bind_Ok_l _ _ _ _ _ Hcons1).
      rewrite (bind_Ok_l _ _ _ _ _ Hcons2).
      rewrite (bind_Ok_l _ _ _ _ _ (lisp_table_spec _ _ _ _ _ _ Hb2 Hd)).
      exact Hwrite. }
    split; [auto|].
    split; [by repeat (eapply same_roots_trans; [eassumption|])|].
    split.
    { exists (set_data (DTable (u16 (size + 1)) capacity (<[idx := pair_ptr c]> entries)) b),
        (u16 (size + 1)), (<[idx := pair_ptr c]> entries).
      split; [by rewrite Hblocks3, lookup_insert_eq|]. split; [done|]. split; [done|].
      split; [by rewrite length_insert|].
      apply Forall2_insert.
      - eapply Forall2_impl; [exact Hall|]. intros l' es'. apply Hkeep.
      - destruct (Hkeep _ _ Hal) as [Hc3 Hall3]. split.
        + cbn. split; [done|]. exists it. split; [|done].
          exists (pair_block (pair_ptr pa) it). split; [|done].
          by rewrite Hblocks3, lookup_insert_ne, Hblocks2, lookup_insert_eq.
        + apply Forall_cons. split; [|done]. cbn.
          exists (pair_block (symbol_ptr q) value). split; [|done].
          by rewrite Hblocks3, lookup_insert_ne, Hblocks2, lookup_insert_ne,
                     Hblocks1, lookup_insert_eq. }
    split.
    { rewrite Hbucket', bool_decide_eq_true_2 by done.
      unfold assoc_entry. cbn. unfold lisp_eq. by rewrite bool_decide_eq_true_2. }
    split; [done|].
    split; [rewrite Hbucket', bool_decide_eq_true_2 by done; cbn; fold es; lia|].
    split.
    { intros key2 h2 Hne. rewrite Hbucket'. case_bool_decide; [|done].
      unfold assoc_result, assoc_entry. cbn. unfold lisp_eq at 1. cbn.
      rewrite bool_decide_eq_false_2; [done|]. congruence. }
    split; [intros h2; rewrite Hbucket'; case_bool_decide; cbn; lia|].
    intros a ba Hba Hnt _. rewrite Hold; [done| | |]; try congruence.
    intros ->. rewrite Hb in Hba. injection Hba as <-. by rewrite Hd in Hnt.
Qed.


(** X13.  After [lisp_table_set] stored a value under a symbol,
    [lisp_table_get] with that symbol returns a pair that holds the
    value, whether the symbol was in the table before or not. *)
Theorem lisp_table_set_then_get
    (fuel : nat) (t q h capacity : Z) (buckets : list (list Entry)) (value : Lisp) (w : World) :
  heap_ok w → table_at (blocks w) t capacity buckets → hash_at (blocks w) q h →
  (length (bucket_of capacity buckets h) < fuel)%nat →
  ∃ w' p k,
    lisp_table_set fuel (table_ptr t) (symbol_ptr q) value w = Ok tt w' ∧
    lisp_table_get fuel (table_ptr t) (symbol_ptr q) w' = Ok (pair_ptr p) w' ∧
    pair_at (blocks w') p k value ∧ lisp_eq k (symbol_ptr q) = true ∧
    heap_ok w' ∧ ∃ buckets', table_at (blocks w') t capacity buckets'.
Proof.
  intros Hok Ht Hq Hf.
  destruct (table_set_spec w t capacity buckets q h value fuel Hok Ht Hq)
    as (w' & buckets' & e & Hset & Hok' & _ & Ht' & Hfind & Hval & Hlen & _ & _ & Hframe);
    [lia|].
  assert (Hq' : hash_at (blocks w') q h).
  { destruct Hq as (bq & name & Hbq & Hdq). exists bq, name. split; [|done].
    apply Hframe; [done|by rewrite Hdq|]. intros k v Hk. by rewrite Hdq in Hk. }
  pose proof Hfind as Hfind0. unfold assoc_entry in Hfind.
  apply find_some in Hfind as [Hin Heq]. apply list_elem_of_In in Hin.
  destruct (table_at_bucket _ _ _ _ h Ht') as (_ & _ & _ & it & _ & _ & _ & _ & _ & _ & _ & Hal).
  destruct (alist_length _ _ _ Hal e Hin) as [_ Hpe].
  exists w', (entry_pair e), (entry_key e). split; [done|]. split.
  { rewrite (table_get_spec w' t capacity buckets' q h fuel Ht' Hq') by lia.
    unfold assoc_result. by rewrite Hfind0. }
  split; [by rewrite <- Hval|]. split; [done|]. split; [done|]. by exists buckets'.
Qed.

(** X14.  [lisp_table_set] under one symbol leaves every other symbol as it
    was: [lisp_table_get] returns the same pair as before, with the same
    contents. *)
Theorem lisp_table_set_keeps_others
    (fuel : nat) (t q h capacity : Z) (buckets : list (list Entry)) (value : Lisp)
    (q2 h2 : Z) (w : World) :
  heap_ok w → table_at (blocks w) t capacity buckets → hash_at (blocks w) q h →
  (length (bucket_of capacity buckets h) ≤ fuel)%nat →
  hash_at (blocks w) q2 h2 → q2 ≠ q →
  (length (bucket_of capacity buckets h2) < fuel)%nat →
  ∃ w' r,
    lisp_table_set fuel (table_ptr t) (symbol_ptr q) value w = Ok tt w' ∧
    lisp_table_get fuel (table_ptr t) (symbol_ptr q2) w = Ok r w ∧
    lisp_table_get fuel (table_ptr t) (symbol_ptr q2) w' = Ok r w' ∧
    (∀ p k v, r = pair_ptr p → pair_at (blocks w) p k v → pair_at (blocks w') p k v).
Proof.
  intros Hok Ht Hq Hf Hq2 Hne Hf2.
  destruct (table_set_spec w t capacity buckets q h value fuel Hok Ht Hq Hf)
    as (w' & buckets' & e & Hset & Hok' & _ & Ht' & _ & _ & _ & Hsame & Hlen & Hframe).
  assert (Hq2' : hash_at (blocks w') q2 h2).
  { destruct Hq2 as (bq & name & Hbq & Hdq). exists bq, name. split; [|done].
    apply Hframe; [done|by rewrite Hdq|]. intros k v Hk. by rewrite Hdq in Hk. }
  exists w', (assoc_result (symbol_ptr q2) (bucket_of capacity buckets h2)).
  split; [done|]. split; [apply table_get_spec; [done|done|lia]|]. split.
  { rewrite (table_get_spec w' t capacity buckets' q2 h2 fuel Ht' Hq2').
    - f_equal. apply Hsame. cbn. congruence.
    - specialize (Hlen h2). lia. }
  intros p k v Hr (bp & Hbp & Hdp). exists bp. split; [|done].
  apply Hframe; [done|by rewrite Hdp|].
  intros k' v' Hk'. rewrite Hdp in Hk'. injection Hk' as <- <-.
  unfold assoc_result in Hr.
  destruct (assoc_entry (symbol_ptr q2) (bucket_of capacity buckets h2)) as [e2|] eqn:Hfind;
    [|done].
  injection Hr as <-.
  unfold assoc_entry in Hfind. apply find_some in Hfind as [Hin Heq].
  apply list_elem_of_In in Hin.
  destruct (table_at_bucket _ _ _ _ h2 Ht) as (_ & _ & _ & it & _ & _ & _ & _ & _ & _ & _ & Hal).
  destruct (alist_length _ _ _ Hal e2 Hin) as [_ (bp2 & Hbp2 & Hdp2)].
  rewrite Hbp in Hbp2. injection Hbp2 as <-. rewrite Hdp in Hdp2. injection Hdp2 as -> _.
  unfold lisp_eq in Heq. apply bool_decide_eq_true in Heq. cbn in Heq. congruence.
Qed.

(** X15.  [lisp_make_table] makes a fresh table that binds no symbol:
    [lisp_table_get] returns null for every symbol when the capacity
    that the 16-bit field of the table keeps, the capacity modulo 65536,
    is not zero.  When it is zero (a capacity of 0, or a multiple of
    65536) [lisp_table_get] takes a remainder by zero, which is undefined.
    For a capacity from 1 to 65535 the table has that many empty buckets. *)
Theorem lisp_make_table_is_empty (capacity : Z) (w : World) :
  heap_ok w → 0 <= capacity →
  sizeof_Table + sizeof_Lisp * capacity + sizeof_LispBlock < 2 ^ 31 →
  ∃ t w',
    lisp_make_table capacity w = Ok (table_ptr t) w' ∧
    blocks w !! t = None ∧ heap_ok w' ∧
    (∀ a, a ≠ t → blocks w' !! a = blocks w !! a) ∧
    (0 < capacity < 2 ^ 16 →
     table_at (blocks w') t capacity (replicate (Z.to_nat capacity) [])) ∧
    ∀ fuel q h, hash_at (blocks w') q h →
      lisp_table_get fuel (table_ptr t) (symbol_ptr q) w' =
        if u16 capacity =? 0 then Undef w' else Ok lisp_null w'.
Proof.
  intros Hok Hcap Hsize.
  pose proof sizeof_Table_pos. pose proof sizeof_Lisp_pos. pose proof sizeof_LispBlock_pos.
  destruct (heap_alloc_spec (sizeof_Table + sizeof_Lisp * capacity) LISP_TABLE GC_CLEAR w Hok)
    as (t & w1 & Halloc & Hfresh & Hblocks1 & Hok1 & Hroots1); [nia|lia|].
  set (b := mkBlock GC_CLEAR (sizeof_Table + sizeof_Lisp * capacity) LISP_TABLE DUninit) in *.
  set (entries := replicate (Z.to_nat capacity) lisp_null).
  destruct (write_block_spec t (set_data (DTable 0 (u16 capacity) entries) b) w1)
    as (w2 & Hwrite & Hblocks2 & Hok2 & Hroots2).
  { rewrite Hblocks1, lookup_insert_eq. by eexists. }
  rewrite Hblocks1, insert_insert_eq in Hblocks2.
  assert (Hb2 : blocks w2 !! t = Some (set_data (DTable 0 (u16 capacity) entries) b)).
  { by rewrite Hblocks2, lookup_insert_eq. }
  exists t, w2. split.
  { unfold lisp_make_table, gc_alloc. rewrite u32_small by nia.
    rewrite (bind_Ok_l _ _ _ _ _ Halloc).
    unfold read_block at 1. unfold bind at 1. rewrite Hblocks1, lookup_insert_eq.
    by rewrite (bind_Ok_l _ _ _ _ _ Hwrite). }
  split; [done|]. split; [auto|]. split.
  { intros a Ha. by rewrite Hblocks2, lookup_insert_ne. }
  split.
  { intros Hrange.
    assert (Hu16 : u16 capacity = capacity) by (unfold u16; apply Z.mod_small; lia).
    exists (set_data (DTable 0 (u16 capacity) entries) b), 0, entries.
    split; [done|]. split; [cbn; by rewrite Hu16|].
    split; [lia|]. split; [unfold entries; rewrite length_replicate; lia|].
    unfold entries. generalize (Z.to_nat capacity). intros n.
    induction n; cbn; constructor; [|done]. split; [done|constructor]. }
  intros fuel q h (bq & name & Hbq & Hdq).
  unfold lisp_table_get.
  rewrite (bind_Ok_l _ _ _ _ _ (lisp_table_spec _ _ _ _ _ _ Hb2 eq_refl)).
  rewrite (bind_Ok_l _ _ _ _ _ (symbol_hash_spec _ _ _ _ _ Hbq Hdq)).
  unfold table_entry.
  destruct (u16 capacity =? 0) eqn:Hz; [reflexivity|].
  apply Z.eqb_neq in Hz.
  assert (Hu : 0 < u16 capacity <= capacity).
  { unfold u16 in *. pose proof (Z.mod_pos_bound capacity (2 ^ 16) ltac:(lia)).
    split; [lia|]. apply Z.mod_le; lia. }
  assert (Hidx : entries !! Z.to_nat (h mod u16 capacity) = Some lisp_null).
  { unfold entries. apply lookup_replicate. split; [done|].
    pose proof (Z.mod_pos_bound h (u16 capacity) ltac:(lia)). lia. }
  rewrite Hidx. rewrite bind_ret.
  destruct fuel; cbn; by rewrite lisp_null_is_null.
Qed.

(** ** Environments *)

Lemma env_lookup_spec w q h : ∀ fs env fuel,
  env_at (blocks w) env fs → hash_at (blocks w) q h → env_fuel h fs fuel →
  lisp_env_lookup fuel env (symbol_ptr q) w =
    Ok (match env_entry (symbol_ptr q) h fs with
        | Some e => pair_ptr (entry_pair e)
        | None => lisp_null
        end) w.
Proof.
  induction fs as [|f fs IH]; intros env fuel [Hc Hall] Hq Hfuel.
  - cbn in Hc. subst env. destruct fuel; cbn; by rewrite lisp_null_is_null.
  - cbn in Hc. destruct Hc as (-> & next & Hcell & Hc).
    apply Forall_cons in Hall as [Ht Hall].
    pose proof (Hfuel f ltac:(apply list_elem_of_here)) as Hf. cbn in Hf.
    destruct fuel as [|fuel]; [lia|].
    cbn [lisp_env_lookup]. rewrite pair_ptr_not_null.
    rewrite (bind_Ok_l _ _ _ _ _ (lisp_car_spec (pair_ptr _) _ _ _ w eq_refl Hcell)).
    rewrite (bind_Ok_l _ _ _ _ _ (table_get_spec w _ _ _ q h fuel Ht Hq ltac:(lia))).
    cbn [env_entry]. unfold assoc_result.
    destruct (assoc_entry _ _) as [e|]; [by rewrite pair_ptr_not_null|].
    rewrite lisp_null_is_null. cbn [negb].
    rewrite (bind_Ok_l _ _ _ _ _ (lisp_cdr_spec (pair_ptr _) _ _ _ w eq_refl Hcell)).
    apply IH; [by split|done|].
    intros f' Hf'. specialize (Hfuel f' ltac:(by apply list_elem_of_further)).
    cbn in Hfuel. lia.
Qed.

(** X16.  [lisp_env_lookup] returns the binding of the innermost frame that
    has one for the symbol, so that an inner binding hides the outer
    ones, and null when no frame has one. *)
Theorem lisp_env_lookup_innermost
    (fuel : nat) (env : Lisp) (fs : list Frame) (q h : Z) (w : World) :
  env_at (blocks w) env fs → hash_at (blocks w) q h → env_fuel h fs fuel →
  lisp_env_lookup fuel env (symbol_ptr q) w =
    Ok (match env_entry (symbol_ptr q) h fs with
        | Some e => pair_ptr (entry_pair e)
        | None => lisp_null
        end) w.
Proof. apply env_lookup_spec. Qed.

Lemma env_define_spec
    (fuel : nat) (e t q h capacity : Z) (outer value : Lisp)
    (buckets : list (list Entry)) (w : World) :
  heap_ok w → pair_at (blocks w) e (table_ptr t) outer →
  table_at (blocks w) t capacity buckets → hash_at (blocks w) q h →
  (length (bucket_of capacity buckets h) < fuel)%nat →
  ∃ w' p k,
    lisp_env_define fuel (pair_ptr e) (symbol_ptr q) value w = Ok tt w' ∧
    lisp_env_lookup (S fuel) (pair_ptr e) (symbol_ptr q) w' = Ok (pair_ptr p) w' ∧
    pair_at (blocks w') p k value ∧ lisp_eq k (symbol_ptr q) = true.
Proof.
  intros Hok He Ht Hq Hf.
  destruct (table_set_spec w t capacity buckets q h value fuel Hok Ht Hq)
    as (w' & buckets' & en & Hset & Hok' & _ & Ht' & Hfind & Hval & Hlen & _ & _ & Hframe);
    [lia|].
  pose proof Hq as (bq & name & Hbq & Hdq).
  assert (Hq' : hash_at (blocks w') q h).
  { exists bq, name. split; [|done].
    apply Hframe; [done|by rewrite Hdq|]. intros k v Hk. by rewrite Hdq in Hk. }
  assert (He' : pair_at (blocks w') e (table_ptr t) outer).
  { destruct He as (be & Hbe & Hde). exists be. split; [|done].
    apply Hframe; [done|by rewrite Hde|].
    intros k v Hk. rewrite Hde in Hk. injection Hk as <- <-. cbn. intros [= ->].
    destruct Ht as (bt & ? & ? & Hbt & Hdt & _). rewrite Hbq in Hbt. injection Hbt as <-.
    by rewrite Hdq in Hdt. }
  pose proof Hfind as Hfind0. unfold assoc_entry in Hfind.
  apply find_some in Hfind as [Hin Heq]. apply list_elem_of_In in Hin.
  destruct (table_at_bucket _ _ _ _ h Ht') as (_ & _ & _ & it & _ & _ & _ & _ & _ & _ & _ & Hal).
  destruct (alist_length _ _ _ Hal en Hin) as [_ Hpe].
  exists w', (entry_pair en), (entry_key en). split.
  { unfold lisp_env_define.
    by rewrite (bind_Ok_l _ _ _ _ _ (lisp_car_spec (pair_ptr _) _ _ _ w eq_refl He)). }
  split.
  { cbn [lisp_env_lookup]. rewrite pair_ptr_not_null.
    rewrite (bind_Ok_l _ _ _ _ _ (lisp_car_spec (pair_ptr _) _ _ _ w' eq_refl He')).
    rewrite (bind_Ok_l _ _ _ _ _ (table_get_spec w' t capacity buckets' q h fuel Ht' Hq' ltac:(lia))).
    unfold assoc_result. rewrite Hfind0. by rewrite pair_ptr_not_null. }
  split; [by rewrite <- Hval|done].
Qed.


(** X17.  After [lisp_env_define] bound a symbol in an environment,
    [lisp_env_lookup] finds a pair that holds the value, whatever the
    outer frames bind. *)
Theorem lisp_env_define_then_lookup
    (fuel : nat) (e t q h capacity : Z) (outer value : Lisp)
    (buckets : list (list Entry)) (w : World) :
  heap_ok w → pair_at (blocks w) e (table_ptr t) outer →
  table_at (blocks w) t capacity buckets → hash_at (blocks w) q h →
  (length (bucket_of capacity buckets h) < fuel)%nat →
  ∃ w' p k,
    lisp_env_define fuel (pair_ptr e) (symbol_ptr q) value w = Ok tt w' ∧
    lisp_env_lookup (S fuel) (pair_ptr e) (symbol_ptr q) w' = Ok (pair_ptr p) w' ∧
    pair_at (blocks w') p k value ∧ lisp_eq k (symbol_ptr q) = true.
Proof. apply env_define_spec. Qed.

(** ** The evaluator *)

Lemma env_entry_pair m env q h : ∀ fs e,
  env_at m env fs → env_entry (symbol_ptr q) h fs = Some e →
  pair_at m (entry_pair e) (entry_key e) (entry_value e).
Proof.
  intros fs. revert env. induction fs as [|f fs IH]; intros env e [Hc Hall] He; [done|].
  cbn in Hc. destruct Hc as (-> & next & Hcell & Hc).
  apply Forall_cons in Hall as [Ht Hall]. cbn in He.
  destruct (assoc_entry _ _) as [e'|] eqn:Hfind.
  - injection He as ->. unfold assoc_entry in Hfind.
    apply find_some in Hfind as [Hin _]. apply list_elem_of_In in Hin.
    destruct (table_at_bucket _ _ _ _ h Ht) as (_ & _ & _ & it & _ & _ & _ & _ & _ & _ & _ & Hal).
    by destruct (alist_length _ _ _ Hal e Hin).
  - eapply IH; [by split|done].
Qed.

Lemma op_name_of_symbol w x a s d name :
  x = pair_ptr a → pair_at (blocks w) a (symbol_ptr s) d → symbol_at (blocks w) s name →
  op_name_of x w = Ok (Some name) w.
Proof.
  intros -> Hp Hs. unfold op_name_of.
  rewrite (bind_Ok_l _ _ _ _ _ (lisp_car_spec (pair_ptr _) _ _ _ w eq_refl Hp)).
  rewrite bool_decide_eq_true_2 by done.
  by rewrite (bind_Ok_l _ _ _ _ _ (lisp_symbol_spec _ _ _ Hs)).
Qed.

Section WithFuncs.
Variable funcs : nat → Lisp → M (Lisp * LispError).

(** X18.  Evaluating a symbol returns the value bound to it in the innermost
    frame that binds it; when no frame does, a diagnostic is printed and
    the error [LISP_ERROR_UNKNOWN_VAR] is raised. *)
Theorem eval_variable_reference
    (fuel : nat) (env : Lisp) (fs : list Frame) (q h : Z) (b : LispBlock)
    (name : string) (w : World) :
  env_at (blocks w) env fs → fs ≠ [] →
  blocks w !! q = Some b → data b = DSymbol h name → env_fuel h fs fuel →
  eval_r funcs (S fuel) (symbol_ptr q) env w =
    match env_entry (symbol_ptr q) h fs with
    | Some e => Ok (entry_value e) w
    | None => Throw LISP_ERROR_UNKNOWN_VAR
                (fprintf_stderr ("cannot find variable: " ++ name) w)
    end.
Proof.
  intros Henv Hne Hb Hd Hfuel.
  assert (Hq : hash_at (blocks w) q h) by (by exists b, name).
  assert (Hs : symbol_at (blocks w) q name) by (by exists b, h).
  assert (Hnull : lisp_is_null env = false).
  { destruct fs as [|f fs]; [done|]. destruct Henv as [(-> & _) _]. done. }
  cbn [eval_r]. rewrite Hnull. cbn [negb assert]. rewrite bind_ret. cbn [lisp_type symbol_ptr].
  rewrite (bind_Ok_l _ _ _ _ _ (env_lookup_spec w q h fs env fuel Henv Hq Hfuel)).
  destruct (env_entry (symbol_ptr q) h fs) as [e|] eqn:He.
  - rewrite pair_ptr_not_null.
    eapply lisp_cdr_spec; [done|]. by eapply env_entry_pair.
  - rewrite lisp_null_is_null.
    rewrite (bind_Ok_l _ _ _ _ _ (lisp_symbol_spec _ _ _ Hs)).
    by rewrite bind_modify.
Qed.

(** X19.  Evaluating [(quote d)] returns [d] itself: the datum is not
    evaluated and nothing is changed. *)
Theorem eval_quote_returns_datum
    (fuel : nat) (x env d tl : Lisp) (a a2 s : Z) (rest : list (Z * Lisp)) (w : World) :
  chain (blocks w) x ((a, symbol_ptr s) :: (a2, d) :: rest) tl →
  symbol_at (blocks w) s "QUOTE" → lisp_is_null env = false →
  eval_r funcs (S fuel) x env w = Ok d w.
Proof.
  intros Hc Hs Hnull. pose proof Hc as Hc0.
  cbn in Hc. destruct Hc as (-> & next & Hp & _).
  cbn [eval_r]. rewrite Hnull. cbn [negb assert]. rewrite bind_ret. cbn [lisp_type pair_ptr].
  rewrite (bind_Ok_l _ _ _ _ _ (op_name_of_symbol w _ a s _ "QUOTE" eq_refl Hp Hs)).
  unfold is_op. rewrite !bool_decide_eq_false_2 by done. rewrite bool_decide_eq_true_2 by done.
  by eapply (lisp_at_index_chain w _ _ _ 1%nat).
Qed.

(** X20.  Evaluating [(lambda args body ...)] makes a closure of the formals,
    the first body form and the current environment; its identifier is
    the lambda counter, which is then advanced. *)
Theorem eval_lambda_makes_closure
    (fuel : nat) (x env args body tl : Lisp) (a a1 a2 s : Z)
    (rest : list (Z * Lisp)) (w : World) :
  chain (blocks w) x ((a, symbol_ptr s) :: (a1, args) :: (a2, body) :: rest) tl →
  symbol_at (blocks w) s "LAMBDA" → lisp_is_null env = false →
  heap_ok w → lambda_counter (ctx w) < INT_MAX →
  ∃ p w',
    eval_r funcs (S fuel) x env w = Ok (mkLisp LISP_LAMBDA (Ptr p)) w' ∧
    lisp_lambda (mkLisp LISP_LAMBDA (Ptr p)) w' =
      Ok (lambda_counter (ctx w), args, body, env) w' ∧
    lambda_counter (ctx w') = lambda_counter (ctx w) + 1 ∧
    blocks w !! p = None ∧ (∀ a', a' ≠ p → blocks w' !! a' = blocks w !! a').
Proof.
  intros Hc Hs Hnull Hok Hcount. pose proof Hc as Hc0.
  cbn in Hc. destruct Hc as (-> & next & Hp & _).
  destruct (lisp_make_lambda_spec args body env w Hok) as (p & w' & Hmk & H).
  exists p, w'. split; [|done].
  cbn [eval_r]. rewrite Hnull. cbn [negb assert]. rewrite bind_ret. cbn [lisp_type pair_ptr].
  rewrite (bind_Ok_l _ _ _ _ _ (op_name_of_symbol w _ a s _ "LAMBDA" eq_refl Hp Hs)).
  unfold is_op. rewrite !bool_decide_eq_false_2 by done. rewrite bool_decide_eq_true_2 by done.
  rewrite (bind_Ok_l _ _ _ _ _ (lisp_at_index_chain w _ _ _ 1%nat _ _ Hc0 eq_refl)).
  by rewrite (bind_Ok_l _ _ _ _ _ (lisp_at_index_chain w _ _ _ 2%nat _ _ Hc0 eq_refl)).
Qed.

(** X21.  Evaluating [(define s e)] evaluates [e], binds [s] to the value in
    the innermost frame and returns null; evaluating [s] afterwards
    returns that value. *)
Theorem eval_define_binds
    (fuel : nat) (x env e v tl outer : Lisp) (a a1 a2 s q ec t h capacity : Z)
    (rest : list (Z * Lisp)) (buckets : list (list Entry)) (w w1 : World) :
  chain (blocks w) x ((a, symbol_ptr s) :: (a1, symbol_ptr q) :: (a2, e) :: rest) tl →
  symbol_at (blocks w) s "DEFINE" → env = pair_ptr ec →
  eval_r funcs fuel e env w = Ok v w1 →
  heap_ok w1 → pair_at (blocks w1) ec (table_ptr t) outer →
  table_at (blocks w1) t capacity buckets → hash_at (blocks w1) q h →
  (length (bucket_of capacity buckets h) < fuel)%nat →
  ∃ w2,
    eval_r funcs (S fuel) x env w = Ok lisp_null w2 ∧
    eval_r funcs (S (S fuel)) (symbol_ptr q) env w2 = Ok v w2.
Proof.
  intros Hc Hs -> Hev Hok1 Hec Ht Hq Hf. pose proof Hc as Hc0.
  cbn in Hc. destruct Hc as (-> & next & Hp & _).
  destruct (env_define_spec fuel ec t q h capacity outer v buckets w1 Hok1 Hec Ht Hq Hf)
    as (w2 & p & k & Hdef & Hlook & Hpk & _).
  exists w2. split.
  - cbn [eval_r]. rewrite pair_ptr_not_null. cbn [negb assert]. rewrite bind_ret.
    cbn [lisp_type pair_ptr].
    rewrite (bind_Ok_l _ _ _ _ _ (op_name_of_symbol w _ a s _ "DEFINE" eq_refl Hp Hs)).
    unfold is_op. rewrite !bool_decide_eq_false_2 by done. rewrite bool_decide_eq_true_2 by done.
    rewrite (bind_Ok_l _ _ _ _ _ (lisp_at_index_chain w _ _ _ 1%nat _ _ Hc0 eq_refl)).
    rewrite (bind_Ok_l _ _ _ _ _ (lisp_at_index_chain w _ _ _ 2%nat _ _ Hc0 eq_refl)).
    rewrite (bind_Ok_l _ _ _ _ _ Hev).
    by rewrite (bind_Ok_l _ _ _ _ _ Hdef).
  - change (eval_r funcs (S (S fuel)) (symbol_ptr q) (pair_ptr ec) w2)
      with ((assert (negb (lisp_is_null (pair_ptr ec)));;
             do pair <- lisp_env_lookup (S fuel) (pair_ptr ec) (symbol_ptr q);
             if lisp_is_null pair then
               do name <- lisp_symbol (symbol_ptr q);
               modify (fprintf_stderr ("cannot find variable: " ++ name));;
               longjmp LISP_ERROR_UNKNOWN_VAR
             else lisp_cdr pair) w2).
    rewrite pair_ptr_not_null. cbn [negb assert]. rewrite bind_ret.
    rewrite (bind_Ok_l _ _ _ _ _ Hlook). rewrite pair_ptr_not_null.
    by eapply lisp_cdr_spec.
Qed.

End WithFuncs.

(** ** Allocation and pairs *)

(** X9.  [gc_alloc] returns the address of a block that was not there before,
    with the size and the type asked for; the blocks that existed are
    unchanged and the heap keeps its shape. *)
Theorem gc_alloc_returns_fresh_block (n : Z) (ty : LispType) (w : World) :
  heap_ok w → 0 <= n → n + sizeof_LispBlock < 2 ^ 31 →
  ∃ a w',
    gc_alloc n ty w = Ok a w' ∧
    blocks w !! a = None ∧
    blocks w' !! a = Some (mkBlock GC_CLEAR n ty DUninit) ∧
    (∀ a', a' ≠ a → blocks w' !! a' = blocks w !! a') ∧
    heap_ok w' ∧ same_roots w w'.
Proof.
  intros Hok Hn Hsize.
  destruct (heap_alloc_spec n ty GC_CLEAR w Hok Hn Hsize)
    as (a & w' & Halloc & Hfresh & Hblocks & Hok' & Hroots).
  exists a, w'. split; [done|]. split; [done|].
  split; [by rewrite Hblocks, lookup_insert_eq|]. split; [|done].
  intros a' Ha'. by rewrite Hblocks, lookup_insert_ne.
Qed.

(** X8.  [lisp_cons] makes a new pair: [lisp_car] and [lisp_cdr] read its two
    fields back, and no block that existed is changed. *)
Theorem lisp_cons_round_trip (x y : Lisp) (w : World) :
  heap_ok w →
  ∃ a w',
    lisp_cons x y w = Ok (pair_ptr a) w' ∧
    lisp_car (pair_ptr a) w' = Ok x w' ∧
    lisp_cdr (pair_ptr a) w' = Ok y w' ∧
    blocks w !! a = None ∧ blocks w ⊆ blocks w' ∧ heap_ok w'.
Proof.
  intros Hok.
  destruct (lisp_cons_spec x y w Hok) as (a & w' & Hcons & Hfresh & Hblocks & Hok' & _).
  assert (Hp : pair_at (blocks w') a x y).
  { exists (pair_block x y). by rewrite Hblocks, lookup_insert_eq. }
  exists a, w'. split; [done|].
  split; [by eapply lisp_car_spec|]. split; [by eapply lisp_cdr_spec|].
  split; [done|]. split; [|done]. rewrite Hblocks. by apply insert_subseteq.
Qed.

(** ** The expander *)

(** X22.  The expander returns a form [(quote d)] as it is: the datum is not
    looked at and nothing is changed. *)
Theorem expand_leaves_quote_form
    (fuel : nat) (l d : Lisp) (a a2 s : Z) (w : World) :
  chain (blocks w) l [(a, symbol_ptr s); (a2, d)] lisp_null →
  symbol_at (blocks w) s "QUOTE" → (2 ≤ fuel)%nat →
  expand_r (S fuel) l w = Ok l w.
Proof.
  intros Hc Hs Hf. pose proof Hc as Hc0.
  cbn in Hc. destruct Hc as (-> & next & Hp & _).
  cbn [expand_r]. rewrite bool_decide_eq_false_2 by done. rewrite bind_ret.
  rewrite bool_decide_eq_true_2 by done.
  rewrite (bind_Ok_l _ _ _ _ _ (op_name_of_symbol w _ a s _ "QUOTE" eq_refl Hp Hs)).
  unfold is_op. rewrite bool_decide_eq_true_2 by done.
  by rewrite (bind_Ok_l _ _ _ _ _ (lisp_length_chain w _ _ fuel Hc0 Hf)).
Qed.

(** X23.  The expander checks the number of elements of [quote], [define],
    [set!], [and] and [or] forms before anything else and raises the
    error of the form when it is wrong, leaving memory as it was. *)
Theorem expand_arity_errors
    (fuel : nat) (l : Lisp) (a s : Z) (cells : list (Z * Lisp)) (name : string) (w : World) :
  chain (blocks w) l ((a, symbol_ptr s) :: cells) lisp_null →
  symbol_at (blocks w) s name → (length cells < fuel)%nat →
  (name = "QUOTE" → length cells ≠ 1%nat →
   expand_r (S fuel) l w = Throw LISP_ERROR_BAD_QUOTE w) ∧
  (name = "DEFINE" → (length cells < 2)%nat →
   expand_r (S fuel) l w = Throw LISP_ERROR_BAD_DEFINE w) ∧
  (name = "SET!" → length cells ≠ 2%nat →
   expand_r (S fuel) l w = Throw LISP_ERROR_BAD_SET w) ∧
  (name = "AND" → cells = [] →
   expand_r (S fuel) l w = Throw LISP_ERROR_BAD_AND w) ∧
  (name = "OR" → cells = [] →
   expand_r (S fuel) l w = Throw LISP_ERROR_BAD_OR w).
Proof.
  intros Hc Hs Hf. pose proof Hc as Hc0.
  cbn in Hc. destruct Hc as (-> & next & Hp & _).
  assert (Hlen : lisp_length fuel (pair_ptr a) w = Ok (Z.of_nat (S (length cells))) w).
  { apply (lisp_length_chain w ((a, symbol_ptr s) :: cells)); [done|cbn; lia]. }
  assert (Hhead : op_name_of (pair_ptr a) w = Ok (Some name) w).
  { by eapply op_name_of_symbol. }
  split; [|split; [|split; [|split]]]; intros -> Hn;
    cbn [expand_r]; rewrite bool_decide_eq_false_2 by done; rewrite bind_ret;
    rewrite bool_decide_eq_true_2 by done; rewrite (bind_Ok_l _ _ _ _ _ Hhead);
    unfold is_op.
  - rewrite bool_decide_eq_true_2 by done.
    rewrite (bind_Ok_l _ _ _ _ _ Hlen).
    replace (Z.of_nat (S (length cells)) =? 2) with false; [done|].
    symmetry. apply Z.eqb_neq. lia.
  - rewrite bool_decide_eq_false_2 by done. rewrite bool_decide_eq_true_2 by done.
    rewrite (bind_Ok_l _ _ _ _ _ Hlen).
    replace (Z.of_nat (S (length cells)) <? 3) with true; [done|].
    symmetry. apply Z.ltb_lt. lia.
  - rewrite !bool_decide_eq_false_2 by done. rewrite bool_decide_eq_true_2 by done.
    rewrite (bind_Ok_l _ _ _ _ _ Hlen).
    replace (Z.of_nat (S (length cells)) =? 3) with false; [done|].
    symmetry. apply Z.eqb_neq. lia.
  - subst cells. rewrite !bool_decide_eq_false_2 by done.
    rewrite bool_decide_eq_true_2 by done.
    by rewrite (bind_Ok_l _ _ _ _ _ Hlen).
  - subst cells. rewrite !bool_decide_eq_false_2 by done.
    rewrite bool_decide_eq_true_2 by done.
    by rewrite (bind_Ok_l _ _ _ _ _ Hlen).
Qed.

(** ** The reader *)

(** X24.  [lisp_read] returns null with [LISP_ERROR_PAREN_EXPECTED] for a
    program with no token and for a list that the end of the program cuts
    off after its opening parenthesis, and with
    [LISP_ERROR_PAREN_UNEXPECTED] for a program that starts with a closing
    parenthesis; memory is left as it was. *)
Theorem lisp_read_paren_errors
    (atof : string → spec_float) (fuel : nat) (program : string) (w : World) :
  let lex := lexer_next_token (lexer_init program) in
  (token lex = TOKEN_NONE →
   lisp_read atof (S fuel) program w = Ok (lisp_null, LISP_ERROR_PAREN_EXPECTED) w) ∧
  (token lex = TOKEN_R_PAREN →
   lisp_read atof (S fuel) program w = Ok (lisp_null, LISP_ERROR_PAREN_UNEXPECTED) w) ∧
  (token lex = TOKEN_L_PAREN → token (lexer_next_token lex) = TOKEN_NONE →
   lisp_read atof (S (S fuel)) program w = Ok (lisp_null, LISP_ERROR_PAREN_EXPECTED) w).
Proof.
  intros lex. unfold lisp_read, parse, catch, parse_body. fold lex.
  split; [|split].
  - intros Htok. cbn [parse_list_r]. by rewrite Htok.
  - intros Htok. cbn [parse_list_r]. by rewrite Htok.
  - intros Htok Hnext. cbn [parse_list_r]. rewrite Htok.
    cbn [parse_items]. rewrite bool_decide_eq_false_2 by (by rewrite Hnext).
    cbn [parse_list_r]. by rewrite Hnext.
Qed.

(** ** The lexer *)

Lemma append_cons b s t : (String b s ++ t)%string = String b (s ++ t)%string.
Proof. reflexivity. Qed.

Lemma append_nil t : ("" ++ t)%string = t.
Proof. reflexivity. Qed.








Lemma peek_nonempty lex : peek lex ≠ NUL → lex_c lex ≠ EmptyString.
Proof. unfold peek. by destruct (lex_c lex). Qed.


Lemma is_char_nonempty lex s : s ≠ String NUL "" → is_char (peek lex) s = true →
  lex_c lex ≠ EmptyString.
Proof.
  intros Hs H. apply peek_nonempty. intros Hn. rewrite Hn in H.
  unfold is_char in H. apply bool_decide_eq_true in H. congruence.
Qed.





Lemma is_symbol_NUL : is_symbol NUL = false.
Proof. done. Qed.










(** ** lisp_nav *)

Lemma bind_ret_r {A} (m : M A) w : bind m ret w = m w.
Proof. unfold bind, ret. by destruct (m w). Qed.

Lemma bind_ext {A B} (m : M A) (k k' : A → M B) w :
  (∀ a w', k a w' = k' a w') → bind m k w = bind m k' w.
Proof. intros H. unfold bind. destruct (m w); auto. Qed.

Lemma nav_scan_app (p : list ascii) (r0 : ascii) (tail : string) :
  Forall (λ a, nav_stop a = false) p → nav_stop r0 = true →
  nav_scan (string_of_list_ascii p ++ String r0 tail) = (p, String r0 tail).
Proof.
  intros Hp Hr. induction Hp as [|a p Ha Hp IH]; cbn.
  - rewrite append_nil. cbn. by rewrite Hr.
  - rewrite append_cons. cbn. by rewrite Ha, IH.
Qed.

Lemma lisp_nav_loop_app (p q : list ascii) (l : Lisp) w :
  Forall (λ a, toupper a = "D"%char ∨ toupper a = "A"%char) p →
  lisp_nav_loop (p ++ q) l w = (do l' <- lisp_nav_loop p l; lisp_nav_loop q l') w.
Proof.
  intros Hp. revert l w. induction Hp as [|a p Ha Hp IH]; intros l w.
  - reflexivity.
  - cbn [app lisp_nav_loop]. case_bool_decide as HD.
    + rewrite bind_bind. apply bind_ext. intros. apply IH.
    + destruct Ha as [Ha|Ha]; [done|]. rewrite bool_decide_eq_true_2 by done.
      rewrite bind_bind. apply bind_ext. intros. apply IH.
Qed.

Lemma lisp_nav_path (l : Lisp) (c0 r0 : ascii) (p : list ascii) (tail : string) w :
  toupper c0 = "C"%char → toupper r0 = "R"%char →
  Forall (λ a, nav_stop a = false) p →
  lisp_nav l (String c0 (string_of_list_ascii p ++ String r0 tail)) w
    = lisp_nav_loop (rev p) l w.
Proof.
  intros Hc Hr Hp. unfold lisp_nav. cbn [head_char string_tail].
  rewrite bool_decide_eq_true_2 by done. cbn [negb].
  rewrite nav_scan_app; [|done|].
  - cbn [head_char]. by rewrite bool_decide_eq_true_2.
  - unfold nav_stop. by rewrite bool_decide_eq_true_2.
Qed.

Lemma nav_letter_not_stop a :
  toupper a = "D"%char ∨ toupper a = "A"%char → nav_stop a = false.
Proof.
  intros Ha. unfold nav_stop. apply orb_false_intro; apply bool_decide_eq_false_2.
  - destruct Ha as [-> | ->]; done.
  - intros ->. destruct Ha as [Ha|Ha]; vm_compute in Ha; congruence.
Qed.

(** X29.  [lisp_nav] with a path [c...r] applies the letters between [c] and
    the first [r] from right to left, [a] as [lisp_car] and [d] as
    [lisp_cdr], in either case of the letters: [cr] returns the value
    itself, and the path [p1 p2] is the path [p2] followed by the path
    [p1].  What follows the first [r] is not read. *)
Theorem lisp_nav_composes (l : Lisp) (c0 r0 : ascii) (tail : string) (w : World) :
  toupper c0 = "C"%char → toupper r0 = "R"%char →
  lisp_nav l (String c0 (String r0 tail)) w = Ok l w ∧
  (∀ a, toupper a = "A"%char →
        lisp_nav l (String c0 (String a (String r0 tail))) w = lisp_car l w) ∧
  (∀ a, toupper a = "D"%char →
        lisp_nav l (String c0 (String a (String r0 tail))) w = lisp_cdr l w) ∧
  (∀ p1 p2,
     Forall (λ a, nav_stop a = false) p1 →
     Forall (λ a, toupper a = "D"%char ∨ toupper a = "A"%char) p2 →
     lisp_nav l (String c0 (string_of_list_ascii (p1 ++ p2) ++ String r0 tail)) w =
       (do l' <- lisp_nav l (String c0 (string_of_list_ascii p2 ++ String r0 EmptyString));
        lisp_nav l' (String c0 (string_of_list_ascii p1 ++ String r0 EmptyString))) w).
Proof.
  intros Hc Hr. split; [|split; [|split]].
  - exact (lisp_nav_path l c0 r0 [] tail w Hc Hr ltac:(constructor)).
  - intros a Ha.
    assert (Hp : Forall (λ a, nav_stop a = false) [a]).
    { constructor; [|done]. apply nav_letter_not_stop. by right. }
    etrans; [exact (lisp_nav_path l c0 r0 [a] tail w Hc Hr Hp)|].
    cbn [rev app lisp_nav_loop]. rewrite bool_decide_eq_false_2 by (rewrite Ha; done).
    rewrite bool_decide_eq_true_2 by done. apply bind_ret_r.
  - intros a Ha.
    assert (Hp : Forall (λ a, nav_stop a = false) [a]).
    { constructor; [|done]. apply nav_letter_not_stop. by left. }
    etrans; [exact (lisp_nav_path l c0 r0 [a] tail w Hc Hr Hp)|].
    cbn [rev app lisp_nav_loop]. rewrite bool_decide_eq_true_2 by done. apply bind_ret_r.
  - intros p1 p2 Hp1 Hp2.
    assert (Hp2' : Forall (λ a, nav_stop a = false) p2).
    { eapply Forall_impl; [exact Hp2|]. apply nav_letter_not_stop. }
    rewrite lisp_nav_path by (try done; by apply Forall_app).
    rewrite rev_app_distr, lisp_nav_loop_app.
    2:{ apply Forall_forall. intros a Ha. rewrite Forall_forall in Hp2.
        apply Hp2. apply list_elem_of_In. apply in_rev. by apply list_elem_of_In. }
    unfold bind. rewrite (lisp_nav_path l c0 r0 p2 EmptyString w) by done.
    destruct (lisp_nav_loop (rev p2) l w) as [l' w'| | |]; try done.
    by rewrite lisp_nav_path.
Qed.

Lemma nav_scan_no_r (c : string) :
  Forall (λ a, toupper a ≠ "R"%char) (list_ascii_of_string c) →
  toupper (head_char (nav_scan c).2) ≠ "R"%char.
Proof.
  induction c as [|a c IH]; cbn; intros Hc.
  - vm_compute. congruence.
  - apply Forall_cons in Hc as [Ha Hc]. destruct (nav_stop a) eqn:Hs; cbn.
    + done.
    + specialize (IH Hc). by destruct (nav_scan c).
Qed.

(** X30.  [lisp_nav] returns null for a path that does not start with [c], for
    a path with no [r], and for a path with a letter other than [a] and
    [d] before the [r]; in the last case the letters to the right of the
    wrong one are applied first. *)
Theorem lisp_nav_malformed (l : Lisp) (w : World) :
  (∀ c, toupper (head_char c) ≠ "C"%char → lisp_nav l c w = Ok lisp_null w) ∧
  (∀ c, Forall (λ a, toupper a ≠ "R"%char) (list_ascii_of_string c) →
        lisp_nav l c w = Ok lisp_null w) ∧
  (∀ c0 r0 p1 x p2 tail,
     toupper c0 = "C"%char → toupper r0 = "R"%char →
     Forall (λ a, nav_stop a = false) p1 → nav_stop x = false →
     toupper x ≠ "D"%char → toupper x ≠ "A"%char →
     Forall (λ a, toupper a = "D"%char ∨ toupper a = "A"%char) p2 →
     lisp_nav l (String c0 (string_of_list_ascii (p1 ++ x :: p2) ++ String r0 tail)) w =
       (lisp_nav l (String c0 (string_of_list_ascii p2 ++ String r0 EmptyString));;
        ret lisp_null) w).
Proof.
  split; [|split].
  - intros c Hc. unfold lisp_nav. by rewrite bool_decide_eq_false_2.
  - intros c Hc. unfold lisp_nav. case_bool_decide as Hhead; [|done]. cbn [negb].
    assert (Htail : Forall (λ a, toupper a ≠ "R"%char) (list_ascii_of_string (string_tail c))).
    { destruct c as [|a c]; [done|]. cbn in Hc |- *. by apply Forall_cons in Hc as [_ Hc]. }
    pose proof (nav_scan_no_r _ Htail) as Hno.
    destruct (nav_scan (string_tail c)) as [path stop]. cbn in Hno.
    by rewrite bool_decide_eq_false_2.
  - intros c0 r0 p1 x p2 tail Hc Hr Hp1 Hx HxD HxA Hp2.
    assert (Hp2' : Forall (λ a, nav_stop a = false) p2).
    { eapply Forall_impl; [exact Hp2|]. apply nav_letter_not_stop. }
    rewrite lisp_nav_path; try done.
    2:{ apply Forall_app. split; [done|]. by apply Forall_cons. }
    rewrite rev_app_distr. cbn [rev]. rewrite <- app_assoc. rewrite lisp_nav_loop_app.
    2:{ apply Forall_forall. intros a Ha. rewrite Forall_forall in Hp2.
        apply Hp2. apply list_elem_of_In. apply in_rev. by apply list_elem_of_In. }
    unfold bind. rewrite (lisp_nav_path l c0 r0 p2 EmptyString w) by done.
    destruct (lisp_nav_loop (rev p2) l w) as [l' w'| | |]; try done.
    cbn [app lisp_nav_loop]. by rewrite !bool_decide_eq_false_2.
Qed.


(** ** lisp_env_set *)

Lemma alist_update w w' p k v0 value q bq h name :
  blocks w !! q = Some bq → data bq = DSymbol h name →
  pair_at (blocks w) p k v0 → lisp_val k = Ptr q →
  pair_at (blocks w') p k value →
  (∀ a, a ≠ p → blocks w' !! a = blocks w !! a) →
  ∀ es l, alist (blocks w) l es → alist (blocks w') l (map (update_entry p value) es).
Proof.
  intros Hbq Hdq Hpe Hkey Hp' Hframe.
  assert (Hcells : ∀ es' l' e', alist (blocks w) l' es' → e' ∈ es' → entry_cell e' ≠ p).
  { intros es' l' e' Hal' He' Hcp.
    destruct (alist_length _ _ _ Hal' e' He') as [(next & bc & Hbc & Hdc) (bp' & Hbp' & Hdp')].
    destruct Hpe as (bp & Hbp & Hdp). rewrite Hcp, Hbp in Hbc. injection Hbc as <-.
    rewrite Hdp in Hdc. injection Hdc as Hk _. rewrite Hk in Hkey. cbn in Hkey.
    injection Hkey as Hkey. rewrite Hkey, Hbq in Hbp'. injection Hbp' as <-.
    by rewrite Hdq in Hdp'. }
  intros es' l' Hal'. pose proof Hal' as [Hc' Hall']. split.
  - rewrite map_map.
    rewrite (map_ext _ (fun e => (entry_cell e, pair_ptr (entry_pair e))))
      by (intros e'; unfold update_entry; by case_bool_decide).
    eapply chain_frame; [|done]. intros a Ha.
    rewrite <- list_fmap_compose in Ha. apply list_elem_of_fmap in Ha as (e' & -> & He').
    apply Hframe. cbn. by eapply Hcells.
  - apply Forall_forall. intros e1 He1. apply list_elem_of_In in He1.
    apply in_map_iff in He1 as (e' & <- & He'). apply list_elem_of_In in He'.
    destruct (alist_length _ _ _ Hal' e' He') as [_ (bp' & Hbp' & Hdp')].
    unfold update_entry. case_bool_decide as Hcase; cbn.
    + rewrite Hcase. destruct Hpe as (bp & Hbp & Hdp).
      rewrite Hcase, Hbp in Hbp'. injection Hbp' as <-.
      rewrite Hdp in Hdp'. injection Hdp' as <- _. done.
    + exists bp'. split; [|done]. by rewrite Hframe.
Qed.

Lemma bucket_of_update capacity buckets p value h :
  bucket_of capacity (map (map (update_entry p value)) buckets) h
    = map (update_entry p value) (bucket_of capacity buckets h).
Proof.
  unfold bucket_of.
  change (map (map (update_entry p value)) buckets)
    with (map (update_entry p value) <$> buckets).
  rewrite list_lookup_fmap.
  destruct (buckets !! Z.to_nat (h mod capacity)); reflexivity.
Qed.

Lemma env_at_update w w' p k v0 value q bq h name :
  blocks w !! q = Some bq → data bq = DSymbol h name →
  pair_at (blocks w) p k v0 → lisp_val k = Ptr q →
  pair_at (blocks w') p k value →
  (∀ a, a ≠ p → blocks w' !! a = blocks w !! a) →
  ∀ fs env, env_at (blocks w) env fs → env_at (blocks w') env (map (update_frame p value) fs).
Proof.
  intros Hbq Hdq Hpe Hkey Hp' Hframe fs env [Hc Hall].
  assert (Htab : ∀ f, f ∈ fs → frame_table f ≠ p).
  { intros f Hf Heq. rewrite Forall_forall in Hall.
    destruct (Hall f Hf) as (b & size & entries & Hb & Hd & _).
    destruct Hpe as (bp & Hbp & Hdp). rewrite Heq, Hbp in Hb. injection Hb as ->.
    by rewrite Hd in Hdp. }
  split.
  - rewrite map_map. cbn.
    assert (Hcells : ∀ a, a ∈ (map (λ f, (frame_cell f, table_ptr (frame_table f))) fs).*1 →
                          blocks w' !! a = blocks w !! a).
    { intros a Ha. apply Hframe. intros ->.
      clear Hframe Hp'. revert env Hc Ha. induction fs as [|f fs IH]; intros env Hc Ha.
      - by apply elem_of_nil in Ha.
      - cbn in Hc. destruct Hc as (-> & next & Hcell & Hc).
        apply Forall_cons in Hall as [Ht Hall].
        cbn in Ha. apply elem_of_cons in Ha as [Ha|Ha].
        + destruct Hcell as (bc & Hbc & Hdc). destruct Hpe as (bp & Hbp & Hdp).
          rewrite <- Ha, Hbp in Hbc. injection Hbc as <-.
          rewrite Hdp in Hdc. injection Hdc as Hk _. rewrite Hk in Hkey. cbn in Hkey.
          injection Hkey as Hkey.
          destruct Ht as (b & size & entries & Hb & Hd & _).
          rewrite Hkey, Hbq in Hb. injection Hb as <-. by rewrite Hdq in Hd.
        + eapply IH; [done| |exact Hc|exact Ha].
          intros f' Hf'. apply Htab. by apply list_elem_of_further. }
    by eapply chain_frame.
  - apply Forall_forall. intros f1 Hf1. apply list_elem_of_In in Hf1.
    apply in_map_iff in Hf1 as (f & <- & Hf). apply list_elem_of_In in Hf.
    rewrite Forall_forall in Hall.
    destruct (Hall f Hf) as (b & size & entries & Hb & Hd & Hcap & Hlen & Hal).
    exists b, size, entries. cbn. split; [rewrite Hframe; [done|by apply Htab]|].
    split; [done|]. split; [done|]. split; [done|].
    apply Forall2_fmap_r. eapply Forall2_impl; [exact Hal|]. intros l' es'.
    intros Hal1. cbn. exact (alist_update w w' p k v0 value q bq h name Hbq Hdq Hpe Hkey Hp' Hframe es' l' Hal1).
Qed.

Lemma env_entry_update key h p value : ∀ fs,
  env_entry key h (map (update_frame p value) fs)
    = update_entry p value <$> env_entry key h fs.
Proof.
  induction fs as [|f fs IH]; [done|]. cbn.
  rewrite bucket_of_update, assoc_entry_update.
  destruct (assoc_entry key _); [done|exact IH].
Qed.

Lemma env_fuel_update h p value fs fuel :
  env_fuel h fs fuel → env_fuel h (map (update_frame p value) fs) fuel.
Proof.
  intros Hf f1 Hf1. apply list_elem_of_In in Hf1.
  apply in_map_iff in Hf1 as (f & <- & Hin). apply list_elem_of_In in Hin.
  cbn. rewrite bucket_of_update, !length_map. by apply Hf.
Qed.

Lemma env_entry_key q h : ∀ fs e,
  env_entry (symbol_ptr q) h fs = Some e → lisp_val (entry_key e) = Ptr q.
Proof.
  intros fs. induction fs as [|f fs IH]; intros e He; [done|]. cbn in He.
  destruct (assoc_entry _ _) as [e'|] eqn:Hfind.
  - injection He as ->. unfold assoc_entry in Hfind.
    apply find_some in Hfind as [_ Heq]. unfold lisp_eq in Heq.
    by apply bool_decide_eq_true in Heq.
  - by apply IH.
Qed.

Lemma env_set_spec
    (fuel : nat) (env : Lisp) (fs : list Frame) (q h : Z) (e : Entry) (value : Lisp)
    (w : World) :
  env_at (blocks w) env fs → hash_at (blocks w) q h → env_fuel h fs fuel →
  env_entry (symbol_ptr q) h fs = Some e →
  ∃ w',
    lisp_env_set fuel env (symbol_ptr q) value w = Ok tt w' ∧
    pair_at (blocks w') (entry_pair e) (entry_key e) value ∧
    (∀ a, a ≠ entry_pair e → blocks w' !! a = blocks w !! a) ∧
    ∀ q2 h2, hash_at (blocks w) q2 h2 → env_fuel h2 fs fuel →
      lisp_env_lookup fuel env (symbol_ptr q2) w' =
        Ok (match env_entry (symbol_ptr q2) h2 fs with
            | Some e2 => pair_ptr (entry_pair e2)
            | None => lisp_null
            end) w'.
Proof.
  intros Hat Hq Hfuel He. pose proof Hq as (bq & name & Hbq & Hdq).
  pose proof (env_entry_pair _ _ _ _ _ _ Hat He) as Hpe.
  pose proof (env_entry_key _ _ _ _ He) as Hkey.
  destruct (lisp_set_cdr_spec (pair_ptr (entry_pair e)) _ _ _ value w eq_refl Hpe)
    as (w' & Hset & Hp' & Hframe & _ & _).
  exists w'. split.
  { unfold lisp_env_set.
    rewrite (bind_Ok_l _ _ _ _ _ (env_lookup_spec w q h fs env fuel Hat Hq Hfuel)).
    rewrite He, pair_ptr_not_null. by rewrite bind_ret. }
  split; [done|]. split; [done|].
  intros q2 h2 (b2 & name2 & Hb2 & Hd2) Hfuel2.
  assert (Hq2 : hash_at (blocks w') q2 h2).
  { exists b2, name2. split; [|done]. rewrite Hframe; [done|]. intros ->.
    destruct Hpe as (bp & Hbp & Hdp). rewrite Hb2 in Hbp. injection Hbp as <-.
    by rewrite Hd2 in Hdp. }
  rewrite (env_lookup_spec w' q2 h2 (map (update_frame (entry_pair e) value) fs) env fuel).
  - rewrite env_entry_update. destruct (env_entry (symbol_ptr q2) h2 fs) as [e2|]; [|done].
    cbn. unfold update_entry. by case_bool_decide.
  - exact (env_at_update w w' _ _ _ value q bq h name Hbq Hdq Hpe Hkey Hp' Hframe fs env Hat).
  - done.
  - by apply env_fuel_update.
Qed.

(** X26.  [lisp_env_set] on a bound symbol stores the value in the pair of the
    innermost binding and changes no other block: every symbol is found
    in the same pair as before. *)
Theorem lisp_env_set_updates_binding
    (fuel : nat) (env : Lisp) (fs : list Frame) (q h : Z) (e : Entry) (value : Lisp)
    (w : World) :
  env_at (blocks w) env fs → hash_at (blocks w) q h → env_fuel h fs fuel →
  env_entry (symbol_ptr q) h fs = Some e →
  ∃ w',
    lisp_env_set fuel env (symbol_ptr q) value w = Ok tt w' ∧
    pair_at (blocks w') (entry_pair e) (entry_key e) value ∧
    (∀ a, a ≠ entry_pair e → blocks w' !! a = blocks w !! a) ∧
    ∀ q2 h2, hash_at (blocks w) q2 h2 → env_fuel h2 fs fuel →
      lisp_env_lookup fuel env (symbol_ptr q2) w' =
        Ok (match env_entry (symbol_ptr q2) h2 fs with
            | Some e2 => pair_ptr (entry_pair e2)
            | None => lisp_null
            end) w'.
Proof. apply env_set_spec. Qed.

(** X27.  [lisp_env_set] on a symbol that no frame binds prints a diagnostic
    and then stores through the null pair that the lookup returned, which
    is undefined. *)
Theorem lisp_env_set_unbound
    (fuel : nat) (env : Lisp) (fs : list Frame) (q h : Z) (b : LispBlock) (name : string)
    (value : Lisp) (w : World) :
  env_at (blocks w) env fs → blocks w !! q = Some b → data b = DSymbol h name →
  env_fuel h fs fuel → env_entry (symbol_ptr q) h fs = None →
  lisp_env_set fuel env (symbol_ptr q) value w =
    Undef (fprintf_stderr ("error: unknown variable: " ++ name) w).
Proof.
  intros Hat Hb Hd Hfuel He.
  assert (Hq : hash_at (blocks w) q h) by by exists b, name.
  assert (Hs : symbol_at (blocks w) q name) by by exists b, h.
  unfold lisp_env_set.
  rewrite (bind_Ok_l _ _ _ _ _ (env_lookup_spec w q h fs env fuel Hat Hq Hfuel)).
  rewrite He, lisp_null_is_null. rewrite bind_bind.
  rewrite (bind_Ok_l _ _ _ _ _ (lisp_symbol_spec _ _ _ Hs)).
  reflexivity.
Qed.

Section Assignment.
Variable funcs : nat → Lisp → M (Lisp * LispError).

(** X28.  Evaluating [(set! s e)] with [s] bound evaluates [e], stores the
    value in the pair of the innermost binding of [s] and returns null;
    evaluating [s] afterwards returns that value, and no other block is
    changed by the store. *)
Theorem eval_set_rebinds
    (fuel : nat) (x env e v tl : Lisp) (a a1 a2 s q h : Z) (fs : list Frame) (en : Entry)
    (rest : list (Z * Lisp)) (w w1 : World) :
  chain (blocks w) x ((a, symbol_ptr s) :: (a1, symbol_ptr q) :: (a2, e) :: rest) tl →
  symbol_at (blocks w) s "SET!" → lisp_is_null env = false →
  eval_r funcs fuel e env w = Ok v w1 →
  env_at (blocks w1) env fs → hash_at (blocks w1) q h → env_fuel h fs fuel →
  env_entry (symbol_ptr q) h fs = Some en →
  ∃ w2,
    eval_r funcs (S fuel) x env w = Ok lisp_null w2 ∧
    eval_r funcs (S fuel) (symbol_ptr q) env w2 = Ok v w2 ∧
    (∀ a', a' ≠ entry_pair en → blocks w2 !! a' = blocks w1 !! a').
Proof.
  intros Hc Hs Hnull Hev Hat Hq Hfuel Hen. pose proof Hc as Hc0.
  cbn in Hc. destruct Hc as (-> & next & Hp & _).
  destruct (env_set_spec fuel env fs q h en v w1 Hat Hq Hfuel Hen)
    as (w2 & Hset & Hpair & Hframe & Hlook).
  exists w2. split; [|split; [|done]].
  - cbn [eval_r]. rewrite Hnull. cbn [negb assert]. rewrite bind_ret.
    cbn [lisp_type pair_ptr].
    rewrite (bind_Ok_l _ _ _ _ _ (op_name_of_symbol w _ a s _ "SET!" eq_refl Hp Hs)).
    unfold is_op. rewrite !bool_decide_eq_false_2 by done. rewrite bool_decide_eq_true_2 by done.
    rewrite (bind_Ok_l _ _ _ _ _ (lisp_at_index_chain w _ _ _ 1%nat _ _ Hc0 eq_refl)).
    rewrite (bind_Ok_l _ _ _ _ _ (lisp_at_index_chain w _ _ _ 2%nat _ _ Hc0 eq_refl)).
    rewrite (bind_Ok_l _ _ _ _ _ Hev).
    by rewrite (bind_Ok_l _ _ _ _ _ Hset).
  - change (eval_r funcs (S fuel) (symbol_ptr q) env w2)
      with ((assert (negb (lisp_is_null env));;
             do pair <- lisp_env_lookup fuel env (symbol_ptr q);
             if lisp_is_null pair then
               do name <- lisp_symbol (symbol_ptr q);
               modify (fprintf_stderr ("cannot find variable: " ++ name));;
               longjmp LISP_ERROR_UNKNOWN_VAR
             else lisp_cdr pair) w2).
    rewrite Hnull. cbn [negb assert]. rewrite bind_ret.
    rewrite (bind_Ok_l _ _ _ _ _ (Hlook q h Hq Hfuel)). rewrite Hen, pair_ptr_not_null.
    by eapply lisp_cdr_spec.
Qed.

End Assignment.

End Proofs.

(** ** Instances of the universal properties *)

Lemma lisp_append_copies_witness :
  ∃ start w' new,
    lisp_append (L := lp64) 5 three_list (lisp_make_int 7) three_list_world = Ok start w' ∧
    chain (blocks w') start new (lisp_make_int 7) ∧
    new.*2 = [lisp_make_int 1; lisp_make_int 2; lisp_make_int 3] ∧
    (∀ a, a ∈ new.*1 → blocks three_list_world !! a = None) ∧
    blocks three_list_world ⊆ blocks w' ∧
    chain (blocks w') three_list
      (cells_of 10 (blocks three_list_world) three_list) lisp_null.
Proof.
  apply (proj2 (lisp_append_copies (L := lp64) 5 three_list (lisp_make_int 7)
                  three_list_world)
           (cells_of 10 (blocks three_list_world) three_list)).
  - vm_compute. congruence.
  - apply heap_okb_sound. vm_compute. reflexivity.
  - apply chainb_sound. vm_compute. reflexivity.
  - vm_compute. lia.
Defined.

Lemma eval_if_truncates_predicate_witness :
  eval_r (L := lp64) no_funcs 10 (value_after if_one_half)
    (global_env (ctx (world_after if_one_half))) (world_after if_one_half)
  = eval_r (L := lp64) no_funcs 9 (lisp_make_int 2)
      (global_env (ctx (world_after if_one_half))) (world_after if_one_half).
Proof.
  refine (proj1 (eval_if_truncates_predicate (L := lp64) no_funcs 9
                   (value_after if_one_half)
                   (global_env (ctx (world_after if_one_half)))
                   (lisp_make_float one_half) (lisp_make_int 1) (lisp_make_int 2)
                   (lisp_make_float one_half)
                   (world_after if_one_half) (world_after if_one_half) _ _ _)
            one_half eq_refl _).
  - let c := eval vm_compute in
        (cells_of 10 (blocks (world_after if_one_half)) (value_after if_one_half)) in
    match c with
    | [(?a0, {| lisp_val := Ptr ?s |}); (?a1, _); (?a2, _); (?a3, _)] =>
        exists a0, s, a1, a2, a3, lisp_null
    end.
    split; [apply chainb_sound; vm_compute; reflexivity|].
    eexists _, _. split; vm_compute; reflexivity.
  - vm_compute. reflexivity.
  - vm_compute. reflexivity.
  - vm_compute. split; [reflexivity|reflexivity].
Defined.

(** C10, counterexample: [(if 2147483648.0 1 2)].  The predicate evaluates
    to a float of magnitude at least 1, but no [int] holds its integral
    part: [lisp_int] is undefined there and the evaluation does not
    continue with the consequent. *)
Lemma eval_if_large_float_is_undefined :
  float_at_least_one two_to_31 ∧
  if_form (blocks (world_after if_large_float)) (value_after if_large_float)
    (lisp_make_float two_to_31) (lisp_make_int 1) (lisp_make_int 2) ∧
  eval_r (L := lp64) no_funcs 9 (lisp_make_float two_to_31)
    (global_env (ctx (world_after if_large_float))) (world_after if_large_float)
    = Ok (lisp_make_float two_to_31) (world_after if_large_float) ∧
  eval_r (L := lp64) no_funcs 10 (value_after if_large_float)
    (global_env (ctx (world_after if_large_float))) (world_after if_large_float)
    = Undef (world_after if_large_float) ∧
  eval_r (L := lp64) no_funcs 9 (lisp_make_int 1)
    (global_env (ctx (world_after if_large_float))) (world_after if_large_float)
    = Ok (lisp_make_int 1) (world_after if_large_float).
Proof.
  split; [left; lia|]. split.
  { let c := eval vm_compute in
        (cells_of 10 (blocks (world_after if_large_float)) (value_after if_large_float)) in
    match c with
    | [(?a0, {| lisp_val := Ptr ?s |}); (?a1, _); (?a2, _); (?a3, _)] =>
        exists a0, s, a1, a2, a3, lisp_null
    end.
    split; [apply chainb_sound; vm_compute; reflexivity|].
    eexists _, _. split; vm_compute; reflexivity. }
  split; [vm_compute; reflexivity|]. split; vm_compute; reflexivity.
Qed.

Lemma reader_world_ok : heap_ok (L := lp64) reader_world ∧ symtab_ok reader_world.
Proof.
  split; [apply heap_okb_sound; vm_compute; reflexivity|].
  exists 512, (replicate 512 []).
  let r := eval vm_compute in (symbol_table (ctx reader_world)) in
  match r with
  | {| lisp_val := Ptr ?t |} =>
      let b := eval vm_compute in (blocks reader_world !! t) in
      match b with
      | Some ?b => exists t, b, 0, (replicate 512 lisp_null)
      end
  end.
  split; [vm_compute; reflexivity|]. split; [vm_compute; reflexivity|].
  split; [vm_compute; reflexivity|]. split; [lia|]. split; [vm_compute; reflexivity|].
  apply Forall2_replicate. split; [reflexivity|constructor].
Qed.

Lemma intern_folds_case_witness :
  ∃ a w1 name,
    returns (fun f => lisp_make_symbol (L := lp64) f "car") reader_world (symbol_ptr a) w1 ∧
    returns (fun f => lisp_make_symbol (L := lp64) f (upper "car")) w1 (symbol_ptr a) w1 ∧
    returns (fun f => lisp_make_symbol (L := lp64) f (lower "car")) w1 (symbol_ptr a) w1 ∧
    symbol_at (blocks w1) a name ∧ upper name = name ∧
    prefix 2048 name = prefix 2048 (upper "car") ∧
    ((String.length "car" < 2048)%nat → name = upper "car") ∧
    (prefix 2048 (upper "car") ≠ prefix 2048 (upper "cdr") →
     ∃ b w2, returns (fun f => lisp_make_symbol (L := lp64) f "cdr") w1 (symbol_ptr b) w2 ∧
             b ≠ a).
Proof.
  apply (intern_folds_case (L := lp64) "car" "cdr" reader_world).
  - apply reader_world_ok.
  - apply reader_world_ok.
  - vm_compute. reflexivity.
  - vm_compute. reflexivity.
Defined.

Lemma intern_long_names_share_block :
  upper long_name_ab ≠ upper long_name_ba ∧
  ∃ a w1 w2,
    lisp_make_symbol (L := lp64) 10 long_name_ab reader_world = Ok (symbol_ptr a) w1 ∧
    lisp_make_symbol (L := lp64) 10 long_name_ba w1 = Ok (symbol_ptr a) w2 ∧
    symbol_at (blocks w2) a (upper long_name_ab).
Proof.
  split; [vm_compute; congruence|].
  let r := eval vm_compute in (lisp_make_symbol (L := lp64) 10 long_name_ab reader_world) in
  match r with
  | Ok {| lisp_val := Ptr ?a |} ?w1 =>
      let r' := eval vm_compute in (lisp_make_symbol (L := lp64) 10 long_name_ba w1) in
      match r' with
      | Ok _ ?w2 =>
          exists a, w1, w2; split; [vm_compute; reflexivity|];
          split; [vm_compute; reflexivity|];
          let b := eval vm_compute in (blocks w2 !! a) in
          match b with
          | Some ?b => exists b, (hash_string long_name_ab)
          end
      end
  end.
  split; vm_compute; reflexivity.
Qed.

Lemma read_wraps_forms_witness :
  ∃ l w',
    returns (fun f => lisp_read (L := lp64) no_atof f "(define two 2) (f two 'y)") reader_world
      (l, LISP_ERROR_NONE) w' ∧
    (∃ F, tree (blocks w') F l
            (slist [Sym "BEGIN"; slist [Sym "DEFINE"; Sym "TWO"; Int 2];
                    slist [Sym "F"; Sym "TWO"; slist [Sym "QUOTE"; Sym "Y"]]])) ∧
    (∃ d, ∀ k, (d ≤ k)%nat → view k w' l =
            slist [Sym "BEGIN"; slist [Sym "DEFINE"; Sym "TWO"; Int 2];
                    slist [Sym "F"; Sym "TWO"; slist [Sym "QUOTE"; Sym "Y"]]]) ∧
    heap_ok (L := lp64) w' ∧ symtab_ok w'.
Proof.
  apply (read_wraps_forms no_atof "(define two 2) (f two 'y)" 10
           [slist [Sym "DEFINE"; Sym "TWO"; Int 2];
            slist [Sym "F"; Sym "TWO"; slist [Sym "QUOTE"; Sym "Y"]]] reader_world).
  - apply reader_world_ok.
  - apply reader_world_ok.
  - vm_compute. reflexivity.
  - discriminate.
Defined.

(** ** Checkers and instances of the further properties *)

Lemma alistb_sound m l es : alistb m l es = true → alist m l es.
Proof.
  unfold alistb. intros [Hc Hall]%andb_prop. split; [by apply chainb_sound|].
  apply Forall_forall. intros e He. apply list_elem_of_In in He.
  rewrite forallb_forall in Hall. specialize (Hall e He).
  destruct (m !! entry_pair e) as [b|] eqn:Hb; [|done]. cbn in Hall.
  destruct (data b) eqn:Hd; try done.
  apply andb_prop in Hall as [->%bool_decide_eq_true ->%bool_decide_eq_true].
  by exists b.
Qed.

Lemma all2_Forall2 {A B} (f : A → B → bool) (P : A → B → Prop) xs ys :
  (∀ x y, f x y = true → P x y) → all2 f xs ys = true → Forall2 P xs ys.
Proof.
  intros Hf. revert ys. induction xs as [|x xs IH]; intros [|y ys]; cbn; try done.
  intros [Hx Hxs]%andb_prop. constructor; auto.
Qed.

Lemma table_atb_sound m t capacity buckets :
  table_atb m t capacity buckets = true → table_at m t capacity buckets.
Proof.
  unfold table_atb. destruct (m !! t) as [b|] eqn:Hb; [|done]. cbn.
  destruct (data b) eqn:Hd; try done.
  intros [[[Hcap Hpos]%andb_prop Hlen]%andb_prop Hall]%andb_prop.
  apply Z.eqb_eq in Hcap, Hlen. apply Z.ltb_lt in Hpos. subst capacity0.
  exists b, size, entries. split; [done|]. split; [done|]. split; [done|]. split; [done|].
  eapply all2_Forall2; [|done]. intros. by apply alistb_sound.
Qed.

Lemma pair_atb_sound m a x y : pair_atb m a x y = true → pair_at m a x y.
Proof.
  unfold pair_atb. destruct (m !! a) as [b|] eqn:Hb; [|done]. cbn.
  destruct (data b) eqn:Hd; try done.
  intros [->%bool_decide_eq_true ->%bool_decide_eq_true]%andb_prop. by exists b.
Qed.

Lemma symbol_atb_sound m a name : symbol_atb m a name = true → symbol_at m a name.
Proof.
  unfold symbol_atb. destruct (m !! a) as [b|] eqn:Hb; [|done]. cbn.
  destruct (data b) eqn:Hd; try done. intros ->%bool_decide_eq_true. by exists b, hash.
Qed.

Lemma hash_atb_sound m q h : hash_atb m q h = true → hash_at m q h.
Proof.
  unfold hash_atb. destruct (m !! q) as [b|] eqn:Hb; [|done]. cbn.
  destruct (data b) eqn:Hd; try done. intros ->%Z.eqb_eq. by exists b, name.
Qed.

Section Instances.
#[local] Existing Instance lp64.

Lemma lisp_length_counts_cells_witness :
  lisp_length 5 three_list three_list_world = Ok (Z.of_nat (length three_cells)) three_list_world.
Proof.
  apply (lisp_length_counts_cells 5 three_list three_cells three_list_world).
  - apply chainb_sound. vm_compute. reflexivity.
  - vm_compute. lia.
Defined.

Lemma lisp_at_index_bounds_witness :
  (∀ i a x, three_cells !! i = Some (a, x) →
            lisp_at_index three_list (Z.of_nat i) three_list_world = Ok x three_list_world) ∧
  (∀ i a x, i <= 0 → three_cells !! 0%nat = Some (a, x) →
            lisp_at_index three_list i three_list_world = Ok x three_list_world) ∧
  (∀ i, Z.of_nat (length three_cells) < i →
        lisp_at_index three_list i three_list_world = Ok lisp_null three_list_world).
Proof.
  apply (lisp_at_index_bounds three_list lisp_null three_cells three_list_world).
  - apply chainb_sound. vm_compute. reflexivity.
  - vm_compute. congruence.
Defined.

Lemma lisp_reverse_inplace_reverses_witness :
  ∃ r w',
    lisp_reverse_inplace 5 three_list three_list_world = Ok r w' ∧
    chain (blocks w') r (rev three_cells) lisp_null ∧
    (∀ a, a ∉ three_cells.*1 → blocks w' !! a = blocks three_list_world !! a) ∧
    (∀ a, is_Some (blocks w' !! a) ↔ is_Some (blocks three_list_world !! a)).
Proof.
  apply (lisp_reverse_inplace_reverses 5 three_list lisp_null three_cells three_list_world).
  - apply chainb_sound. vm_compute. reflexivity.
  - vm_compute. congruence.
  - vm_compute. lia.
Defined.

Lemma lisp_reverse_inplace_twice_witness :
  ∃ r w1 w2,
    lisp_reverse_inplace 5 three_list three_list_world = Ok r w1 ∧
    lisp_reverse_inplace 5 r w1 = Ok three_list w2 ∧
    chain (blocks w2) three_list three_cells lisp_null ∧
    (∀ a, a ∉ three_cells.*1 → blocks w2 !! a = blocks three_list_world !! a).
Proof.
  apply (lisp_reverse_inplace_twice 5 three_list three_cells three_list_world).
  - apply chainb_sound. vm_compute. reflexivity.
  - vm_compute. lia.
Defined.

Lemma lisp_make_listv_builds_witness :
  ∃ r w' cells,
    lisp_make_listv (lisp_make_int 1)
      ([lisp_make_int 2; lisp_make_int 3] ++ lisp_null :: [lisp_make_int 9]) reader_world
      = Ok r w' ∧
    chain (blocks w') r cells lisp_null ∧
    cells.*2 = lisp_make_int 1 :: [lisp_make_int 2; lisp_make_int 3] ∧
    (∀ a, a ∈ cells.*1 → blocks reader_world !! a = None) ∧
    blocks reader_world ⊆ blocks w' ∧ heap_ok w'.
Proof.
  apply (lisp_make_listv_builds (lisp_make_int 1) [lisp_make_int 2; lisp_make_int 3]
           [lisp_make_int 9] reader_world).
  - apply heap_okb_sound. vm_compute. reflexivity.
  - repeat constructor.
Defined.

Lemma lisp_make_list_replicates_witness :
  ∃ r w' cells,
    lisp_make_list (lisp_make_int 7) 3 reader_world = Ok r w' ∧
    chain (blocks w') r cells lisp_null ∧
    cells.*2 = replicate (Z.to_nat 3) (lisp_make_int 7) ∧
    (3 <= 0 → r = lisp_null) ∧
    (∀ a, a ∈ cells.*1 → blocks reader_world !! a = None) ∧
    blocks reader_world ⊆ blocks w' ∧ heap_ok w'.
Proof.
  apply (lisp_make_list_replicates (lisp_make_int 7) 3 reader_world).
  apply heap_okb_sound. vm_compute. reflexivity.
Defined.

Lemma lisp_assoc_first_match_witness :
  lisp_assoc 5 scene_bucket (symbol_ptr scene_a) scene_world
    = Ok (assoc_result (symbol_ptr scene_a) scene_entries) scene_world ∧
  (∀ e, assoc_entry (symbol_ptr scene_a) scene_entries = Some e →
        e ∈ scene_entries ∧ lisp_eq (entry_key e) (symbol_ptr scene_a) = true ∧
        pair_at (blocks scene_world) (entry_pair e) (entry_key e) (entry_value e)) ∧
  (assoc_entry (symbol_ptr scene_a) scene_entries = None →
   ∀ e, e ∈ scene_entries → lisp_eq (entry_key e) (symbol_ptr scene_a) = false).
Proof.
  apply (lisp_assoc_first_match 5 scene_bucket (symbol_ptr scene_a) scene_entries scene_world).
  - apply alistb_sound. vm_compute. reflexivity.
  - vm_compute. lia.
Defined.

Lemma lisp_cons_round_trip_witness :
  ∃ a w',
    lisp_cons (lisp_make_int 1) (lisp_make_int 2) reader_world = Ok (pair_ptr a) w' ∧
    lisp_car (pair_ptr a) w' = Ok (lisp_make_int 1) w' ∧
    lisp_cdr (pair_ptr a) w' = Ok (lisp_make_int 2) w' ∧
    blocks reader_world !! a = None ∧ blocks reader_world ⊆ blocks w' ∧ heap_ok w'.
Proof.
  apply (lisp_cons_round_trip (lisp_make_int 1) (lisp_make_int 2) reader_world).
  apply heap_okb_sound. vm_compute. reflexivity.
Defined.

Lemma gc_alloc_returns_fresh_block_witness :
  ∃ a w',
    gc_alloc 24 LISP_STRING reader_world = Ok a w' ∧
    blocks reader_world !! a = None ∧
    blocks w' !! a = Some (mkBlock GC_CLEAR 24 LISP_STRING DUninit) ∧
    (∀ a', a' ≠ a → blocks w' !! a' = blocks reader_world !! a') ∧
    heap_ok w' ∧ same_roots reader_world w'.
Proof.
  apply (gc_alloc_returns_fresh_block 24 LISP_STRING reader_world).
  - apply heap_okb_sound. vm_compute. reflexivity.
  - lia.
  - vm_compute. reflexivity.
Defined.

Lemma lisp_make_string_round_trip_witness :
  ∃ p w',
    lisp_make_string "abc" reader_world = Ok (string_ptr p) w' ∧
    lisp_string (string_ptr p) w' = Ok "abc"%string w' ∧
    blocks reader_world !! p = None ∧
    (∀ a, a ≠ p → blocks w' !! a = blocks reader_world !! a) ∧
    heap_ok w'.
Proof.
  apply (lisp_make_string_round_trip "abc" reader_world).
  - apply heap_okb_sound. vm_compute. reflexivity.
  - vm_compute. reflexivity.
Defined.

Lemma lisp_make_lambda_round_trip_witness :
  ∃ p w',
    lisp_make_lambda (lisp_make_int 1) (lisp_make_int 2) (lisp_make_int 3) reader_world
      = Ok (mkLisp LISP_LAMBDA (Ptr p)) w' ∧
    lisp_lambda (mkLisp LISP_LAMBDA (Ptr p)) w' =
      Ok (lambda_counter (ctx reader_world), lisp_make_int 1, lisp_make_int 2, lisp_make_int 3) w' ∧
    lambda_counter (ctx w') = lambda_counter (ctx reader_world) + 1 ∧
    blocks reader_world !! p = None ∧
    (∀ a, a ≠ p → blocks w' !! a = blocks reader_world !! a).
Proof.
  apply (lisp_make_lambda_round_trip (lisp_make_int 1) (lisp_make_int 2) (lisp_make_int 3)
           reader_world).
  - apply heap_okb_sound. vm_compute. reflexivity.
  - vm_compute. reflexivity.
Defined.


Lemma lisp_table_set_then_get_witness :
  ∃ w' p k,
    lisp_table_set 5 (table_ptr scene_table) (symbol_ptr scene_b) (lisp_make_int 2) scene_world
      = Ok tt w' ∧
    lisp_table_get 5 (table_ptr scene_table) (symbol_ptr scene_b) w' = Ok (pair_ptr p) w' ∧
    pair_at (blocks w') p k (lisp_make_int 2) ∧ lisp_eq k (symbol_ptr scene_b) = true ∧
    heap_ok w' ∧ ∃ buckets', table_at (blocks w') scene_table 13 buckets'.
Proof.
  apply (lisp_table_set_then_get 5 scene_table scene_b (hash_string "B") 13 scene_buckets
           (lisp_make_int 2) scene_world).
  - apply heap_okb_sound. vm_compute. reflexivity.
  - apply table_atb_sound. vm_compute. reflexivity.
  - apply hash_atb_sound. vm_compute. reflexivity.
  - vm_compute. lia.
Defined.

Lemma lisp_table_set_keeps_others_witness :
  ∃ w' r,
    lisp_table_set 5 (table_ptr scene_table) (symbol_ptr scene_b) (lisp_make_int 2) scene_world
      = Ok tt w' ∧
    lisp_table_get 5 (table_ptr scene_table) (symbol_ptr scene_a) scene_world = Ok r scene_world ∧
    lisp_table_get 5 (table_ptr scene_table) (symbol_ptr scene_a) w' = Ok r w' ∧
    (∀ p k v, r = pair_ptr p → pair_at (blocks scene_world) p k v → pair_at (blocks w') p k v).
Proof.
  apply (lisp_table_set_keeps_others 5 scene_table scene_b (hash_string "B") 13 scene_buckets
           (lisp_make_int 2) scene_a (hash_string "A") scene_world).
  - apply heap_okb_sound. vm_compute. reflexivity.
  - apply table_atb_sound. vm_compute. reflexivity.
  - apply hash_atb_sound. vm_compute. reflexivity.
  - vm_compute. lia.
  - apply hash_atb_sound. vm_compute. reflexivity.
  - vm_compute. congruence.
  - vm_compute. lia.
Defined.

Lemma lisp_make_table_is_empty_witness :
  ∃ t w',
    lisp_make_table 13 reader_world = Ok (table_ptr t) w' ∧
    blocks reader_world !! t = None ∧ heap_ok w' ∧
    (∀ a, a ≠ t → blocks w' !! a = blocks reader_world !! a) ∧
    (0 < 13 < 2 ^ 16 → table_at (blocks w') t 13 (replicate (Z.to_nat 13) [])) ∧
    ∀ fuel q h, hash_at (blocks w') q h →
      lisp_table_get fuel (table_ptr t) (symbol_ptr q) w' =
        if u16 13 =? 0 then Undef w' else Ok lisp_null w'.
Proof.
  apply (lisp_make_table_is_empty 13 reader_world).
  - apply heap_okb_sound. vm_compute. reflexivity.
  - lia.
  - vm_compute. reflexivity.
Defined.

Lemma scene_env_at : env_at (blocks scene_world) scene_env [scene_frame].
Proof.
  split.
  - apply chainb_sound. vm_compute. reflexivity.
  - constructor; [|constructor]. apply table_atb_sound. vm_compute. reflexivity.
Qed.

Lemma scene_env_fuel : env_fuel (hash_string "A") [scene_frame] 5.
Proof. intros f ->%list_elem_of_singleton. vm_compute. lia. Qed.

Lemma lisp_env_lookup_innermost_witness :
  lisp_env_lookup 5 scene_env (symbol_ptr scene_a) scene_world =
    Ok (match env_entry (symbol_ptr scene_a) (hash_string "A") [scene_frame] with
        | Some e => pair_ptr (entry_pair e)
        | None => lisp_null
        end) scene_world.
Proof.
  apply (lisp_env_lookup_innermost 5 scene_env [scene_frame] scene_a (hash_string "A")
           scene_world).
  - apply scene_env_at.
  - apply hash_atb_sound. vm_compute. reflexivity.
  - apply scene_env_fuel.
Defined.

Lemma lisp_env_define_then_lookup_witness :
  ∃ w' p k,
    lisp_env_define 5 (pair_ptr (address scene_env)) (symbol_ptr scene_b) (lisp_make_int 2)
      scene_world = Ok tt w' ∧
    lisp_env_lookup 6 (pair_ptr (address scene_env)) (symbol_ptr scene_b) w'
      = Ok (pair_ptr p) w' ∧
    pair_at (blocks w') p k (lisp_make_int 2) ∧ lisp_eq k (symbol_ptr scene_b) = true.
Proof.
  apply (lisp_env_define_then_lookup 5 (address scene_env) scene_table scene_b
           (hash_string "B") 13 lisp_null (lisp_make_int 2) scene_buckets scene_world).
  - apply heap_okb_sound. vm_compute. reflexivity.
  - apply pair_atb_sound. vm_compute. reflexivity.
  - apply table_atb_sound. vm_compute. reflexivity.
  - apply hash_atb_sound. vm_compute. reflexivity.
  - vm_compute. lia.
Defined.

Lemma eval_variable_reference_witness :
  eval_r no_funcs 6 (symbol_ptr scene_a) scene_env scene_world =
    match env_entry (symbol_ptr scene_a) (hash_string "A") [scene_frame] with
    | Some e => Ok (entry_value e) scene_world
    | None => Throw LISP_ERROR_UNKNOWN_VAR
                (fprintf_stderr ("cannot find variable: " ++ "A") scene_world)
    end.
Proof.
  apply (eval_variable_reference no_funcs 5 scene_env [scene_frame] scene_a (hash_string "A")
           (block_at scene_world scene_a) "A" scene_world).
  - apply scene_env_at.
  - congruence.
  - vm_compute. reflexivity.
  - vm_compute. reflexivity.
  - apply scene_env_fuel.
Defined.

Lemma eval_quote_returns_datum_witness :
  eval_r no_funcs 6 (value_after quote_scene) scene_env (world_after quote_scene)
    = Ok (cell_elem (form_cells quote_scene) 1) (world_after quote_scene).
Proof.
  apply (eval_quote_returns_datum no_funcs 5 (value_after quote_scene) scene_env
           (cell_elem (form_cells quote_scene) 1) lisp_null
           (cell_addr (form_cells quote_scene) 0) (cell_addr (form_cells quote_scene) 1)
           (address (cell_elem (form_cells quote_scene) 0)) [] (world_after quote_scene)).
  - apply chainb_sound. vm_compute. reflexivity.
  - apply symbol_atb_sound. vm_compute. reflexivity.
  - vm_compute. reflexivity.
Defined.

Lemma eval_lambda_makes_closure_witness :
  ∃ p w',
    eval_r no_funcs 6 (value_after lambda_scene) scene_env (world_after lambda_scene)
      = Ok (mkLisp LISP_LAMBDA (Ptr p)) w' ∧
    lisp_lambda (mkLisp LISP_LAMBDA (Ptr p)) w' =
      Ok (lambda_counter (ctx (world_after lambda_scene)),
          cell_elem (form_cells lambda_scene) 1, cell_elem (form_cells lambda_scene) 2,
          scene_env) w' ∧
    lambda_counter (ctx w') = lambda_counter (ctx (world_after lambda_scene)) + 1 ∧
    blocks (world_after lambda_scene) !! p = None ∧
    (∀ a', a' ≠ p → blocks w' !! a' = blocks (world_after lambda_scene) !! a').
Proof.
  apply (eval_lambda_makes_closure no_funcs 5 (value_after lambda_scene) scene_env
           (cell_elem (form_cells lambda_scene) 1) (cell_elem (form_cells lambda_scene) 2)
           lisp_null
           (cell_addr (form_cells lambda_scene) 0) (cell_addr (form_cells lambda_scene) 1)
           (cell_addr (form_cells lambda_scene) 2)
           (address (cell_elem (form_cells lambda_scene) 0)) [] (world_after lambda_scene)).
  - apply chainb_sound. vm_compute. reflexivity.
  - apply symbol_atb_sound. vm_compute. reflexivity.
  - vm_compute. reflexivity.
  - apply heap_okb_sound. vm_compute. reflexivity.
  - vm_compute. reflexivity.
Defined.

Lemma eval_define_binds_witness :
  ∃ w2,
    eval_r no_funcs 6 (value_after define_form) scene_env (world_after define_form)
      = Ok lisp_null w2 ∧
    eval_r no_funcs 7 (symbol_ptr scene_b) scene_env w2 = Ok (lisp_make_int 5) w2.
Proof.
  apply (eval_define_binds no_funcs 5 (value_after define_form) scene_env
           (cell_elem (form_cells define_form) 2) (lisp_make_int 5) lisp_null lisp_null
           (cell_addr (form_cells define_form) 0) (cell_addr (form_cells define_form) 1)
           (cell_addr (form_cells define_form) 2)
           (address (cell_elem (form_cells define_form) 0)) scene_b
           (address scene_env) scene_table (hash_string "B") 13 []
           (frame_buckets (frame_after define_form))
           (world_after define_form) (world_after define_form)).
  - apply chainb_sound. vm_compute. reflexivity.
  - apply symbol_atb_sound. vm_compute. reflexivity.
  - vm_compute. reflexivity.
  - vm_compute. reflexivity.
  - apply heap_okb_sound. vm_compute. reflexivity.
  - apply pair_atb_sound. vm_compute. reflexivity.
  - apply table_atb_sound. vm_compute. reflexivity.
  - apply hash_atb_sound. vm_compute. reflexivity.
  - vm_compute. lia.
Defined.

Lemma expand_leaves_quote_form_witness :
  expand_r 6 (value_after quote_form) (world_after quote_form)
    = Ok (value_after quote_form) (world_after quote_form).
Proof.
  apply (expand_leaves_quote_form 5 (value_after quote_form)
           (cell_elem (form_cells quote_form) 1)
           (cell_addr (form_cells quote_form) 0) (cell_addr (form_cells quote_form) 1)
           (address (cell_elem (form_cells quote_form) 0)) (world_after quote_form)).
  - apply chainb_sound. vm_compute. reflexivity.
  - apply symbol_atb_sound. vm_compute. reflexivity.
  - lia.
Defined.

Lemma expand_arity_errors_witness :
  ("QUOTE" = "QUOTE" → length (@nil (Z * Lisp)) ≠ 1%nat →
   expand_r 6 (value_after bare_quote) (world_after bare_quote)
     = Throw LISP_ERROR_BAD_QUOTE (world_after bare_quote)) ∧
  ("QUOTE" = "DEFINE" → (length (@nil (Z * Lisp)) < 2)%nat →
   expand_r 6 (value_after bare_quote) (world_after bare_quote)
     = Throw LISP_ERROR_BAD_DEFINE (world_after bare_quote)) ∧
  ("QUOTE" = "SET!" → length (@nil (Z * Lisp)) ≠ 2%nat →
   expand_r 6 (value_after bare_quote) (world_after bare_quote)
     = Throw LISP_ERROR_BAD_SET (world_after bare_quote)) ∧
  ("QUOTE" = "AND" → @nil (Z * Lisp) = [] →
   expand_r 6 (value_after bare_quote) (world_after bare_quote)
     = Throw LISP_ERROR_BAD_AND (world_after bare_quote)) ∧
  ("QUOTE" = "OR" → @nil (Z * Lisp) = [] →
   expand_r 6 (value_after bare_quote) (world_after bare_quote)
     = Throw LISP_ERROR_BAD_OR (world_after bare_quote)).
Proof.
  apply (expand_arity_errors 5 (value_after bare_quote)
           (cell_addr (form_cells bare_quote) 0)
           (address (cell_elem (form_cells bare_quote) 0)) [] "QUOTE" (world_after bare_quote)).
  - apply chainb_sound. vm_compute. reflexivity.
  - apply symbol_atb_sound. vm_compute. reflexivity.
  - cbn. lia.
Defined.

Lemma lisp_env_set_updates_binding_witness :
  ∃ w',
    lisp_env_set 5 scene_env (symbol_ptr scene_a) (lisp_make_int 2) scene_world = Ok tt w' ∧
    pair_at (blocks w') (entry_pair scene_entry) (entry_key scene_entry) (lisp_make_int 2) ∧
    (∀ a, a ≠ entry_pair scene_entry → blocks w' !! a = blocks scene_world !! a) ∧
    ∀ q2 h2, hash_at (blocks scene_world) q2 h2 → env_fuel h2 [scene_frame] 5 →
      lisp_env_lookup 5 scene_env (symbol_ptr q2) w' =
        Ok (match env_entry (symbol_ptr q2) h2 [scene_frame] with
            | Some e2 => pair_ptr (entry_pair e2)
            | None => lisp_null
            end) w'.
Proof.
  apply (lisp_env_set_updates_binding 5 scene_env [scene_frame] scene_a (hash_string "A")
           scene_entry (lisp_make_int 2) scene_world).
  - apply scene_env_at.
  - apply hash_atb_sound. vm_compute. reflexivity.
  - apply scene_env_fuel.
  - vm_compute. reflexivity.
Defined.

Lemma lisp_env_set_unbound_witness :
  lisp_env_set 5 scene_env (symbol_ptr scene_b) (lisp_make_int 2) scene_world =
    Undef (fprintf_stderr ("error: unknown variable: " ++ "B") scene_world).
Proof.
  apply (lisp_env_set_unbound 5 scene_env [scene_frame] scene_b (hash_string "B")
           (block_at scene_world scene_b) "B" (lisp_make_int 2) scene_world).
  - apply scene_env_at.
  - vm_compute. reflexivity.
  - vm_compute. reflexivity.
  - intros f ->%list_elem_of_singleton. vm_compute. lia.
  - vm_compute. reflexivity.
Defined.

Lemma eval_set_rebinds_witness :
  ∃ w2,
    eval_r no_funcs 6 (value_after set_scene) scene_env (world_after set_scene)
      = Ok lisp_null w2 ∧
    eval_r no_funcs 6 (symbol_ptr scene_a) scene_env w2 = Ok (lisp_make_int 5) w2 ∧
    (∀ a', a' ≠ entry_pair scene_entry → blocks w2 !! a' = blocks (world_after set_scene) !! a').
Proof.
  apply (eval_set_rebinds no_funcs 5 (value_after set_scene) scene_env
           (cell_elem (form_cells set_scene) 2) (lisp_make_int 5) lisp_null
           (cell_addr (form_cells set_scene) 0) (cell_addr (form_cells set_scene) 1)
           (cell_addr (form_cells set_scene) 2)
           (address (cell_elem (form_cells set_scene) 0)) scene_a (hash_string "A")
           [frame_after set_scene] scene_entry []
           (world_after set_scene) (world_after set_scene)).
  - apply chainb_sound. vm_compute. reflexivity.
  - apply symbol_atb_sound. vm_compute. reflexivity.
  - vm_compute. reflexivity.
  - vm_compute. reflexivity.
  - split.
    + apply chainb_sound. vm_compute. reflexivity.
    + constructor; [|constructor]. apply table_atb_sound. vm_compute. reflexivity.
  - apply hash_atb_sound. vm_compute. reflexivity.
  - intros f ->%list_elem_of_singleton. vm_compute. lia.
  - vm_compute. reflexivity.
Defined.

Lemma lisp_nav_composes_witness :
  lisp_nav three_list (String "c" (String "r" "")) three_list_world
    = Ok three_list three_list_world ∧
  (∀ a, toupper a = "A"%char →
        lisp_nav three_list (String "c" (String a (String "r" ""))) three_list_world
          = lisp_car three_list three_list_world) ∧
  (∀ a, toupper a = "D"%char →
        lisp_nav three_list (String "c" (String a (String "r" ""))) three_list_world
          = lisp_cdr three_list three_list_world) ∧
  (∀ p1 p2,
     Forall (λ a, nav_stop a = false) p1 →
     Forall (λ a, toupper a = "D"%char ∨ toupper a = "A"%char) p2 →
     lisp_nav three_list (String "c" (string_of_list_ascii (p1 ++ p2) ++ String "r" ""))
       three_list_world =
       (do l' <- lisp_nav three_list (String "c" (string_of_list_ascii p2 ++ String "r" EmptyString));
        lisp_nav l' (String "c" (string_of_list_ascii p1 ++ String "r" EmptyString)))
         three_list_world).
Proof.
  apply (lisp_nav_composes three_list "c" "r" "" three_list_world); reflexivity.
Defined.

End Instances.
